(** * dlqmc.sampling: Markov-chain samplers, trajectory assembly and
      walker initialisation

    A shallow embedding of [src/dlqmc/sampling.py].

    Conventions of the embedding.
    - A torch tensor of floats is a nested list of real numbers: float
      values are idealised as reals ([torch.exp] is [exp], [np.sqrt] of
      a number that is not negative is [sqrt]); rounding and overflow
      are not modelled.  The quotient of two tensors is the exception:
      where the divisor is zero it is an infinity or NaN, as in IEEE
      arithmetic, and a comparison treats them as the code does.
    - A Python [int] is a [Z]; lengths and indices are [nat].
    - A Python generator is a state machine: a state and a [next]
      function that runs the body up to the following [yield].
    - Random draws are explicit inputs: [torch.randn]/[torch.rand] read a
      table of draws indexed by the coordinates of the tensor they fill,
      [np.random] consumes a stream of naturals.
    - A tensor that the code only reads or overwrites as a whole is a
      value, and [clone()] is the identity on values.  The lifetime
      counter of the Langevin kernel is written in place and handed out
      through [numpy()], so it lives in an explicit memory of buffers.
    - Exceptions are values of [exn]; code that can raise returns a
      [result]. *)

From Stdlib Require Import Reals Lra List ZArith Lia Bool Permutation.
Import ListNotations.

Set Implicit Arguments.

(* ================================================================== *)
(** * Part I: the program *)
(* ================================================================== *)

(** ** Tensors *)

(** One walker: electrons x 3 coordinates. *)
Abbreviation walker := (list (list R)).
(** A walker batch: walkers x electrons x 3. *)
Abbreviation batch := (list (list (list R))).
(** One scalar per walker. *)
Abbreviation vec := (list R).
(** A boolean mask, one entry per walker. *)
Abbreviation mask := (list bool).

Inductive device := CPU | CUDA.

(** ** Exceptions *)

(** Modelled from the spec: [torchext.LUFactError] is not among the
    sources.  Sections 6 and 7: the factorisation failure carries the
    indices of the offending walkers; the code reads them from
    [e.info['idxs']] and stores the positions under [e.info['rs']]. *)
Record LUFactInfo := mkLUFactInfo {
  idxs : list nat;
  info_rs : option batch
}.

Inductive exn :=
| LUFactError (info : LUFactInfo)
| ZeroDivisionError
| ValueError
| IndexError
| TypeError
| RuntimeError.

Inductive result (A : Type) :=
| Ok (a : A)
| Raise (e : exn).
Arguments Ok {A} a.
Arguments Raise {A} e.

Definition bind {A B} (r : result A) (k : A -> result B) : result B :=
  match r with
  | Ok a => k a
  | Raise e => Raise e
  end.

Notation "x <- r ;; k" := (bind r (fun x => k))
  (at level 61, r at next level, right associativity).
Notation "' p <- r ;; k" := (bind r (fun p => k))
  (at level 61, p pattern, r at next level, right associativity).

(** ** Generators *)

(** What one [next(gen)] call gives: a yielded value and the suspended
    generator, an exception (the generator is finished afterwards), or
    [StopIteration]. *)
Inductive resumption (Y G : Type) :=
| Yield (y : Y) (g : G)
| Throw (e : exn)
| StopIteration.
Arguments Yield {Y G} y g.
Arguments Throw {Y G} e.
Arguments StopIteration {Y G}.

(** ** List helpers *)

Fixpoint zip_with {A B C} (f : A -> B -> C) (xs : list A) (ys : list B)
  : list C :=
  match xs, ys with
  | x :: xs', y :: ys' => f x y :: zip_with f xs' ys'
  | _, _ => []
  end.

(** Python's [range(lo, hi)]. *)
Definition range (lo hi : Z) : list Z :=
  map (fun k => (lo + Z.of_nat k)%Z) (seq 0 (Z.to_nat (hi - lo))).

(** ** samples_from *)

Section SamplesFrom.

(** [P] is one walker's row of a position tensor, [A] one walker's row of
    an amplitude tensor, [I] the diagnostics dictionary of a step. *)
Variables P A I G : Type.

Definition step : Type := (list P * list A * I)%type.

Variable next : G -> resumption step G.

(** [i >= n_discard and i % (n_decorrelate + 1) == 0]; [and] does not
    evaluate its right operand when the left one is false, and [%] by
    zero raises. *)
Definition keep (n_discard n_decorrelate i : Z) : result bool :=
  if (i <? n_discard)%Z then Ok false
  else if (n_decorrelate + 1 =? 0)%Z then Raise ZeroDivisionError
  else Ok ((i mod (n_decorrelate + 1)) =? 0)%Z.

(** The generator expression
    [(step for i, step in zip(steps, sampler) if ...)], consumed to its
    end.  [zip] asks [steps] first and the sampler second, and stops at
    the first of the two that is exhausted. *)
Fixpoint retained (n_discard n_decorrelate : Z) (steps : list Z) (g : G)
  : result (list step) :=
  match steps with
  | [] => Ok []
  | i :: steps' =>
      match next g with
      | StopIteration => Ok []
      | Throw e => Raise e
      | Yield s g' =>
          b <- keep n_discard n_decorrelate i ;;
          rest <- retained n_discard n_decorrelate steps' g' ;;
          Ok (if b then s :: rest else rest)
      end
  end.

(** [torch.stack(ts, dim=1)] for tensors with a leading walker axis:
    entry [w] of the result lists entry [w] of every tensor, in order.
    The tensor list must be non-empty and the tensors must agree on the
    walker axis.  (Agreement of the inner axes lies inside [X] and is not
    modelled.) *)
Fixpoint stack_rows (X : Type) (W : nat) (ts : list (list X))
  : list (list X) :=
  match ts with
  | [] => repeat [] W
  | t :: ts' => zip_with cons t (stack_rows W ts')
  end.

Definition stack_dim1 (X : Type) (ts : list (list X))
  : result (list (list X)) :=
  match ts with
  | [] => Raise RuntimeError
  | t :: _ =>
      if forallb (fun t' => length t' =? length t) ts
      then Ok (stack_rows (length t) ts)
      else Raise RuntimeError
  end.

(** [pd.DataFrame(infos)]: one row per record, labelled 0, 1, 2, ... *)
Definition DataFrame : Type := list (nat * I).
Definition pd_DataFrame (infos : list I) : DataFrame :=
  combine (seq 0 (length infos)) infos.

(** [rs, psis, infos = zip( *gen )]: unpacking into three names fails
    when the generator produced nothing. *)
Definition unzip3 (l : list step) : result (list (list P) * list (list A) * list I) :=
  match l with
  | [] => Raise ValueError
  | _ => Ok (map (fun s => fst (fst s)) l,
             map (fun s => snd (fst s)) l,
             map (fun s => snd s) l)
  end.

Definition samples_from (g : G) (steps : list Z) (n_discard n_decorrelate : Z)
  : result (list (list P) * list (list A) * DataFrame) :=
  l <- retained n_discard n_decorrelate steps g ;;
  '(rs, psis, infos) <- unzip3 l ;;
  rs' <- stack_dim1 rs ;;
  psis' <- stack_dim1 psis ;;
  Ok (rs', psis', pd_DataFrame infos).

(** *** The contract in the words of the specification *)

(** The pairs [zip(steps, sampler)] produces. *)
Fixpoint pulled (steps : list Z) (g : G) : result (list (Z * step)) :=
  match steps with
  | [] => Ok []
  | i :: steps' =>
      match next g with
      | StopIteration => Ok []
      | Throw e => Raise e
      | Yield s g' => rest <- pulled steps' g' ;; Ok ((i, s) :: rest)
      end
  end.

(** Index at least [n_discard] and index mod ([n_decorrelate] + 1) zero. *)
Definition is_retained (n_discard n_decorrelate : Z) (p : Z * step) : bool :=
  (n_discard <=? fst p)%Z && (fst p mod (n_decorrelate + 1) =? 0)%Z.

End SamplesFrom.

(** A synthetic kernel stream: the step index is the position and the
    amplitude of a single walker, and the diagnostics record too. *)
Definition index_stream (n : Z) : resumption (step Z Z Z) Z :=
  Yield ([n], [n], n) (n + 1)%Z.


(* ------------------------------------------------------------------ *)
(** ** Tensor arithmetic *)

Local Open Scope R_scope.

Fixpoint mapi_from {A B} (f : nat -> A -> B) (k : nat) (l : list A)
  : list B :=
  match l with
  | [] => []
  | x :: l' => f k x :: mapi_from f (S k) l'
  end.

Definition mapi {A B} (f : nat -> A -> B) (l : list A) : list B :=
  mapi_from f 0 l.

(** Element-wise operations on tensors of one shape. *)
Definition tmap2 (f : R -> R -> R) (x y : batch) : batch :=
  zip_with (zip_with (zip_with f)) x y.
Definition tmap (f : R -> R) (x : batch) : batch :=
  map (map (map f)) x.

Definition tadd : batch -> batch -> batch := tmap2 Rplus.
Definition tsub : batch -> batch -> batch := tmap2 Rminus.
Definition tmul : batch -> batch -> batch := tmap2 Rmult.
(** [x * c] and [c * x] for a scalar [c]. *)
Definition tscale_r (x : batch) (c : R) : batch := tmap (fun v => v * c) x.
Definition tscale_l (c : R) (x : batch) : batch := tmap (fun v => c * v) x.
(** [x ** 2]. *)
Definition tpow2 (x : batch) : batch := tmap (fun v => v ^ 2) x.

Definition rsum (l : list R) : R := fold_right Rplus 0 l.

(** [x.sum(dim=(-1, -2))]: one sum per walker, over the electron and the
    spatial axis. *)
Definition tsum_inner (x : batch) : vec :=
  map (fun w => rsum (map rsum w)) x.

(** The value of a quotient of floats: a real number, or what IEEE
    arithmetic makes of a zero divisor. *)
Inductive xreal :=
| Fin (r : R)
| PInf
| NInf
| NaN.

(** [x / y]: a non-zero dividend over zero is an infinity with the sign
    of the dividend, zero over zero is NaN.  (The divisors of the
    kernels are squares, so their zero is the positive zero.) *)
Definition xdiv (x y : R) : xreal :=
  if Req_dec_T y 0 then
    if Rlt_dec 0 x then PInf else if Rlt_dec x 0 then NInf else NaN
  else Fin (x / y).

(** [p * c] for a real [c]. *)
Definition xmul (p : xreal) (c : R) : xreal :=
  match p with
  | Fin a => Fin (a * c)
  | PInf => if Rlt_dec 0 c then PInf else if Rlt_dec c 0 then NInf else NaN
  | NInf => if Rlt_dec 0 c then NInf else if Rlt_dec c 0 then PInf else NaN
  | NaN => NaN
  end.

Definition vmul : vec -> vec -> vec := zip_with Rmult.
Definition vdiv : vec -> vec -> list xreal := zip_with xdiv.
Definition xvmul : list xreal -> vec -> list xreal := zip_with xmul.
Definition vsub : vec -> vec -> vec := zip_with Rminus.
Definition vpow2 (x : vec) : vec := map (fun v => v ^ 2) x.
Definition vexp (x : vec) : vec := map exp x.
Definition vscale_l (c : R) (x : vec) : vec := map (fun v => c * v) x.

Definition Rgtb (x y : R) : bool := if Rlt_dec y x then true else false.

(** [p > u]: plus infinity is above every number, and no comparison
    with NaN holds. *)
Definition xgtb (p : xreal) (u : R) : bool :=
  match p with
  | Fin a => Rgtb a u
  | PInf => true
  | NInf | NaN => false
  end.

(** [a > b], element-wise. *)
Definition vgt (a : list xreal) (b : vec) : mask := zip_with xgtb a b.

(** ** Random draws *)

(** The draws one iteration of a kernel consumes: [normal w e a] fills
    coordinate [a] of electron [e] of walker [w] of a [torch.randn]
    tensor, [uniform w] entry [w] of a [torch.rand] tensor. *)
Record draws := mkDraws {
  normal : nat -> nat -> nat -> R;
  uniform : nat -> R
}.

(** [torch.randn_like(x)], [torch.randn(x.shape)]. *)
Definition randn_like (noise : nat -> nat -> nat -> R) (x : batch) : batch :=
  mapi (fun w wk => mapi (fun e row => mapi (fun a _ => noise w e a) row) wk) x.

(** [torch.rand_like(v)]. *)
Definition rand_like (X : Type) (u : nat -> R) (v : list X) : vec :=
  mapi (fun w _ => u w) v.

(** [torch.randn(W, E, D)]. *)
Definition randn (noise : nat -> nat -> nat -> R) (W E D : nat) : batch :=
  map (fun w => map (fun e => map (fun a => noise w e a) (seq 0 D)) (seq 0 E))
      (seq 0 W).

(** ** Conditional assignment *)

(** Modelled from the spec: [utils.assign_where] is not among the
    sources.  Section 4.1: for every pair (current tensor, proposed
    tensor) the rows of the current tensor that belong to accepted
    walkers are overwritten with the proposed rows, under one mask for
    all pairs.  The tensors and the mask agree on the walker axis; rows
    beyond a shorter argument are left as they are. *)
Fixpoint assign_rows (X : Type) (where_ : mask) (x y : list X) : list X :=
  match x, y, where_ with
  | xi :: x', yi :: y', b :: w' =>
      (if b then yi else xi) :: assign_rows w' x' y'
  | _, _, _ => x
  end.

(** [assign_where((x,), (y,), where)]. *)
Definition assign_where1 (X : Type) (x y : list X) (where_ : mask) : list X :=
  assign_rows where_ x y.

(** [assign_where((x1, x2, x3), (y1, y2, y3), where)]. *)
Definition assign_where3 (X1 X2 X3 : Type)
  (xs : list X1 * list X2 * list X3) (ys : list X1 * list X2 * list X3)
  (where_ : mask) : list X1 * list X2 * list X3 :=
  let '(x1, x2, x3) := xs in
  let '(y1, y2, y3) := ys in
  (assign_rows where_ x1 y1, assign_rows where_ x2 y2,
   assign_rows where_ x3 y3).

(** ** Integer buffers *)

(** The storage of [torch.long] tensors and of the numpy arrays made from
    them.  A tensor or an array is a handle: the address of its buffer.
    Two handles with one address see each other's writes. *)
Definition heap := list (list Z).

Definition alloc (h : heap) (v : list Z) : heap * nat :=
  (h ++ [v], length h).

Definition load (h : heap) (l : nat) : list Z := nth l h [].

Fixpoint store (h : heap) (l : nat) (v : list Z) : heap :=
  match h, l with
  | [], _ => []
  | _ :: h', O => v :: h'
  | b :: h', S l' => b :: store h' l' v
  end.

Record long_tensor := mkLong {
  t_device : device;
  t_addr : nat
}.

(** 64-bit two's complement wrap-around of [torch.long]. *)
Definition wrap64 (z : Z) : Z :=
  ((z + 2 ^ 63) mod 2 ^ 64 - 2 ^ 63)%Z.

(** [x.new_zeros(n, dtype=torch.long)]: a fresh buffer on the device of
    [x]. *)
Definition new_zeros (h : heap) (d : device) (n : nat) : heap * long_tensor :=
  let '(h', l) := alloc h (repeat 0%Z n) in (h', mkLong d l).

(** [t[where] = c], in place. *)
Definition setitem_mask (h : heap) (t : long_tensor) (where_ : mask) (c : Z)
  : heap :=
  store h (t_addr t)
    (assign_rows where_ (load h (t_addr t)) (map (fun _ => c) (load h (t_addr t)))).

(** [t[where] += c]: the selected entries are read, incremented and
    written back into the buffer of [t]. *)
Definition iadd_mask (h : heap) (t : long_tensor) (where_ : mask) (c : Z)
  : heap :=
  store h (t_addr t)
    (assign_rows where_ (load h (t_addr t))
       (map (fun v => wrap64 (v + c)) (load h (t_addr t)))).

(** [t.cpu()]: the tensor itself when it lives on the CPU, a copy in a
    fresh CPU buffer otherwise. *)
Definition cpu (h : heap) (t : long_tensor) : heap * long_tensor :=
  match t_device t with
  | CPU => (h, t)
  | CUDA =>
      let '(h', l) := alloc h (load h (t_addr t)) in (h', mkLong CPU l)
  end.

(** [t.numpy()]: an array over the buffer of the tensor; nothing is
    copied.  The array is represented by the address of the buffer. *)
Definition numpy (t : long_tensor) : nat := t_addr t.

(** ** Step diagnostics *)

(** The [info] dictionary of a step: ['acceptance'], and for the Langevin
    kernel ['lifetime'], a numpy array. *)
Record Info := mkInfo {
  acceptance : R;
  lifetime : option nat
}.

(** What a kernel yields: position, amplitude, diagnostics. *)
Definition sample : Type := (batch * vec * Info)%type.

Definition count_true (m : mask) : nat := length (filter (fun b => b) m).

(** [accepted.type(torch.int).sum().item() / rs.shape[0]]: a quotient of
    two Python integers, which raises when the batch has no walker. *)
Definition acceptance_rate (accepted : mask) (rs : batch) : result R :=
  if (length rs =? 0)%nat then Raise ZeroDivisionError
  else Ok (INR (count_true accepted) / INR (length rs)).

(** A generator object: suspended in a state, or finished. *)
Inductive gen (S : Type) :=
| Suspended (s : S)
| Finished.
Arguments Suspended {S} s.
Arguments Finished {S}.

(** [next(g)] for a generator whose body runs [body] from one suspension
    point to the following one, in the memory [h].  A generator that
    raised or returned is finished, and a finished generator stops. *)
Definition gen_next (H Y S : Type) (body : H -> S -> H * resumption Y S)
  (h : H) (g : gen S) : H * resumption Y (gen S) :=
  match g with
  | Finished => (h, StopIteration)
  | Suspended s =>
      let '(h', r) := body h s in
      (h', match r with
           | Yield y s' => Yield y (Suspended s')
           | Throw e => Throw e
           | StopIteration => StopIteration
           end)
  end.

(** The generator object after [next(g)]. *)
Definition gen_after (H Y S : Type) (body : H -> S -> H * resumption Y S)
  (h : H) (g : gen S) : gen S :=
  match snd (gen_next body h g) with
  | Yield _ g' => g'
  | _ => Finished
  end.

(** [x[idxs]] for a list of row indices; an index past the end raises. *)
Fixpoint index_rows (X : Type) (x : list X) (idxs : list nat)
  : result (list X) :=
  match idxs with
  | [] => Ok []
  | i :: idxs' =>
      match nth_error x i with
      | Some v => rest <- index_rows x idxs' ;; Ok (v :: rest)
      | None => Raise IndexError
      end
  end.

(** [x / y] for Python floats: a zero divisor raises. *)
Definition py_div (x y : R) : result R :=
  if Req_dec_T y 0 then Raise ZeroDivisionError else Ok (x / y).

(** [for x in l: s = body(x, s)], where the body can raise. *)
Fixpoint for_each (X S : Type) (l : list X) (s : S)
  (body : X -> S -> result S) : result S :=
  match l with
  | [] => Ok s
  | x :: l' => s' <- body x s ;; for_each l' s' body
  end.

(* ------------------------------------------------------------------ *)
(** ** The kernels *)

Section Kernels.

(** [physics.quantum_force(rs, wf, clamp=c)], an external collaborator:
    the force field and the amplitude at [rs], or a [LUFactError]. *)
Variable quantum_force : R -> batch -> (batch -> vec) -> result (batch * vec).

(** The wave function: one amplitude per walker. *)
Variable wf : batch -> vec.

(** *** Metropolis *)

(** The local variables a suspended [metropolis] or [hmc] generator
    holds: before its first step the position it was created with, at
    its [yield] the position, the proposal and the mask of the pending
    [assign_where]. *)
Inductive m_state :=
| MStart (rs : batch)
| MYielded (rs rs_new : batch) (accepted : mask).

(** The position tensor as the caller sees it while the generator is
    suspended. *)
Definition m_rs (s : m_state) : batch :=
  match s with
  | MStart rs => rs
  | MYielded rs _ _ => rs
  end.

(** The statement after the [yield], run when the generator is resumed. *)
Definition m_resume (s : m_state) : batch :=
  match s with
  | MStart rs => rs
  | MYielded rs rs_new accepted => assign_where1 rs rs_new accepted
  end.

Definition metropolis_proposal (stepsize : R) (d : draws) (rs : batch) : batch :=
  tscale_r (randn_like (normal d) rs) stepsize.

Definition metropolis_Ps_acc (rs rs_new : batch) : list xreal :=
  vdiv (vpow2 (wf rs_new)) (vpow2 (wf rs)).

(** One pass of the loop of [metropolis], from the top of the body to the
    [yield]; [rs.clone()] and [psis.clone()] are the values of [rs] and
    [psis] at that point. *)
Definition metropolis_iter (stepsize : R) (d : draws) (rs : batch)
  : resumption sample m_state :=
  let rs_new := metropolis_proposal stepsize d rs in
  let psis := wf rs in
  let Ps_acc := vdiv (vpow2 (wf rs_new)) (vpow2 psis) in
  let accepted := vgt Ps_acc (rand_like (uniform d) Ps_acc) in
  match acceptance_rate accepted rs with
  | Raise e => Throw e
  | Ok a =>
      Yield (rs, psis, mkInfo a None) (MYielded rs rs_new accepted)
  end.

Definition metropolis (stepsize : R) (d : draws) (s : m_state)
  : resumption sample m_state :=
  metropolis_iter stepsize d (m_resume s).

(** *** Hamiltonian Monte Carlo *)

(** One interior pass of the loop of [dynamics]. *)
Definition dynamics_step (qforce : batch -> (batch -> vec) -> result (batch * vec))
  (stepsize : R) (vp : batch * batch) : result (batch * batch) :=
  let '(v_te2, p_te) := vp in
  '(forces, psis) <- qforce p_te wf ;;
  let v_te2 := tadd v_te2 (tscale_l (stepsize * 2) forces) in
  let p_te := tadd p_te (tscale_l stepsize v_te2) in
  Ok (v_te2, p_te).

(** [pos.detach().clone()] is a copy of the value of [pos]: values are
    immutable here, so the copy is [pos] itself. *)
Definition dynamics (d : draws) (pos : batch) (stepsize : R) (steps : Z)
  (tau cutoff : R) : result (batch * batch * batch) :=
  clamp <- py_div cutoff tau ;;
  let qforce := quantum_force clamp in
  let vel := randn_like (normal d) pos in
  '(forces, psis) <- qforce pos wf ;;
  let v_te2 := tadd vel (tscale_l stepsize forces) in
  let p_te := tadd pos (tscale_l stepsize v_te2) in
  '(v_te2, p_te) <- for_each (range 1 steps) (v_te2, p_te)
                      (fun _ vp => dynamics_step qforce stepsize vp) ;;
  '(forces, psis) <- qforce p_te wf ;;
  let v_te := tadd v_te2 (tscale_l stepsize forces) in
  Ok (p_te, v_te, vel).

Definition hmc_Ps_acc (rs rs_new v v_0 : batch) : list xreal :=
  xvmul (vdiv (vpow2 (wf rs_new)) (vpow2 (wf rs)))
       (vexp (vscale_l (-0.5)
                (vsub (tsum_inner (tpow2 v)) (tsum_inner (tpow2 v_0))))).

Definition hmc_iter (dysteps : Z) (stepsize tau cutoff : R) (d : draws)
  (rs : batch) : resumption sample m_state :=
  match dynamics d rs stepsize dysteps tau cutoff with
  | Raise e => Throw e
  | Ok (rs_new, v, v_0) =>
      let psis := wf rs in
      let Ps_acc :=
        xvmul (vdiv (vpow2 (wf rs_new)) (vpow2 psis))
             (vexp (vscale_l (-0.5)
                      (vsub (tsum_inner (tpow2 v)) (tsum_inner (tpow2 v_0))))) in
      let accepted := vgt Ps_acc (rand_like (uniform d) Ps_acc) in
      match acceptance_rate accepted rs with
      | Raise e => Throw e
      | Ok a =>
          Yield (rs, psis, mkInfo a None) (MYielded rs rs_new accepted)
      end
  end.

Definition hmc (dysteps : Z) (stepsize tau cutoff : R) (d : draws)
  (s : m_state) : resumption sample m_state :=
  hmc_iter dysteps stepsize tau cutoff d (m_resume s).

(** *** Langevin *)

(** The local variables of a running [langevin_monte_carlo]. *)
Record l_vars := mkLVars {
  l_rs : batch;
  l_psis : vec;
  l_forces : batch;
  l_lifetime : long_tensor
}.

(** Before its first step the generator holds its argument [rs] (with
    the device it lives on); no statement of the body has run. *)
Inductive l_state :=
| LStart (dev : device) (rs : batch)
| LYielded (v : l_vars).

(** [rs + forces * tau + torch.randn_like(rs) * np.sqrt(tau)].  For a
    negative [tau], [np.sqrt] gives NaN, which a position tensor of
    reals cannot hold: the proposal is what the code computes for
    [tau >= 0]. *)
Definition langevin_proposal (tau : R) (d : draws) (rs forces : batch) : batch :=
  tadd (tadd rs (tscale_r forces tau))
       (tscale_r (randn_like (normal d) rs) (sqrt tau)).

Definition log_G_ratios (tau : R) (rs rs_new forces forces_new : batch) : vec :=
  tsum_inner
    (tmul (tadd forces forces_new)
          (tadd (tsub rs rs_new) (tscale_l (tau / 2) (tsub forces forces_new)))).

Definition langevin_Ps_acc (tau : R) (rs rs_new forces forces_new : batch)
  (psis psis_new : vec) : list xreal :=
  vdiv (vmul (vexp (log_G_ratios tau rs rs_new forces forces_new))
             (vpow2 psis_new))
       (vpow2 psis).

(** [except torchext.LUFactError as e: e.info['rs'] = rs[e.info['idxs']];
    raise].  Other exceptions pass through. *)
Definition attach_rs (rs : batch) (e : exn) : exn :=
  match e with
  | LUFactError i =>
      match index_rows rs (idxs i) with
      | Ok rows => LUFactError (mkLUFactInfo (idxs i) (Some rows))
      | Raise e' => e'
      end
  | _ => e
  end.

(** One pass of the loop of [langevin_monte_carlo], from [while True] to
    the [yield], in the memory [h].  The closure [qforce] was made when
    the generator started and holds the clamp [cutoff / tau]. *)
Definition langevin_iter (tau cutoff : R) (d : draws) (h : heap) (v : l_vars)
  : heap * resumption sample l_state :=
  let qforce := quantum_force (cutoff / tau) in
  let rs := l_rs v in
  let psis := l_psis v in
  let forces := l_forces v in
  let rs_new := langevin_proposal tau d rs forces in
  match qforce rs_new wf with
  | Raise e => (h, Throw (attach_rs rs e))
  | Ok (forces_new, psis_new) =>
      let Ps_acc := langevin_Ps_acc tau rs rs_new forces forces_new psis psis_new in
      let accepted := vgt Ps_acc (rand_like (uniform d) Ps_acc) in
      let h := setitem_mask h (l_lifetime v) accepted 0 in
      let h := iadd_mask h (l_lifetime v) (map negb accepted) 1 in
      match acceptance_rate accepted rs with
      | Raise e => (h, Throw e)
      | Ok a =>
          let '(h, t) := cpu h (l_lifetime v) in
          let info := mkInfo a (Some (numpy t)) in
          let '(rs, psis, forces) :=
            assign_where3 (rs, psis, forces) (rs_new, psis_new, forces_new)
                          accepted in
          (h, Yield (rs, psis, info)
                    (LYielded (mkLVars rs psis forces (l_lifetime v))))
      end
  end.

Definition langevin_monte_carlo (tau cutoff : R) (d : draws)
  (h : heap) (s : l_state) : heap * resumption sample l_state :=
  match s with
  | LStart dev rs =>
      match py_div cutoff tau with
      | Raise e => (h, Throw e)
      | Ok clamp =>
          match quantum_force clamp rs wf with
          | Raise e => (h, Throw e)
          | Ok (forces, psis) =>
              let '(h, lt) := new_zeros h dev (length rs) in
              langevin_iter tau cutoff d h (mkLVars rs psis forces lt)
          end
      end
  | LYielded v => langevin_iter tau cutoff d h v
  end.

End Kernels.

(* ------------------------------------------------------------------ *)
(** ** Walker initialisation *)

(** *** numpy's random source *)

(** The global state of [np.random]: the naturals it will hand out (zero
    once the list is used up). *)
Definition rng := list nat.

Definition next_nat (g : rng) : nat * rng :=
  match g with
  | [] => (0%nat, [])
  | x :: g' => (x, g')
  end.

Fixpoint remove_nth (X : Type) (k : nat) (l : list X) : list X :=
  match l, k with
  | [], _ => []
  | _ :: l', O => l'
  | x :: l', S k' => x :: remove_nth k' l'
  end.

(** [size] draws from [pool], none of its entries drawn twice: each draw
    takes the entry the random source points at out of the pool. *)
Fixpoint draw_distinct (X : Type) (size : nat) (pool : list X) (g : rng)
  : list X * rng :=
  match size with
  | O => ([], g)
  | S size' =>
      match pool with
      | [] => ([], g)
      | x0 :: _ =>
          let '(r, g1) := next_nat g in
          let k := (r mod length pool)%nat in
          let '(out, g2) := draw_distinct size' (remove_nth k pool) g1 in
          (nth k pool x0 :: out, g2)
      end
  end.

(** [np.random.permutation(a)]. *)
Definition np_permutation (X : Type) (a : list X) (g : rng) : list X * rng :=
  draw_distinct (length a) a g.

(** [np.random.choice(a, size, replace=False)], for [size <= len(a)]:
    the whole population is shuffled, whatever [size] is, and the first
    [size] entries are kept. *)
Definition np_choice (X : Type) (a : list X) (size : nat) (g : rng)
  : list X * rng :=
  let '(p, g') := np_permutation a g in
  (firstn size p, g').

(** [np.repeat(xs, counts)]. *)
Definition np_repeat (X : Type) (xs : list X) (counts : list nat) : list X :=
  concat (zip_with (fun x c => repeat x c) xs counts).

(** *** take *)

(** The [while n > len(a)] loop.  Every pass takes [len(a)] off [n], so
    [fuel] passes suffice when [n <= fuel] and [a] is not empty; with an
    empty [a] and a positive [n] the loop does not end.  [None]: out of
    fuel. *)
Fixpoint take_loop (fuel : nat) (a : list nat) (n : nat)
  (l : list (list nat)) (g : rng) : option (list (list nat) * nat * rng) :=
  if (length a <? n)%nat then
    match fuel with
    | O => None
    | S fuel' =>
        let n := (n - length a)%nat in
        let '(c, g') := np_choice a (length a) g in
        take_loop fuel' a n (l ++ [c]) g'
    end
  else Some (l, n, g).

Definition take (a : list nat) (n : nat) (g : rng) : option (list nat * rng) :=
  match take_loop n a n [] g with
  | None => None
  | Some (l, n, g) =>
      let '(c, g) := np_choice a n g in
      let l := l ++ [c] in
      Some (np_permutation (concat l) g)
  end.

(** *** sample_start *)

(** The part of a geometry the initialiser reads: [geom.coords], one row
    of three coordinates per atom, and [geom._charges] after
    [astype(int)]; nuclear charges are not negative. *)
Record Geometry := mkGeometry {
  coords : list (list R);
  charges : list nat
}.

(** [[take(a, n) for i in range(n_walker)]]. *)
Fixpoint take_each (n_walker : nat) (a : list nat) (n : nat) (g : rng)
  : option (list (list nat) * rng) :=
  match n_walker with
  | O => Some ([], g)
  | S k =>
      match take a n g with
      | None => None
      | Some (t, g') =>
          match take_each k a n g' with
          | None => None
          | Some (ts, g'') => Some (t :: ts, g'')
          end
      end
  end.

(** [x[idxs]] for a table of row indices. *)
Fixpoint gather (X : Type) (x : list X) (ind : list (list nat))
  : result (list (list X)) :=
  match ind with
  | [] => Ok []
  | row :: ind' =>
      r <- index_rows x row ;;
      rest <- gather x ind' ;;
      Ok (r :: rest)
  end.

(** [d0] rows of [k] entries each, cut from a flat buffer. *)
Definition rows (X : Type) (d0 k : nat) (flat : list X) : list (list X) :=
  map (fun i => firstn k (skipn (i * k) flat)) (seq 0 d0).

(** [t.view(-1, E, D)] of a tensor with the entries [flat]. *)
Definition view_3d (flat : list R) (E D : nat) : result batch :=
  if (E * D =? 0)%nat then Raise RuntimeError
  else if (length flat mod (E * D) =? 0)%nat
  then Ok (map (rows E D) (rows (length flat / (E * D)) (E * D) flat))
  else Raise RuntimeError.

(** [a + b] for tensors that agree on the inner axes: equal leading
    axes, or one of them of size one, which is then repeated. *)
Definition broadcast_add (a b : batch) : result batch :=
  if (length a =? length b)%nat then Ok (tadd a b)
  else match a, b with
       | _, [b0] => Ok (map (fun w => zip_with (zip_with Rplus) w b0) a)
       | [a0], _ => Ok (map (fun w => zip_with (zip_with Rplus) a0 w) b)
       | _, _ => Raise RuntimeError
       end.

(** [sample_start(geom, n_walker, n_electrons, var, cuda)].  [None]: the
    loop of [take] does not end.  With [n_walker = 0] the index array
    [np.array([])] is an array of floats, which [take] refuses.
    [coords[None, :, :].take(ind, axis=1)] has the shape
    1 x n_walker x n_electrons x 3. *)
Definition sample_start (geom : Geometry) (n_walker n_electrons : nat)
  (var : R) (cuda : bool) (noise : nat -> nat -> nat -> R) (g : rng)
  : option (result (device * batch)) :=
  let a := np_repeat (seq 0 (length (charges geom))) (charges geom) in
  match take_each n_walker a n_electrons g with
  | None => None
  | Some (ind, _) =>
      Some (
        if (n_walker =? 0)%nat then Raise TypeError
        else
          taken <- gather (coords geom) ind ;;
          centers <- view_3d (concat (concat taken)) n_electrons 3 ;;
          pos <- broadcast_add
                   (tscale_r (randn noise n_walker n_electrons 3) var)
                   centers ;;
          Ok (if cuda then CUDA else CPU, pos))
  end.

(** *** rand_from_mf *)

(** The part of a mean-field object the initialiser reads: [mol.natm],
    [mol.atom_charges()], [mol.charge], the charges [mf.pop()[1]] of the
    population analysis and [mol.atom_coords()]. *)
Record MeanField := mkMeanField {
  natm : nat;
  atom_charges : list Z;
  mol_charge : Z;
  pop_chg : vec;
  atom_coords : list (list R)
}.

Definition zsum (l : list Z) : Z := fold_right Z.add 0%Z l.

(** [torch.round]: to the nearest integer, halves to the even one. *)
Definition round_half_even (x : R) : Z :=
  let f := Int_part x in
  let d := x - IZR f in
  if Rlt_dec d (1 / 2) then f
  else if Rlt_dec (1 / 2) d then (f + 1)%Z
  else if Z.even f then f else (f + 1)%Z.

(** [torch.repeat_interleave(input, repeats)] on the flattened input:
    entry [i] is written [repeats[i]] times.  A negative count or counts
    of another length are refused. *)
Definition repeat_interleave (X : Type) (input : list X) (repeats : list Z)
  : result (list X) :=
  if negb (length input =? length repeats)%nat then Raise RuntimeError
  else if existsb (fun c => (c <? 0)%Z) repeats then Raise RuntimeError
  else Ok (concat (zip_with (fun x c => repeat x (Z.to_nat c)) input repeats)).

(** [t.view(d0, d1)] of a tensor with the entries [flat]: the sizes must
    account for every entry; a size of -1 is inferred. *)
Definition view_2d (X : Type) (flat : list X) (d0 : nat) (d1 : Z)
  : result (list (list X)) :=
  if (d1 <? -1)%Z then Raise RuntimeError
  else if (d1 =? -1)%Z then
    if (d0 =? 0)%nat then Raise RuntimeError
    else if (length flat mod d0 =? 0)%nat
    then Ok (rows d0 (length flat / d0) flat)
    else Raise RuntimeError
  else if (length flat =? d0 * Z.to_nat d1)%nat
  then Ok (rows d0 (Z.to_nat d1) flat)
  else Raise RuntimeError.

Definition mf_n_electrons (mf : MeanField) : Z :=
  (zsum (atom_charges mf) - mol_charge mf)%Z.

(** The noisy occupations [cs], one row per walker. *)
Definition mf_cs (mf : MeanField) (bs : nat) (charge_std : R)
  (noise : nat -> nat -> R) : list vec :=
  let cs := zip_with (fun c p => IZR c - p) (atom_charges mf) (pop_chg mf) in
  map (fun b =>
         zip_with Rplus cs
           (map (fun a => charge_std * noise b a) (seq 0 (natm mf))))
      (seq 0 bs).

(** [(cs / cs.sum(dim=-1)[:, None] * n_electrons).round().to(torch.long)],
    for rows of [cs] whose sum is not zero.  (With a zero sum the
    quotient is infinite or NaN, and what the cast to [torch.long] makes
    of that is not defined.) *)
Definition mf_repeats (mf : MeanField) (bs : nat) (charge_std : R)
  (noise : nat -> nat -> R) : list (list Z) :=
  map (fun row =>
         map (fun c => round_half_even (c / rsum row * IZR (mf_n_electrons mf)))
             row)
      (mf_cs mf bs charge_std noise).

(** [rand_from_mf(mf, bs, charge_std, elec_std)]; [noise_c] fills
    [torch.randn(bs, n_atoms)], [noise_e] fills
    [torch.randn_like(centers)]. *)
Definition rand_from_mf (mf : MeanField) (bs : nat) (charge_std elec_std : R)
  (noise_c : nat -> nat -> R) (noise_e : nat -> nat -> nat -> R)
  : result batch :=
  let n_atoms := natm mf in
  let n_electrons := mf_n_electrons mf in
  let repeats := mf_repeats mf bs charge_std noise_c in
  flat <- repeat_interleave (concat (repeat (seq 0 n_atoms) bs))
                            (concat repeats) ;;
  idxs <- view_2d flat bs n_electrons ;;
  centers <- gather (atom_coords mf) idxs ;;
  let rs := tadd centers (tscale_l elec_std (randn_like noise_e centers)) in
  Ok rs.

(* ------------------------------------------------------------------ *)
(** ** Vocabulary of the specification *)

(** A batch of [W] walkers with [E] electrons of [D] coordinates each. *)
Definition has_shape (W E D : nat) (x : batch) : Prop :=
  length x = W /\
  forall wk, In wk x ->
    length wk = E /\ forall row, In row wk -> length row = D.

(** A decision procedure for [has_shape]. *)
Definition has_shapeb (W E D : nat) (x : batch) : bool :=
  (length x =? W)%nat &&
  forallb (fun wk => (length wk =? E)%nat &&
                     forallb (fun row => (length row =? D)%nat) wk) x.

(** Coordinate [a] of electron [e] of walker [w]. *)
Definition at3 (x : batch) (w e a : nat) : R :=
  nth a (nth e (nth w x []) []) 0.

(** The sum of [f 0], ..., [f (n - 1)]. *)
Definition big_sum (n : nat) (f : nat -> R) : R :=
  rsum (map f (seq 0 n)).

(** The sum of [f e a] over the electron and the spatial axis. *)
Definition sum_axes (E D : nat) (f : nat -> nat -> R) : R :=
  big_sum E (fun e => big_sum D (fun a => f e a)).

(** [out] is the stack of the tensors [ts] along a new second axis:
    every tensor has as many walkers as [out] has rows, and row [w] of
    [out] lists entry [w] of every tensor, in the order of [ts]. *)
Definition stacked (X : Type) (ts : list (list X)) (out : list (list X)) : Prop :=
  (forall t, In t ts -> length t = length out) /\
  (forall w row, nth_error out w = Some row ->
     length row = length ts /\
     forall k t, nth_error ts k = Some t -> nth_error row k = nth_error t w).

(** The leapfrog integration in the words of the specification.  [F] is
    the force at a position. *)
Fixpoint iterate_result (S : Type) (n : nat) (f : S -> result S) (s : S)
  : result S :=
  match n with
  | O => Ok s
  | Datatypes.S n' => s' <- f s ;; iterate_result n' f s'
  end.

(** An interior step: [v = v + 2 * stepsize * F(p)], then
    [p = p + stepsize * v]. *)
Definition leapfrog_interior (F : batch -> result batch) (stepsize : R)
  (vp : batch * batch) : result (batch * batch) :=
  f <- F (snd vp) ;;
  let v := tadd (fst vp) (tscale_l (2 * stepsize) f) in
  let p := tadd (snd vp) (tscale_l stepsize v) in
  Ok (v, p).

(** First half step, [n_interior] interior steps, final half step; the
    end position and the final velocity. *)
Definition leapfrog (F : batch -> result batch) (stepsize : R)
  (n_interior : nat) (pos v0 : batch) : result (batch * batch) :=
  f <- F pos ;;
  let v := tadd v0 (tscale_l stepsize f) in
  let p := tadd pos (tscale_l stepsize v) in
  vp <- iterate_result n_interior (leapfrog_interior F stepsize) (v, p) ;;
  f <- F (snd vp) ;;
  let v_final := tadd (fst vp) (tscale_l stepsize f) in
  Ok (snd vp, v_final).

(** The squared norm of the velocity of walker [w], summed over the
    electron and the spatial axis. *)
Definition norm2 (E D : nat) (v : batch) (w : nat) : R :=
  sum_axes E D (fun e a => (at3 v w e a) ^ 2).

(** The summand of the log Metropolis-Hastings correction: [r], [f] the
    coordinate and the force at the current position, [r'], [f'] at the
    proposal. *)
Definition mh_term (tau r r' f f' : R) : R :=
  (f + f') * ((r - r') + tau / 2 * (f - f')).

(** The variables a Langevin generator has at the top of its loop on
    its next pass, and the memory there.  A generator that has yielded
    holds them.  One that has not run yet first runs the statements
    before the loop: the clamp, the force evaluation at its argument and
    the allocation of the counter. *)
Definition l_enter
  (quantum_force : R -> batch -> (batch -> vec) -> result (batch * vec))
  (wf : batch -> vec) (tau cutoff : R) (h : heap) (s : l_state)
  : result (heap * l_vars) :=
  match s with
  | LStart dev rs =>
      clamp <- py_div cutoff tau ;;
      '(forces, psis) <- quantum_force clamp rs wf ;;
      let '(h, lt) := new_zeros h dev (length rs) in
      Ok (h, mkLVars rs psis forces lt)
  | LYielded v => Ok (h, v)
  end.

(** The memories and generator objects a [langevin_monte_carlo]
    generator passes through: created on the device [dev] with the
    position [rs0] in the memory [h0], then advanced by [next], with
    any draws, as long as it yields. *)
Inductive l_reached
  (quantum_force : R -> batch -> (batch -> vec) -> result (batch * vec))
  (wf : batch -> vec) (tau cutoff : R) (dev : device) (rs0 : batch)
  (h0 : heap) : heap -> gen l_state -> Prop :=
| l_reached_created :
    l_reached quantum_force wf tau cutoff dev rs0 h0 h0
              (Suspended (LStart dev rs0))
| l_reached_next h g d h' y g' :
    l_reached quantum_force wf tau cutoff dev rs0 h0 h g ->
    gen_next (langevin_monte_carlo quantum_force wf tau cutoff d) h g =
      (h', Yield y g') ->
    l_reached quantum_force wf tau cutoff dev rs0 h0 h' g'.

(** Reading the ['lifetime'] array of a diagnostics record in the memory
    [h]. *)
Definition read_lifetime (h : heap) (i : Info) : list Z :=
  match lifetime i with
  | Some l => load h l
  | None => []
  end.

(** [next] called once for every entry of [ds] on a Langevin generator:
    the samples it yields, each with the memory as it is right after
    that [yield], and the memory at the end. *)
Fixpoint langevin_pull
  (quantum_force : R -> batch -> (batch -> vec) -> result (batch * vec))
  (wf : batch -> vec) (tau cutoff : R) (ds : list draws) (h : heap)
  (g : gen l_state) : list (heap * sample) * heap :=
  match ds with
  | [] => ([], h)
  | d :: ds' =>
      match gen_next (langevin_monte_carlo quantum_force wf tau cutoff d) h g with
      | (h', Yield y g') =>
          let '(ys, h'') :=
            langevin_pull quantum_force wf tau cutoff ds' h' g' in
          ((h', y) :: ys, h'')
      | (h', _) => ([], h')
      end
  end.

(** The lifetime arrays of the collected diagnostics, read in the memory
    [h]. *)
Definition lifetimes_in (h : heap) (ys : list (heap * sample)) : list (list Z) :=
  map (fun hy => read_lifetime h (snd (snd hy))) ys.

(** The lifetime array of each diagnostics record, read right after the
    [yield] that produced it. *)
Definition lifetimes_at_yield (ys : list (heap * sample)) : list (list Z) :=
  map (fun hy => read_lifetime (fst hy) (snd (snd hy))) ys.

(** The number of consecutive rejections of a walker since its last
    acceptance; [history] lists its steps, the latest first, [true] for
    an accepted step. *)
Fixpoint trailing_rejections (history : list bool) : nat :=
  match history with
  | false :: h => S (trailing_rejections h)
  | _ => O
  end.

(** What [lifetime[accepted] = 0; lifetime[~accepted] += 1] makes of the
    counter [c]. *)
Definition counter_step (accepted : mask) (c : list Z) : list Z :=
  zip_with (fun (b : bool) x => if b then 0%Z else wrap64 (x + 1)) accepted c.

(** The counter of [W] walkers after the steps with the masks [masks],
    the earliest first. *)
Definition counter_after (W : nat) (masks : list mask) : list Z :=
  fold_left (fun c m => counter_step m c) masks (repeat 0%Z W).

(** An assignment [p] of [n] electrons drawn from the pool [a] without
    replacement across repeated full passes and then permuted: [q] full
    passes, each using every entry of the pool once, and a last pass of
    [r] entries of the pool at distinct places. *)
Definition drawn_in_passes (a : list nat) (n : nat) (p : list nat) : Prop :=
  exists q r sub rest,
    n = (q * length a + r)%nat /\
    (r <= length a)%nat /\
    ((0 < n)%nat -> (0 < r)%nat) /\
    length sub = r /\
    Permutation a (sub ++ rest) /\
    Permutation p (concat (repeat a q) ++ sub).

(* ------------------------------------------------------------------ *)
(** ** Inputs of the examples *)

(** The constant wave function, of amplitude one. *)
Definition wf_one (rs : batch) : vec := map (fun _ => 1) rs.

(** A wave function that decays away from the origin along the first
    coordinate of the first electron: amplitude 1 / (1 + x^2). *)
Definition wf_decay (rs : batch) : vec :=
  map (fun wk => 1 / (1 + (nth 0 (nth 0 wk []) 0) ^ 2)) rs.

(** A force provider for the examples: no drift, the amplitude of [wf]. *)
Definition qforce_free (clamp : R) (rs : batch) (wf : batch -> vec)
  : result (batch * vec) :=
  Ok (tmap (fun _ => 0) rs, wf rs).

(** A force provider whose factorisation fails for walker 0. *)
Definition qforce_fails (clamp : R) (rs : batch) (wf : batch -> vec)
  : result (batch * vec) :=
  Raise (LUFactError (mkLUFactInfo [0%nat] None)).

(** Draws for the examples: every normal draw is [n], every uniform draw
    is [u]. *)
Definition draws_const (n u : R) : draws :=
  mkDraws (fun _ _ _ => n) (fun _ => u).

(** One walker with one electron at the origin. *)
Definition origin1 : batch := [[[0; 0; 0]]].

(** The variables of a Langevin generator that was created at [origin1]
    with [qforce_free] and [wf_decay], with the lifetime counter [lt],
    while its walker has not moved. *)
Definition l_vars_at (lt : long_tensor) : l_vars :=
  mkLVars origin1 (wf_decay origin1) (tmap (fun _ => 0) origin1) lt.

(** The same on the CPU, with the counter in the buffer at address 0. *)
Definition l_vars_origin : l_vars := l_vars_at (mkLong CPU 0).

(** Draws under which the walker at the origin of [wf_decay] is
    rejected: it is asked to move to x = 1, where the squared amplitude
    is a quarter of the current one, and its uniform draw is a half. *)
Definition draws_reject : draws := draws_const 1 (1 / 2).

(** Draws under which that walker is accepted: it is asked to stay. *)
Definition draws_accept : draws := draws_const 0 (1 / 2).

(** Four steps of the Langevin kernel at [origin1]: three rejections,
    then an acceptance, on the device [dev], from an empty memory. *)
Definition lifetime_run (dev : device) : list (heap * sample) * heap :=
  langevin_pull qforce_free wf_decay 1 1
    [draws_reject; draws_reject; draws_reject; draws_accept]
    [] (Suspended (LStart dev origin1)).

(** A water-like geometry: two atoms of charge 1 and one of charge 8. *)
Definition water : Geometry :=
  mkGeometry [[0; 1; 1]; [0; -1; 1]; [0; 0; 0]] [1; 1; 8]%nat.

(** A mean-field object with three atoms of charge 1, no net charge, and
    populations of 1/2, 1/2 and 2 electrons. *)
Definition mf_three : MeanField :=
  mkMeanField 3 [1; 1; 1]%Z 0 [1 / 2; 1 / 2; -1]
              [[0; 1; 1]; [0; -1; 1]; [0; 0; 0]].

(** Noise on the occupations of two walkers: the first is moved towards
    the first two atoms, the second away from them. *)
Definition noise_three (b a : nat) : R :=
  match b, a with
  | 0%nat, 2%nat => - (4 / 5)
  | 0%nat, _ => 2 / 5
  | _, 2%nat => 4 / 5
  | _, _ => - (2 / 5)
  end.

(** A stream that yields the step index once and then fails with a
    factorisation error for walker 0. *)
Definition failing_stream (n : Z) : resumption (step Z Z Z) Z :=
  if (n <? 1)%Z then Yield ([n], [n], n) (n + 1)%Z
  else Throw (LUFactError (mkLUFactInfo [0%nat] None)).

(** The mask of the step that the draws [d] make from the variables [v]
    when the force evaluation at the proposal returns [forces_new] and
    [psis_new]. *)
Definition langevin_accepted (tau : R) (d : draws) (v : l_vars)
  (forces_new : batch) (psis_new : vec) : mask :=
  let rs_new := langevin_proposal tau d (l_rs v) (l_forces v) in
  let Ps_acc := langevin_Ps_acc tau (l_rs v) rs_new (l_forces v) forces_new
                  (l_psis v) psis_new in
  vgt Ps_acc (rand_like (uniform d) Ps_acc).

(** What is known of a step that yielded: its mask, the memory right
    after the [yield], and the diagnostics it yielded. *)
Record l_event := mkEvent {
  ev_mask : mask;
  ev_heap : heap;
  ev_info : Info
}.

(** A run of yielding steps of a Langevin generator, from the variables
    [v] in the memory [h] to the variables and the memory after the last
    step, with the events of the steps in order. *)
Inductive l_steps
  (quantum_force : R -> batch -> (batch -> vec) -> result (batch * vec))
  (wf : batch -> vec) (tau cutoff : R)
  : heap -> l_vars -> list l_event -> heap -> l_vars -> Prop :=
| l_steps_nil h v : l_steps quantum_force wf tau cutoff h v [] h v
| l_steps_cons h v d forces_new psis_new h1 y v1 evs h2 v2 :
    quantum_force (cutoff / tau)
      (langevin_proposal tau d (l_rs v) (l_forces v)) wf =
      Ok (forces_new, psis_new) ->
    langevin_iter quantum_force wf tau cutoff d h v =
      (h1, Yield y (LYielded v1)) ->
    l_steps quantum_force wf tau cutoff h1 v1 evs h2 v2 ->
    l_steps quantum_force wf tau cutoff h v
      (mkEvent (langevin_accepted tau d v forces_new psis_new) h1 (snd y)
         :: evs)
      h2 v2.


(* ================================================================== *)
(** * Part II: properties *)
(* ================================================================== *)

Unset Implicit Arguments.

(** ** Lists *)

Lemma nth_error_zip_with (A B C : Type) (f : A -> B -> C) xs ys i :
  nth_error (zip_with f xs ys) i =
  match nth_error xs i, nth_error ys i with
  | Some x, Some y => Some (f x y)
  | _, _ => None
  end.
Proof.
  revert ys i; induction xs as [|x xs IH]; intros [|y ys] [|i]; simpl; auto.
  destruct (nth_error xs i); reflexivity.
Qed.

Lemma length_zip_with (A B C : Type) (f : A -> B -> C) xs ys :
  length (zip_with f xs ys) = Nat.min (length xs) (length ys).
Proof.
  revert ys; induction xs as [|x xs IH]; intros [|y ys]; simpl; auto.
Qed.

(** ** The trajectory assembler *)

Section SamplesFromProps.

Variables P A I G : Type.
Variable next : G -> resumption (step P A I) G.

Lemma keep_is_retained n_discard n_decorrelate i (s : step P A I) :
  (n_decorrelate + 1 <> 0)%Z ->
  keep n_discard n_decorrelate i =
  Ok (is_retained n_discard n_decorrelate (i, s)).
Proof.
  intros Hnz. unfold keep, is_retained. simpl.
  destruct (Z.ltb_spec i n_discard) as [Hlt|Hge].
  - destruct (Z.leb_spec n_discard i); [lia | reflexivity].
  - destruct (Z.eqb_spec (n_decorrelate + 1) 0) as [E|_]; [contradiction|].
    destruct (Z.leb_spec n_discard i); [reflexivity | lia].
Qed.

Lemma retained_pulled n_discard n_decorrelate steps :
  (n_decorrelate + 1 <> 0)%Z ->
  forall g ps,
    pulled next steps g = Ok ps ->
    retained next n_discard n_decorrelate steps g =
    Ok (map snd (filter (is_retained n_discard n_decorrelate) ps)).
Proof.
  intros Hnz. induction steps as [|i steps IH]; intros g ps Hp; simpl in *.
  - inversion Hp; reflexivity.
  - destruct (next g) as [s g'| |]; try discriminate.
    + destruct (pulled next steps g') as [rest|] eqn:Hrest; try discriminate.
      simpl in Hp. inversion Hp; subst ps; clear Hp.
      rewrite (keep_is_retained n_discard n_decorrelate i s Hnz). simpl bind.
      rewrite (IH _ _ Hrest). simpl.
      destruct (is_retained n_discard n_decorrelate (i, s)); reflexivity.
    + inversion Hp; reflexivity.
Qed.

Lemma retained_raises n_discard n_decorrelate steps :
  (n_decorrelate + 1 <> 0)%Z ->
  forall g e,
    pulled next steps g = Raise e ->
    retained next n_discard n_decorrelate steps g = Raise e.
Proof.
  intros Hnz. induction steps as [|i steps IH]; intros g e Hp; simpl in *.
  - discriminate.
  - destruct (next g) as [s g'| |]; try discriminate.
    + destruct (pulled next steps g') as [rest|e'] eqn:Hrest; try discriminate.
      simpl in Hp. inversion Hp; subst e'.
      rewrite (keep_is_retained n_discard n_decorrelate i s Hnz). simpl bind.
      rewrite (IH _ _ Hrest). reflexivity.
    + inversion Hp; reflexivity.
Qed.

End SamplesFromProps.

Lemma stack_rows_rows (X : Type) (W : nat) (ts : list (list X)) :
  forall w row, nth_error (stack_rows W ts) w = Some row ->
    length row = length ts /\
    forall k t, nth_error ts k = Some t -> nth_error row k = nth_error t w.
Proof.
  induction ts as [|t0 ts IH]; intros w row Hrow; simpl in *.
  - apply nth_error_In, repeat_spec in Hrow. subst row. split; [reflexivity|].
    intros [|k] t; discriminate.
  - rewrite nth_error_zip_with in Hrow.
    destruct (nth_error t0 w) as [x|] eqn:Hx; try discriminate.
    destruct (nth_error (stack_rows W ts) w) as [row'|] eqn:Hr; try discriminate.
    inversion Hrow; subst row; clear Hrow.
    destruct (IH _ _ Hr) as [Hlen Hnth]. split; [simpl; congruence|].
    intros [|k] t Ht; simpl in *.
    + inversion Ht; subst; auto.
    + auto.
Qed.

Lemma stack_rows_length (X : Type) (W : nat) (ts : list (list X)) :
  Forall (fun t => length t = W) ts -> length (stack_rows W ts) = W.
Proof.
  induction 1 as [|t ts Ht _ IH]; simpl.
  - apply repeat_length.
  - rewrite length_zip_with, IH, Ht. apply Nat.min_id.
Qed.

Lemma stack_dim1_ok (X : Type) (ts out : list (list X)) :
  stack_dim1 ts = Ok out -> stacked ts out.
Proof.
  unfold stack_dim1. destruct ts as [|t0 ts']; [discriminate|].
  remember (t0 :: ts') as ts eqn:Ets.
  destruct (forallb _ ts) eqn:Hall; [|discriminate].
  intros H. injection H as <-.
  assert (HF : Forall (fun t => length t = length t0) ts).
  { apply Forall_forall. intros t Ht. rewrite forallb_forall in Hall.
    apply Nat.eqb_eq, Hall, Ht. }
  split.
  - intros t Ht. rewrite stack_rows_length by assumption.
    rewrite Forall_forall in HF. auto.
  - apply stack_rows_rows.
Qed.


(** ** Claims on the trajectory assembler *)

(** C5 (as stated, refuted).  For the synthetic stream pulled for the
    indices 0..19 with [n_discard = 5] and [n_decorrelate = 1] the
    assembler does not return the steps 5, 7, ..., 19. *)
Lemma samples_from_example_not_odd :
  samples_from index_stream 0%Z (range 0 20) 5 1 <>
  Ok ([[5; 7; 9; 11; 13; 15; 17; 19]], [[5; 7; 9; 11; 13; 15; 17; 19]],
      pd_DataFrame [5; 7; 9; 11; 13; 15; 17; 19])%Z.
Proof.
  vm_compute. intros H. discriminate H.
Qed.

(** C5 (amended).  For the synthetic stream pulled for the indices 0..19
    with [n_discard = 5] and [n_decorrelate = 1] the retained steps are
    exactly those with the indices 6, 8, 10, 12, 14, 16, 18 (at least
    5 and even), and the stacked positions, the stacked amplitudes and
    the rows of the diagnostics table keep this ascending order. *)
Theorem samples_from_example_even :
  retained index_stream 5 1 (range 0 20) 0%Z =
    Ok (map (fun i => ([i], [i], i)) [6; 8; 10; 12; 14; 16; 18])%Z /\
  samples_from index_stream 0%Z (range 0 20) 5 1 =
    Ok ([[6; 8; 10; 12; 14; 16; 18]], [[6; 8; 10; 12; 14; 16; 18]],
        pd_DataFrame [6; 8; 10; 12; 14; 16; 18])%Z.
Proof.
  split; vm_compute; reflexivity.
Qed.


(** A stride of -1 makes the modulus zero: the first index that passes
    the burn-in raises. *)
Lemma samples_from_zero_modulus (P A I G : Type)
  (next : G -> resumption (step P A I) G) (g g' : G) (s : step P A I)
  (i : Z) (steps : list Z) (n_discard : Z) :
  next g = Yield s g' -> (n_discard <= i)%Z ->
  samples_from next g (i :: steps) n_discard (-1) = Raise ZeroDivisionError.
Proof.
  intros Hnext Hi. unfold samples_from. simpl. rewrite Hnext.
  unfold keep. destruct (Z.ltb_spec i n_discard); [lia | reflexivity].
Qed.


(** ** Tensors *)

Lemma nth_zip_with (A B C : Type) (f : A -> B -> C) xs ys i da db dc :
  (i < length xs)%nat -> (i < length ys)%nat ->
  nth i (zip_with f xs ys) dc = f (nth i xs da) (nth i ys db).
Proof.
  revert ys i; induction xs as [|x xs IH]; intros [|y ys] [|i] Hx Hy;
    simpl in *; try lia; auto.
  apply IH; lia.
Qed.

Lemma In_zip_with (A B C : Type) (f : A -> B -> C) xs ys z :
  In z (zip_with f xs ys) -> exists x y, In x xs /\ In y ys /\ z = f x y.
Proof.
  revert ys; induction xs as [|x xs IH]; intros [|y ys] Hz; simpl in *;
    try contradiction.
  destruct Hz as [<-|Hz].
  - exists x, y; auto.
  - destruct (IH _ Hz) as (x' & y' & ? & ? & ?). exists x', y'; auto.
Qed.

Lemma nth_map_in (A B : Type) (f : A -> B) l i da db :
  (i < length l)%nat -> nth i (map f l) db = f (nth i l da).
Proof.
  revert i; induction l as [|x l IH]; intros [|i] Hi; simpl in *; try lia; auto.
  apply IH; lia.
Qed.

Lemma length_mapi_from (A B : Type) (f : nat -> A -> B) k l :
  length (mapi_from f k l) = length l.
Proof.
  revert k; induction l as [|x l IH]; intros k; simpl; auto.
Qed.

Lemma nth_mapi_from (A B : Type) (f : nat -> A -> B) k l i da db :
  (i < length l)%nat ->
  nth i (mapi_from f k l) db = f (k + i)%nat (nth i l da).
Proof.
  revert k i; induction l as [|x l IH]; intros k [|i] Hi; simpl in *; try lia.
  - rewrite Nat.add_0_r; reflexivity.
  - rewrite IH by lia. f_equal; lia.
Qed.

Lemma In_mapi_from (A B : Type) (f : nat -> A -> B) k l y :
  In y (mapi_from f k l) -> exists i x, In x l /\ y = f i x.
Proof.
  revert k; induction l as [|x l IH]; intros k Hy; simpl in *; [contradiction|].
  destruct Hy as [<-|Hy].
  - exists k, x; auto.
  - destruct (IH _ Hy) as (i & x' & ? & ?). exists i, x'; auto.
Qed.

Lemma has_shape_row W E D x w :
  has_shape W E D x -> (w < W)%nat ->
  length (nth w x []) = E /\
  forall e, (e < E)%nat -> length (nth e (nth w x []) []) = D.
Proof.
  intros [HW Hx] Hw.
  assert (Hin : In (nth w x []) x) by (apply nth_In; lia).
  destruct (Hx _ Hin) as [HE HD]. split; [exact HE|].
  intros e He. apply HD, nth_In. lia.
Qed.

Lemma has_shape_tmap2 W E D f x y :
  has_shape W E D x -> has_shape W E D y -> has_shape W E D (tmap2 f x y).
Proof.
  intros [HWx Hx] [HWy Hy]. split.
  - unfold tmap2. rewrite length_zip_with, HWx, HWy. apply Nat.min_id.
  - intros wk Hwk. apply In_zip_with in Hwk as (a & b & Ha & Hb & ->).
    destruct (Hx _ Ha) as [HEa HDa], (Hy _ Hb) as [HEb HDb]. split.
    + rewrite length_zip_with, HEa, HEb. apply Nat.min_id.
    + intros row Hrow. apply In_zip_with in Hrow as (r & s & Hr & Hs & ->).
      rewrite length_zip_with, (HDa _ Hr), (HDb _ Hs). apply Nat.min_id.
Qed.

Lemma at3_tmap2 W E D f x y w e a :
  has_shape W E D x -> has_shape W E D y ->
  (w < W)%nat -> (e < E)%nat -> (a < D)%nat ->
  at3 (tmap2 f x y) w e a = f (at3 x w e a) (at3 y w e a).
Proof.
  intros Hx Hy Hw He Ha.
  destruct (has_shape_row W E D x w Hx Hw) as [HEx HDx].
  destruct (has_shape_row W E D y w Hy Hw) as [HEy HDy].
  destruct Hx as [HWx _], Hy as [HWy _].
  unfold at3, tmap2.
  rewrite (nth_zip_with _ _ _ _ x y w [] [] []) by lia.
  rewrite (nth_zip_with _ _ _ _ _ _ e [] [] []) by lia.
  apply nth_zip_with; [rewrite HDx | rewrite HDy]; lia.
Qed.

Lemma has_shape_tmap W E D f x :
  has_shape W E D x -> has_shape W E D (tmap f x).
Proof.
  intros [HW Hx]. split.
  - unfold tmap. rewrite length_map. exact HW.
  - intros wk Hwk. apply in_map_iff in Hwk as (a & <- & Ha).
    destruct (Hx _ Ha) as [HE HD]. split.
    + rewrite length_map. exact HE.
    + intros row Hrow. apply in_map_iff in Hrow as (r & <- & Hr).
      rewrite length_map. auto.
Qed.

Lemma at3_tmap W E D f x w e a :
  has_shape W E D x ->
  (w < W)%nat -> (e < E)%nat -> (a < D)%nat ->
  at3 (tmap f x) w e a = f (at3 x w e a).
Proof.
  intros Hx Hw He Ha.
  destruct (has_shape_row W E D x w Hx Hw) as [HEx HDx].
  destruct Hx as [HWx _].
  unfold at3, tmap.
  rewrite (nth_map_in _ _ _ x w [] []) by lia.
  rewrite (nth_map_in _ _ _ _ e [] []) by lia.
  apply nth_map_in. rewrite HDx; lia.
Qed.

Lemma has_shape_randn_like W E D noise x :
  has_shape W E D x -> has_shape W E D (randn_like noise x).
Proof.
  intros [HW Hx]. split.
  - unfold randn_like, mapi. rewrite length_mapi_from. exact HW.
  - intros wk Hwk. apply In_mapi_from in Hwk as (w & a & Ha & ->).
    destruct (Hx _ Ha) as [HE HD]. split.
    + unfold mapi. rewrite length_mapi_from. exact HE.
    + intros row Hrow. apply In_mapi_from in Hrow as (e & r & Hr & ->).
      unfold mapi. rewrite length_mapi_from. auto.
Qed.

Lemma at3_randn_like W E D noise x w e a :
  has_shape W E D x ->
  (w < W)%nat -> (e < E)%nat -> (a < D)%nat ->
  at3 (randn_like noise x) w e a = noise w e a.
Proof.
  intros Hx Hw He Ha.
  destruct (has_shape_row W E D x w Hx Hw) as [HEx HDx].
  destruct Hx as [HWx _].
  unfold at3, randn_like, mapi.
  rewrite (nth_mapi_from _ _ _ 0 x w [] []) by lia.
  rewrite (nth_mapi_from _ _ _ 0 _ e [] []) by lia.
  rewrite (nth_mapi_from _ _ _ 0 _ a 0 0) by (rewrite HDx; lia).
  reflexivity.
Qed.

Lemma mapi_from_const_length (A B : Type) (f : nat -> B) (l l' : list A) k :
  length l = length l' ->
  mapi_from (fun i _ => f i) k l = mapi_from (fun i _ => f i) k l'.
Proof.
  revert l' k; induction l as [|x l IH]; intros [|x' l'] k H; simpl in *;
    try discriminate; auto.
  f_equal. apply IH. lia.
Qed.

Lemma mapi_from_rows_length (A B : Type) (f : nat -> nat -> B)
  (l l' : list (list A)) k :
  map (@length A) l = map (@length A) l' ->
  mapi_from (fun e row => mapi (fun a _ => f e a) row) k l =
  mapi_from (fun e row => mapi (fun a _ => f e a) row) k l'.
Proof.
  revert l' k; induction l as [|x l IH]; intros [|x' l'] k H; simpl in *;
    try discriminate; auto.
  injection H as Hx Hl. f_equal; [|apply IH; exact Hl].
  apply mapi_from_const_length. exact Hx.
Qed.

(** [randn_like] reads the shape of its argument only. *)
Lemma randn_like_shape noise (x y : batch) :
  map (map (@length R)) x = map (map (@length R)) y ->
  randn_like noise x = randn_like noise y.
Proof.
  unfold randn_like, mapi at 1 4. generalize 0%nat as k.
  revert y; induction x as [|wx x IH]; intros [|wy y] k H; simpl in *;
    try discriminate; auto.
  injection H as Hw Hrest. f_equal; [|apply IH; exact Hrest].
  apply (mapi_from_rows_length R R (noise k)). exact Hw.
Qed.

Lemma big_sum_ext n f g :
  (forall i, (i < n)%nat -> f i = g i) -> big_sum n f = big_sum n g.
Proof.
  intros H. unfold big_sum. f_equal. apply map_ext_in.
  intros i Hi. apply in_seq in Hi. apply H. lia.
Qed.

Lemma rsum_big_sum l : rsum l = big_sum (length l) (fun i => nth i l 0).
Proof.
  unfold big_sum. f_equal.
  apply (nth_ext _ _ 0 0).
  - rewrite length_map, length_seq. reflexivity.
  - intros i Hi. rewrite (nth_map_in _ _ _ _ i 0%nat 0)
      by (rewrite length_seq; exact Hi).
    rewrite seq_nth by exact Hi. reflexivity.
Qed.

Lemma length_tsum_inner x : length (tsum_inner x) = length x.
Proof. unfold tsum_inner. apply length_map. Qed.

Lemma nth_tsum_inner W E D x w :
  has_shape W E D x -> (w < W)%nat ->
  nth w (tsum_inner x) 0 = sum_axes E D (fun e a => at3 x w e a).
Proof.
  intros Hx Hw.
  destruct (has_shape_row W E D x w Hx Hw) as [HE HD].
  destruct Hx as [HW _].
  unfold tsum_inner. rewrite (nth_map_in _ _ _ x w [] 0) by lia.
  rewrite rsum_big_sum, length_map, HE. unfold sum_axes.
  apply big_sum_ext. intros e He.
  rewrite (nth_map_in _ _ _ _ e [] 0) by lia.
  rewrite rsum_big_sum, (HD e He). reflexivity.
Qed.

Lemma Rgtb_true p u : Rgtb p u = true <-> u < p.
Proof.
  unfold Rgtb. destruct (Rlt_dec u p); split; intros; auto; discriminate.
Qed.


Lemma Rgtb_false p u : ~ u < p -> Rgtb p u = false.
Proof. unfold Rgtb. destruct (Rlt_dec u p); intros; [contradiction|reflexivity]. Qed.

Lemma xdiv_fin x y : y <> 0 -> xdiv x y = Fin (x / y).
Proof.
  intros Hy. unfold xdiv. destruct (Req_dec_T y 0); [contradiction|reflexivity].
Qed.

Lemma xdiv_pos_zero x : 0 < x -> xdiv x 0 = PInf.
Proof.
  intros Hx. unfold xdiv. destruct (Req_dec_T 0 0); [|congruence].
  destruct (Rlt_dec 0 x); [reflexivity|contradiction].
Qed.

Lemma xdiv_zero_zero : xdiv 0 0 = NaN.
Proof.
  unfold xdiv. destruct (Req_dec_T 0 0); [|congruence].
  destruct (Rlt_dec 0 0); [lra|reflexivity].
Qed.

Lemma xmul_pinf c : 0 < c -> xmul PInf c = PInf.
Proof.
  intros Hc. unfold xmul. destruct (Rlt_dec 0 c); [reflexivity|contradiction].
Qed.

Lemma length_rand_like (X : Type) u (v : list X) :
  length (rand_like u v) = length v.
Proof. unfold rand_like, mapi. apply length_mapi_from. Qed.

Lemma nth_vgt_rand_like u (v : list xreal) w :
  (w < length v)%nat ->
  nth w (vgt v (rand_like u v)) false = xgtb (nth w v NaN) (u w).
Proof.
  intros Hw. unfold vgt.
  rewrite (nth_zip_with _ _ _ _ _ _ w NaN 0 false)
    by (rewrite ?length_rand_like; exact Hw).
  unfold rand_like, mapi.
  rewrite (nth_mapi_from _ _ _ 0 v w NaN 0) by exact Hw. reflexivity.
Qed.

Lemma length_vgt_rand_like u (v : list xreal) :
  length (vgt v (rand_like u v)) = length v.
Proof.
  unfold vgt. rewrite length_zip_with, length_rand_like. apply Nat.min_id.
Qed.

Lemma has_shapeb_true W E D x : has_shapeb W E D x = true -> has_shape W E D x.
Proof.
  unfold has_shapeb. rewrite andb_true_iff, Nat.eqb_eq, forallb_forall.
  intros [HW Hx]. split; [exact HW|].
  intros wk Hwk. specialize (Hx _ Hwk).
  rewrite andb_true_iff, Nat.eqb_eq, forallb_forall in Hx.
  destruct Hx as [HE HD]. split; [exact HE|].
  intros row Hrow. apply Nat.eqb_eq, HD, Hrow.
Qed.

Lemma has_shape_lengths W E D x :
  has_shape W E D x -> map (map (@length R)) x = repeat (repeat D E) W.
Proof.
  intros [HW Hx]. subst W. induction x as [|wk x IH]; simpl; [reflexivity|].
  f_equal.
  - destruct (Hx wk (or_introl eq_refl)) as [HE HD]. subst E.
    clear -HD. induction wk as [|row wk IH]; simpl; [reflexivity|].
    f_equal; [apply HD; left; reflexivity|].
    apply IH. intros r Hr. apply HD. right; exact Hr.
  - apply IH. intros w Hw. apply Hx. right; exact Hw.
Qed.

Lemma length_assign_rows (X : Type) (m : mask) (x y : list X) :
  length (assign_rows m x y) = length x.
Proof.
  revert m y; induction x as [|xi x IH]; intros [|b m] [|yi y]; simpl; auto.
Qed.

Lemma nth_assign_rows (X : Type) (m : mask) (x y : list X) w d :
  (w < length x)%nat -> (w < length y)%nat -> (w < length m)%nat ->
  nth w (assign_rows m x y) d = if nth w m false then nth w y d else nth w x d.
Proof.
  revert m y w; induction x as [|xi x IH]; intros [|b m] [|yi y] [|w];
    simpl; intros; try lia.
  - destruct b; reflexivity.
  - apply IH; lia.
Qed.

Lemma acceptance_rate_ok accepted (rs : batch) :
  rs <> [] ->
  acceptance_rate accepted rs = Ok (INR (count_true accepted) / INR (length rs)).
Proof.
  intros Hne. unfold acceptance_rate. destruct rs; [congruence|reflexivity].
Qed.

Lemma has_shape_nonempty W E D x : has_shape W E D x -> (0 < W)%nat -> x <> [].
Proof.
  intros [HW _] Hpos ->. simpl in HW. lia.
Qed.

Lemma nth_vdiv (a b : vec) w :
  (w < length a)%nat -> (w < length b)%nat ->
  nth w (vdiv a b) NaN = xdiv (nth w a 0) (nth w b 0).
Proof. intros. unfold vdiv. apply nth_zip_with; assumption. Qed.

Lemma nth_xvmul (a : list xreal) (b : vec) w :
  (w < length a)%nat -> (w < length b)%nat ->
  nth w (xvmul a b) NaN = xmul (nth w a NaN) (nth w b 0).
Proof. intros. unfold xvmul. apply nth_zip_with; assumption. Qed.

Lemma nth_vmul (a b : vec) w :
  (w < length a)%nat -> (w < length b)%nat ->
  nth w (vmul a b) 0 = nth w a 0 * nth w b 0.
Proof. intros. unfold vmul. apply nth_zip_with; assumption. Qed.

Lemma nth_vsub (a b : vec) w :
  (w < length a)%nat -> (w < length b)%nat ->
  nth w (vsub a b) 0 = nth w a 0 - nth w b 0.
Proof. intros. unfold vsub. apply nth_zip_with; assumption. Qed.

Lemma nth_vpow2 (a : vec) w :
  (w < length a)%nat -> nth w (vpow2 a) 0 = (nth w a 0) ^ 2.
Proof.
  intros. unfold vpow2. rewrite (nth_map_in _ _ _ a w 0 0) by assumption.
  reflexivity.
Qed.

Lemma nth_vexp (a : vec) w :
  (w < length a)%nat -> nth w (vexp a) 0 = exp (nth w a 0).
Proof.
  intros. unfold vexp. rewrite (nth_map_in _ _ _ a w 0 0) by assumption.
  reflexivity.
Qed.

Lemma nth_vscale_l c (a : vec) w :
  (w < length a)%nat -> nth w (vscale_l c a) 0 = c * nth w a 0.
Proof.
  intros. unfold vscale_l. rewrite (nth_map_in _ _ _ a w 0 0) by assumption.
  reflexivity.
Qed.

Lemma length_vdiv (a b : vec) :
  length (vdiv a b) = Nat.min (length a) (length b).
Proof. apply length_zip_with. Qed.

Lemma length_vmul (a b : vec) :
  length (vmul a b) = Nat.min (length a) (length b).
Proof. apply length_zip_with. Qed.

Lemma length_xvmul (a : list xreal) (b : vec) :
  length (xvmul a b) = Nat.min (length a) (length b).
Proof. apply length_zip_with. Qed.

Lemma length_vsub (a b : vec) :
  length (vsub a b) = Nat.min (length a) (length b).
Proof. apply length_zip_with. Qed.

Lemma length_vpow2 (a : vec) : length (vpow2 a) = length a.
Proof. apply length_map. Qed.

Lemma length_vexp (a : vec) : length (vexp a) = length a.
Proof. apply length_map. Qed.

Lemma length_vscale_l c (a : vec) : length (vscale_l c a) = length a.
Proof. apply length_map. Qed.

Lemma length_tmap f (x : batch) : length (tmap f x) = length x.
Proof. apply length_map. Qed.

Lemma length_tpow2 (x : batch) : length (tpow2 x) = length x.
Proof. apply length_map. Qed.

Create Rewrite HintDb tensor_len.
#[export] Hint Rewrite length_vdiv length_vmul length_xvmul length_vsub
  length_vpow2
  length_vexp length_vscale_l length_tsum_inner length_rand_like
  length_vgt_rand_like length_tmap length_tpow2 Nat.min_id : tensor_len.

(** ** The Metropolis kernel *)

(** C3.  In every iteration of the Metropolis kernel on a batch of [W]
    walkers: the proposal is the standard-normal noise scaled by
    [stepsize], coordinate by coordinate; any other position of the same
    shape gives the same proposal (an independence proposal); the
    acceptance probability of a walker [w] whose current amplitude is
    not zero is [wf(rs_new)[w]^2 / wf(rs)[w]^2], with no further factor;
    and that walker is accepted iff its uniform draw is below that
    probability. *)
Theorem metropolis_step (wf : batch -> vec) (stepsize : R) (d : draws)
  (s : m_state) (W E D : nat) :
  let rs := m_resume s in
  let rs_new := metropolis_proposal stepsize d rs in
  let Ps_acc := metropolis_Ps_acc wf rs rs_new in
  let accepted := vgt Ps_acc (rand_like (uniform d) Ps_acc) in
  has_shape W E D rs -> (0 < W)%nat ->
  length (wf rs) = W -> length (wf rs_new) = W ->
  metropolis wf stepsize d s =
    Yield (rs, wf rs, mkInfo (INR (count_true accepted) / INR W) None)
          (MYielded rs rs_new accepted) /\
  has_shape W E D rs_new /\
  (forall w e a, (w < W)%nat -> (e < E)%nat -> (a < D)%nat ->
     at3 rs_new w e a = normal d w e a * stepsize) /\
  (forall rs', has_shape W E D rs' ->
     metropolis_proposal stepsize d rs' = rs_new) /\
  (forall w, (w < W)%nat -> nth w (wf rs) 0 <> 0 ->
     nth w Ps_acc NaN =
       Fin ((nth w (wf rs_new) 0) ^ 2 / (nth w (wf rs) 0) ^ 2) /\
     (nth w accepted false = true <->
      uniform d w < (nth w (wf rs_new) 0) ^ 2 / (nth w (wf rs) 0) ^ 2)) /\
  length accepted = W.
Proof.
  intros rs rs_new Ps_acc accepted Hrs HW Hpsi Hpsi'.
  assert (Hnew : has_shape W E D rs_new).
  { apply has_shape_tmap, has_shape_randn_like, Hrs. }
  assert (HlenP : length Ps_acc = W).
  { unfold Ps_acc, metropolis_Ps_acc. autorewrite with tensor_len.
    rewrite Hpsi, Hpsi'. apply Nat.min_id. }
  split; [|split; [exact Hnew|split; [|split; [|split]]]].
  - unfold metropolis, metropolis_iter. fold rs. fold rs_new.
    change (vdiv (vpow2 (wf rs_new)) (vpow2 (wf rs))) with Ps_acc.
    fold accepted.
    rewrite acceptance_rate_ok by (eapply has_shape_nonempty; eauto).
    destruct Hrs as [-> _]. reflexivity.
  - intros w e a Hw He Ha. unfold rs_new, metropolis_proposal, tscale_r.
    rewrite (at3_tmap W E D) by (auto using has_shape_randn_like).
    rewrite (at3_randn_like W E D) by auto. reflexivity.
  - intros rs' Hrs'. unfold rs_new, metropolis_proposal. f_equal.
    apply randn_like_shape.
    rewrite (has_shape_lengths W E D rs'), (has_shape_lengths W E D rs); auto.
  - intros w Hw Hnz.
    assert (HP : nth w Ps_acc NaN =
              Fin ((nth w (wf rs_new) 0) ^ 2 / (nth w (wf rs) 0) ^ 2)).
    { unfold Ps_acc, metropolis_Ps_acc.
      rewrite nth_vdiv, !nth_vpow2; autorewrite with tensor_len; try lia.
      apply xdiv_fin, pow_nonzero, Hnz. }
    split; [exact HP|]. unfold accepted.
    rewrite nth_vgt_rand_like, HP by lia. apply Rgtb_true.
  - unfold accepted. autorewrite with tensor_len. exact HlenP.
Qed.

(** On a node of the wave function the quotient is not a number: a
    walker whose current amplitude is zero is accepted when its
    amplitude at the proposal is not zero (the quotient is plus
    infinity), and rejected when that is zero too (the quotient is
    NaN), whatever its uniform draw is. *)
Lemma metropolis_on_a_node (wf : batch -> vec) (stepsize : R) (d : draws)
  (s : m_state) (W w : nat) :
  let rs := m_resume s in
  let rs_new := metropolis_proposal stepsize d rs in
  let Ps_acc := metropolis_Ps_acc wf rs rs_new in
  let accepted := vgt Ps_acc (rand_like (uniform d) Ps_acc) in
  length (wf rs) = W -> length (wf rs_new) = W -> (w < W)%nat ->
  nth w (wf rs) 0 = 0 ->
  (nth w (wf rs_new) 0 <> 0 ->
   nth w Ps_acc NaN = PInf /\ nth w accepted false = true) /\
  (nth w (wf rs_new) 0 = 0 ->
   nth w Ps_acc NaN = NaN /\ nth w accepted false = false).
Proof.
  intros rs rs_new Ps_acc accepted Hpsi Hpsi' Hw Hz.
  assert (Hlen : (w < length Ps_acc)%nat).
  { unfold Ps_acc, metropolis_Ps_acc. autorewrite with tensor_len.
    rewrite Hpsi, Hpsi'. lia. }
  assert (HP : nth w Ps_acc NaN = xdiv ((nth w (wf rs_new) 0) ^ 2) (0 ^ 2)).
  { unfold Ps_acc, metropolis_Ps_acc.
    rewrite nth_vdiv, !nth_vpow2; autorewrite with tensor_len; try lia.
    rewrite Hz. reflexivity. }
  replace (0 ^ 2) with 0 in HP by ring.
  split; intros Hnew.
  - assert (HPinf : nth w Ps_acc NaN = PInf).
    { rewrite HP. apply xdiv_pos_zero.
      assert (0 <= (nth w (wf rs_new) 0) ^ 2) by apply pow2_ge_0.
      assert ((nth w (wf rs_new) 0) ^ 2 <> 0) by (apply pow_nonzero, Hnew).
      lra. }
    split; [exact HPinf|]. unfold accepted.
    rewrite nth_vgt_rand_like, HPinf by exact Hlen. reflexivity.
  - assert (HPnan : nth w Ps_acc NaN = NaN).
    { rewrite HP, Hnew. replace (0 ^ 2) with 0 by ring. apply xdiv_zero_zero. }
    split; [exact HPnan|]. unfold accepted.
    rewrite nth_vgt_rand_like, HPnan by exact Hlen. reflexivity.
Qed.

(** The amplitudes of the examples at the origin are not zero. *)
Ltac amplitude_nonzero :=
  cbv [wf_decay wf_one origin1 m_resume map nth l_psis l_vars_origin
       l_vars_at];
  match goal with
  | |- ?q <> 0 => replace q with 1 by field
  end;
  lra.

Lemma metropolis_step_witness :
  (exists y g,
     metropolis wf_decay 1 (draws_const 1 (1 / 2)) (MStart origin1) =
     Yield y g) /\
  nth 0 (metropolis_Ps_acc wf_decay origin1
           (metropolis_proposal 1 (draws_const 1 (1 / 2)) origin1)) NaN =
  Fin ((nth 0 (wf_decay (metropolis_proposal 1 (draws_const 1 (1 / 2))
                           origin1)) 0) ^ 2 /
       (nth 0 (wf_decay origin1) 0) ^ 2).
Proof.
  destruct (metropolis_step wf_decay 1 (draws_const 1 (1 / 2)) (MStart origin1)
              1 1 3) as (H & _ & _ & _ & HP & _).
  - apply has_shapeb_true. reflexivity.
  - apply Nat.lt_0_1.
  - reflexivity.
  - reflexivity.
  - split; [eexists; eexists; exact H|].
    apply (HP 0%nat); [lia | amplitude_nonzero].
Defined.

(** ** What a step yields, and when the overwrite happens *)

Lemma py_div_ok x y : y <> 0 -> py_div x y = Ok (x / y).
Proof.
  intros Hy. unfold py_div. destruct (Req_dec_T y 0); [contradiction|reflexivity].
Qed.

Lemma py_div_zero x : py_div x 0 = Raise ZeroDivisionError.
Proof.
  unfold py_div. destruct (Req_dec_T 0 0); [reflexivity|congruence].
Qed.

(** A call of [next] on a Langevin generator runs the statements before
    the loop, when they have not run yet, and then one pass of the
    loop. *)
Lemma langevin_monte_carlo_enter
  (quantum_force : R -> batch -> (batch -> vec) -> result (batch * vec))
  (wf : batch -> vec) (tau cutoff : R) (d : draws) (h : heap) (s : l_state) :
  langevin_monte_carlo quantum_force wf tau cutoff d h s =
  match l_enter quantum_force wf tau cutoff h s with
  | Raise e => (h, Throw e)
  | Ok (h1, v) => langevin_iter quantum_force wf tau cutoff d h1 v
  end.
Proof.
  destruct s as [dev rs|v]; [|reflexivity].
  unfold langevin_monte_carlo, l_enter.
  destruct (py_div cutoff tau) as [clamp|e]; [|reflexivity]. cbn [bind].
  destruct (quantum_force clamp rs wf) as [[F psi]|e]; [|reflexivity].
  reflexivity.
Qed.

(** C4.  A Metropolis or HMC generator resumed from the state its
    previous step left (position [rs], proposal [rs_new], mask
    [accepted]) first applies that pending overwrite and yields the
    result [cur] with its amplitude, whatever this step draws; the
    proposal and the mask of this step stay pending beside the
    unchanged [cur] (on its first step there is nothing pending and it
    yields the initial position).  Every call of [next] on a Langevin
    generator with [tau > 0], the first one included, overwrites
    position, amplitude and forces together under the mask of this very
    step and yields the overwritten position and amplitude. *)
Theorem yield_timing
  (quantum_force : R -> batch -> (batch -> vec) -> result (batch * vec))
  (wf : batch -> vec) (d : draws) :
  (forall stepsize s,
     let cur := m_resume s in
     cur <> [] ->
     exists info,
       metropolis wf stepsize d s =
       Yield (cur, wf cur, info)
             (MYielded cur (metropolis_proposal stepsize d cur)
                (vgt (metropolis_Ps_acc wf cur (metropolis_proposal stepsize d cur))
                   (rand_like (uniform d)
                      (metropolis_Ps_acc wf cur
                         (metropolis_proposal stepsize d cur)))))) /\
  (forall dysteps stepsize tau cutoff s rs_new v v_0,
     let cur := m_resume s in
     cur <> [] ->
     dynamics quantum_force wf d cur stepsize dysteps tau cutoff =
       Ok (rs_new, v, v_0) ->
     exists info,
       hmc quantum_force wf dysteps stepsize tau cutoff d s =
       Yield (cur, wf cur, info)
             (MYielded cur rs_new
                (vgt (hmc_Ps_acc wf cur rs_new v v_0)
                   (rand_like (uniform d) (hmc_Ps_acc wf cur rs_new v v_0))))) /\
  (forall rs rs_new accepted,
     m_resume (MStart rs) = rs /\
     m_rs (MYielded rs rs_new accepted) = rs /\
     m_resume (MYielded rs rs_new accepted) = assign_where1 rs rs_new accepted) /\
  (forall tau cutoff h s h1 v forces_new psis_new,
     0 < tau ->
     l_enter quantum_force wf tau cutoff h s = Ok (h1, v) ->
     l_rs v <> [] ->
     let rs_new := langevin_proposal tau d (l_rs v) (l_forces v) in
     quantum_force (cutoff / tau) rs_new wf = Ok (forces_new, psis_new) ->
     let Ps_acc := langevin_Ps_acc tau (l_rs v) rs_new (l_forces v) forces_new
                     (l_psis v) psis_new in
     let accepted := vgt Ps_acc (rand_like (uniform d) Ps_acc) in
     let rs' := assign_rows accepted (l_rs v) rs_new in
     let psis' := assign_rows accepted (l_psis v) psis_new in
     let forces' := assign_rows accepted (l_forces v) forces_new in
     exists info h',
       gen_next (langevin_monte_carlo quantum_force wf tau cutoff d) h
                (Suspended s) =
       (h', Yield (rs', psis', info)
                  (Suspended
                     (LYielded (mkLVars rs' psis' forces' (l_lifetime v)))))).
Proof.
  split; [|split; [|split]].
  - intros stepsize s cur Hne. unfold metropolis, metropolis_iter.
    fold cur. rewrite acceptance_rate_ok by exact Hne.
    eexists. reflexivity.
  - intros dysteps stepsize tau cutoff s rs_new v v_0 cur Hne Hdyn.
    unfold hmc, hmc_iter. fold cur. rewrite Hdyn.
    rewrite acceptance_rate_ok by exact Hne.
    eexists. reflexivity.
  - intros. repeat split.
  - intros tau cutoff h s h1 v forces_new psis_new _ Henter Hne rs_new Hq
      Ps_acc accepted rs' psis' forces'.
    cbn [gen_next]. rewrite langevin_monte_carlo_enter, Henter.
    unfold langevin_iter. fold rs_new. rewrite Hq.
    fold Ps_acc. fold accepted.
    rewrite acceptance_rate_ok by exact Hne.
    destruct (cpu _ (l_lifetime v)) as [h' t] eqn:Hcpu.
    cbn [assign_where3]. fold rs'. fold psis'. fold forces'.
    eexists. eexists. reflexivity.
Qed.

Lemma yield_timing_witness :
  (exists info,
     metropolis wf_decay 1 (draws_const 1 (1 / 2))
       (MYielded origin1 [[[1; 1; 1]]] [true]) =
     Yield ([[[1; 1; 1]]], wf_decay [[[1; 1; 1]]], info)
           (MYielded [[[1; 1; 1]]] [[[1 * 1; 1 * 1; 1 * 1]]]
              (vgt (metropolis_Ps_acc wf_decay [[[1; 1; 1]]]
                      [[[1 * 1; 1 * 1; 1 * 1]]])
                   [1 / 2]))) /\
  (exists h' y v',
     gen_next (langevin_monte_carlo qforce_free wf_decay 1 1
                 (draws_const 1 (1 / 2)))
              [] (Suspended (LStart CPU origin1)) =
     (h', Yield y (Suspended (LYielded v'))) /\
     l_rs v' = fst (fst y) /\ l_psis v' = snd (fst y)).
Proof.
  destruct (yield_timing qforce_free wf_decay (draws_const 1 (1 / 2)))
    as (Hm & _ & _ & Hl).
  split.
  - apply (Hm 1 (MYielded origin1 [[[1; 1; 1]]] [true])).
    discriminate.
  - destruct (Hl 1 1 [] (LStart CPU origin1) [[0%Z]] l_vars_origin
                (tmap (fun _ => 0)
                   (langevin_proposal 1 (draws_const 1 (1 / 2)) origin1
                      (tmap (fun _ => 0) origin1)))
                (wf_decay
                   (langevin_proposal 1 (draws_const 1 (1 / 2)) origin1
                      (tmap (fun _ => 0) origin1))))
      as (info & h' & H).
    + lra.
    + unfold l_enter. rewrite py_div_ok by lra. reflexivity.
    + discriminate.
    + reflexivity.
    + eexists. eexists. eexists. split; [exact H|]. split; reflexivity.
Defined.

(** ** The HMC kernel *)

Lemma length_range lo hi : length (range lo hi) = Z.to_nat (hi - lo).
Proof. unfold range. rewrite length_map, length_seq. reflexivity. Qed.

Lemma for_each_iterate (X S : Type) (l : list X) (f g : S -> result S) (s : S) :
  (forall s, f s = g s) ->
  for_each l s (fun _ => f) = iterate_result (length l) g s.
Proof.
  intros Hfg. revert s; induction l as [|x l IH]; intros s; simpl.
  - reflexivity.
  - rewrite Hfg. destruct (g s) as [s'|e]; simpl; [apply IH | reflexivity].
Qed.

Lemma dynamics_step_interior
  (qforce : batch -> (batch -> vec) -> result (batch * vec))
  (wf : batch -> vec) (stepsize : R) (vp : batch * batch) :
  dynamics_step wf qforce stepsize vp =
  leapfrog_interior (fun x => fp <- qforce x wf ;; Ok (fst fp)) stepsize vp.
Proof.
  unfold dynamics_step, leapfrog_interior. destruct vp as [v p]. simpl.
  destruct (qforce p wf) as [[f psi]|e]; simpl; [|reflexivity].
  replace (stepsize * 2) with (2 * stepsize) by apply Rmult_comm.
  reflexivity.
Qed.

Lemma nth_norm2 W E D (v : batch) w :
  has_shape W E D v -> (w < W)%nat ->
  nth w (tsum_inner (tpow2 v)) 0 = norm2 E D v w.
Proof.
  intros Hv Hw. unfold tpow2, norm2.
  rewrite (nth_tsum_inner W E D) by (auto using has_shape_tmap).
  unfold sum_axes. apply big_sum_ext; intros e He.
  apply big_sum_ext; intros a Ha.
  apply (at3_tmap W E D); assumption.
Qed.

(** C2.  With [dysteps >= 1], [dynamics] draws a standard-normal
    velocity [v_0] of the shape of the position and is the leapfrog
    integration from the value of the position: a first half step, exactly
    [dysteps - 1] interior steps with the doubled velocity increment, and
    a final half step.  The acceptance probability of a walker [w]
    whose amplitude at the starting position is not zero is
    [(wf(p_end)[w]^2 / wf(pos)[w]^2) * exp(-1/2 * (|v_final|^2 -
    |v_0|^2))] with the squared norms summed over the electron and the
    spatial axis; that walker is accepted iff its uniform draw is below
    it; and only the position is left for the conditional assignment. *)
Theorem hmc_step
  (quantum_force : R -> batch -> (batch -> vec) -> result (batch * vec))
  (wf : batch -> vec) (dysteps : Z) (stepsize tau cutoff : R) (d : draws)
  (s : m_state) (W E D : nat) (rs_new v v_0 : batch) :
  let rs := m_resume s in
  let F := fun x => fp <- quantum_force (cutoff / tau) x wf ;; Ok (fst fp) in
  let Ps_acc := hmc_Ps_acc wf rs rs_new v v_0 in
  let accepted := vgt Ps_acc (rand_like (uniform d) Ps_acc) in
  (1 <= dysteps)%Z ->
  has_shape W E D rs -> (0 < W)%nat ->
  dynamics quantum_force wf d rs stepsize dysteps tau cutoff =
    Ok (rs_new, v, v_0) ->
  has_shape W E D v ->
  length (wf rs) = W -> length (wf rs_new) = W ->
  (forall pos,
     dynamics quantum_force wf d pos stepsize dysteps tau cutoff =
     pv <- leapfrog F stepsize (Z.to_nat (dysteps - 1)) pos
             (randn_like (normal d) pos) ;;
     Ok (fst pv, snd pv, randn_like (normal d) pos)) /\
  v_0 = randn_like (normal d) rs /\
  has_shape W E D v_0 /\
  (forall w e a, (w < W)%nat -> (e < E)%nat -> (a < D)%nat ->
     at3 v_0 w e a = normal d w e a) /\
  (forall w, (w < W)%nat -> nth w (wf rs) 0 <> 0 ->
     nth w Ps_acc NaN =
       Fin ((nth w (wf rs_new) 0) ^ 2 / (nth w (wf rs) 0) ^ 2 *
            exp (- (1 / 2) * (norm2 E D v w - norm2 E D v_0 w))) /\
     (nth w accepted false = true <->
      uniform d w <
        (nth w (wf rs_new) 0) ^ 2 / (nth w (wf rs) 0) ^ 2 *
        exp (- (1 / 2) * (norm2 E D v w - norm2 E D v_0 w)))) /\
  length accepted = W /\
  hmc quantum_force wf dysteps stepsize tau cutoff d s =
    Yield (rs, wf rs, mkInfo (INR (count_true accepted) / INR W) None)
          (MYielded rs rs_new accepted) /\
  m_resume (MYielded rs rs_new accepted) = assign_where1 rs rs_new accepted.
Proof.
  intros rs F Ps_acc accepted Hsteps Hrs HW Hdyn Hv Hpsi Hpsi'.
  assert (Htau : tau <> 0).
  { intros ->. unfold dynamics in Hdyn. rewrite py_div_zero in Hdyn.
    discriminate. }
  assert (Hleap : forall pos,
     dynamics quantum_force wf d pos stepsize dysteps tau cutoff =
     pv <- leapfrog F stepsize (Z.to_nat (dysteps - 1)) pos
             (randn_like (normal d) pos) ;;
     Ok (fst pv, snd pv, randn_like (normal d) pos)).
  { intros pos. unfold dynamics, leapfrog, F.
    rewrite (py_div_ok cutoff tau Htau). cbn [bind].
    destruct (quantum_force (cutoff / tau) pos wf) as [[f0 psi0]|e];
      simpl; [|reflexivity].
    rewrite (for_each_iterate _ _ _ _
               (leapfrog_interior
                  (fun x => fp <- quantum_force (cutoff / tau) x wf ;; Ok (fst fp))
                  stepsize))
      by (intros vp; apply dynamics_step_interior).
    rewrite length_range.
    destruct (iterate_result _ _ _) as [[v' p']|e]; simpl; [|reflexivity].
    destruct (quantum_force (cutoff / tau) p' wf) as [[f1 psi1]|e];
      simpl; reflexivity. }
  assert (Hv0 : v_0 = randn_like (normal d) rs).
  { rewrite Hleap in Hdyn.
    destruct (leapfrog _ _ _ _ _) as [pv|e]; simpl in Hdyn; [|discriminate].
    injection Hdyn as _ _ <-. reflexivity. }
  assert (Hv0s : has_shape W E D v_0).
  { rewrite Hv0. apply has_shape_randn_like, Hrs. }
  assert (HlenP : length Ps_acc = W).
  { unfold Ps_acc, hmc_Ps_acc. autorewrite with tensor_len.
    destruct Hv as [Hv _], Hv0s as [Hv0s _].
    rewrite Hpsi, Hpsi', Hv, Hv0s. rewrite !Nat.min_id. reflexivity. }
  split; [exact Hleap|]. split; [exact Hv0|]. split; [exact Hv0s|].
  split; [|split; [|split; [|split]]].
  - intros w e a Hw He Ha. rewrite Hv0. apply (at3_randn_like W E D); auto.
  - intros w Hw Hnz.
    assert (HP : nth w Ps_acc NaN =
              Fin ((nth w (wf rs_new) 0) ^ 2 / (nth w (wf rs) 0) ^ 2 *
                   exp (- (1 / 2) * (norm2 E D v w - norm2 E D v_0 w)))).
    { unfold Ps_acc, hmc_Ps_acc.
      destruct Hv as [HvW Hv'], Hv0s as [Hv0W Hv0'].
      rewrite nth_xvmul; autorewrite with tensor_len;
        rewrite ?Hpsi, ?Hpsi', ?HvW, ?Hv0W, ?Nat.min_id; try lia.
      rewrite nth_vdiv, !nth_vpow2; autorewrite with tensor_len;
        rewrite ?Hpsi, ?Hpsi'; try lia.
      rewrite nth_vexp; autorewrite with tensor_len;
        rewrite ?HvW, ?Hv0W, ?Nat.min_id; try lia.
      rewrite nth_vscale_l; autorewrite with tensor_len;
        rewrite ?HvW, ?Hv0W, ?Nat.min_id; try lia.
      rewrite nth_vsub; autorewrite with tensor_len;
        rewrite ?HvW, ?Hv0W; try lia.
      rewrite (nth_norm2 W E D v w) by (try split; auto).
      rewrite (nth_norm2 W E D v_0 w) by (try split; auto).
      rewrite xdiv_fin by (apply pow_nonzero, Hnz). cbn [xmul].
      f_equal. f_equal. f_equal. lra. }
    split; [exact HP|]. unfold accepted.
    rewrite nth_vgt_rand_like, HP by lia. apply Rgtb_true.
  - unfold accepted. autorewrite with tensor_len. exact HlenP.
  - unfold hmc, hmc_iter. fold rs. rewrite Hdyn.
    change (xvmul _ _) with Ps_acc. fold accepted.
    rewrite acceptance_rate_ok by (eapply has_shape_nonempty; eauto).
    destruct Hrs as [-> _]. reflexivity.
  - reflexivity.
Qed.

Lemma hmc_step_witness :
  exists y g rs_new v v_0,
    hmc qforce_free wf_one 2 1 1 1 (draws_const 1 (1 / 2)) (MStart origin1) =
    Yield y g /\
    nth 0 (hmc_Ps_acc wf_one origin1 rs_new v v_0) NaN =
    Fin ((nth 0 (wf_one rs_new) 0) ^ 2 / (nth 0 (wf_one origin1) 0) ^ 2 *
         exp (- (1 / 2) * (norm2 1 3 v 0 - norm2 1 3 v_0 0))).
Proof.
  assert (Hd : exists rs_new v v_0,
             dynamics qforce_free wf_one (draws_const 1 (1 / 2)) origin1 1 2 1 1 =
               Ok (rs_new, v, v_0) /\
             has_shapeb 1 1 3 v = true).
  { unfold dynamics. rewrite py_div_ok by lra.
    eexists. eexists. eexists. split; reflexivity. }
  destruct Hd as (rs_new & v & v_0 & Hd & Hv).
  destruct (hmc_step qforce_free wf_one 2 1 1 1 (draws_const 1 (1 / 2))
              (MStart origin1) 1 1 3 rs_new v v_0)
    as (_ & _ & _ & _ & HP & _ & H & _).
  - lia.
  - apply has_shapeb_true. reflexivity.
  - apply Nat.lt_0_1.
  - exact Hd.
  - apply has_shapeb_true. exact Hv.
  - reflexivity.
  - unfold wf_one. rewrite length_map.
    unfold dynamics in Hd. rewrite py_div_ok in Hd by lra.
    cbv [qforce_free bind] in Hd. simpl in Hd.
    injection Hd as <- _ _. reflexivity.
  - exists (origin1, wf_one origin1,
            mkInfo (INR (count_true
                           (vgt (hmc_Ps_acc wf_one origin1 rs_new v v_0)
                              (rand_like (uniform (draws_const 1 (1 / 2)))
                                 (hmc_Ps_acc wf_one origin1 rs_new v v_0)))) /
                    INR 1) None).
    eexists. exists rs_new, v, v_0. split; [exact H|].
    apply (HP 0%nat); [lia | amplitude_nonzero].
Defined.

(** ** The Langevin kernel *)

Lemma In_assign_rows (X : Type) (m : mask) (x y : list X) z :
  In z (assign_rows m x y) -> In z x \/ In z y.
Proof.
  revert m y; induction x as [|xi x IH]; intros [|b m] [|yi y] Hz;
    simpl in *; auto.
  destruct Hz as [Hz|Hz].
  - destruct b; subst; auto.
  - destruct (IH _ _ Hz); auto.
Qed.

Lemma has_shape_assign_rows W E D (m : mask) (x y : batch) :
  has_shape W E D x -> has_shape W E D y -> has_shape W E D (assign_rows m x y).
Proof.
  intros [HWx Hx] [HWy Hy]. split.
  - rewrite length_assign_rows. exact HWx.
  - intros wk Hwk. apply In_assign_rows in Hwk as [H|H]; auto.
Qed.

Lemma map_assign_rows (X Y : Type) (f : X -> Y) (m : mask) (x y : list X) :
  map f (assign_rows m x y) = assign_rows m (map f x) (map f y).
Proof.
  revert m y; induction x as [|xi x IH]; intros [|b m] [|yi y]; simpl; auto.
  f_equal; [destruct b; reflexivity | apply IH].
Qed.

Lemma gen_next_yield_inv (H Y S : Type) (body : H -> S -> H * resumption Y S)
  (h : H) (g : gen S) (h' : H) (y : Y) (g' : gen S) :
  gen_next body h g = (h', Yield y g') ->
  exists s s', g = Suspended s /\ g' = Suspended s' /\
               body h s = (h', Yield y s').
Proof.
  unfold gen_next. destruct g as [s|]; [|discriminate].
  destruct (body h s) as [h1 r] eqn:Hb. destruct r as [y1 s1| |]; intros Heq;
    try discriminate.
  injection Heq as <- <- <-. exists s, s1. repeat split. exact Hb.
Qed.

Section LangevinProps.

Variable quantum_force : R -> batch -> (batch -> vec) -> result (batch * vec).
Variable wf : batch -> vec.
Variables tau cutoff : R.
Variables W E D : nat.

(** The force provider returns a force field of the shape of the
    position and one amplitude per walker. *)
Hypothesis qforce_shape : forall x F psi,
  has_shape W E D x ->
  quantum_force (cutoff / tau) x wf = Ok (F, psi) ->
  has_shape W E D F /\ length psi = W.

(** Walkers do not interact: the force and the amplitude of a walker
    depend on the position of that walker only. *)
Hypothesis qforce_local : forall x y Fx psix Fy psiy (m : mask),
  has_shape W E D x -> has_shape W E D y -> length m = W ->
  quantum_force (cutoff / tau) x wf = Ok (Fx, psix) ->
  quantum_force (cutoff / tau) y wf = Ok (Fy, psiy) ->
  quantum_force (cutoff / tau) (assign_rows m x y) wf =
    Ok (assign_rows m Fx Fy, assign_rows m psix psiy).

Lemma has_shape_langevin_proposal d rs forces :
  has_shape W E D rs -> has_shape W E D forces ->
  has_shape W E D (langevin_proposal tau d rs forces).
Proof.
  intros Hrs HF. unfold langevin_proposal, tadd, tscale_r.
  repeat first [apply has_shape_tmap2 | apply has_shape_tmap
               | apply has_shape_randn_like | assumption].
Qed.

Lemma length_langevin_Ps_acc rs rs_new forces forces_new (psis psis_new : vec) :
  has_shape W E D rs -> has_shape W E D rs_new ->
  has_shape W E D forces -> has_shape W E D forces_new ->
  length psis = W -> length psis_new = W ->
  length (langevin_Ps_acc tau rs rs_new forces forces_new psis psis_new) = W.
Proof.
  intros Hrs Hnew HF HF' Hpsi Hpsi'.
  assert (Hin : has_shape W E D
            (tmul (tadd forces forces_new)
               (tadd (tsub rs rs_new)
                  (tscale_l (tau / 2) (tsub forces forces_new))))).
  { unfold tmul, tadd, tsub, tscale_l.
    repeat first [apply has_shape_tmap2 | apply has_shape_tmap | assumption]. }
  unfold langevin_Ps_acc, log_G_ratios. autorewrite with tensor_len.
  destruct Hin as [-> _]. rewrite Hpsi, Hpsi', !Nat.min_id. reflexivity.
Qed.

Lemma langevin_iter_inv d h v h' y s' :
  langevin_iter quantum_force wf tau cutoff d h v = (h', Yield y s') ->
  exists forces_new psis_new,
    let rs_new := langevin_proposal tau d (l_rs v) (l_forces v) in
    let Ps_acc := langevin_Ps_acc tau (l_rs v) rs_new (l_forces v) forces_new
                    (l_psis v) psis_new in
    let accepted := vgt Ps_acc (rand_like (uniform d) Ps_acc) in
    quantum_force (cutoff / tau) rs_new wf = Ok (forces_new, psis_new) /\
    s' = LYielded (mkLVars (assign_rows accepted (l_rs v) rs_new)
                     (assign_rows accepted (l_psis v) psis_new)
                     (assign_rows accepted (l_forces v) forces_new)
                     (l_lifetime v)).
Proof.
  unfold langevin_iter.
  destruct (quantum_force (cutoff / tau) _ wf) as [[forces_new psis_new]|e]
    eqn:Hq; [|discriminate].
  destruct (acceptance_rate _ _) as [a|e]; [|discriminate].
  destruct (cpu _ _) as [h1 t]. cbn [assign_where3].
  intros Hy. injection Hy as _ _ <-.
  exists forces_new, psis_new. cbv zeta. split; reflexivity.
Qed.

(** What the statements before the loop leave: the force and the
    amplitude at the argument, under the clamp [cutoff / tau]. *)
Lemma l_enter_start h dev rs h1 v :
  l_enter quantum_force wf tau cutoff h (LStart dev rs) = Ok (h1, v) ->
  tau <> 0 /\ l_rs v = rs /\
  quantum_force (cutoff / tau) rs wf = Ok (l_forces v, l_psis v).
Proof.
  unfold l_enter, py_div.
  destruct (Req_dec_T tau 0) as [E0|Hne]; [discriminate|]. cbn [bind].
  destruct (quantum_force (cutoff / tau) rs wf) as [[F psi]|e];
    [|discriminate].
  cbn. intros He. injection He as _ <-. auto.
Qed.

(** At the top of every pass of the loop, in every state the generator
    reaches, the stored forces and amplitudes are those of the stored
    position. *)
Lemma langevin_invariant dev rs0 h0 h g :
  has_shape W E D rs0 ->
  l_reached quantum_force wf tau cutoff dev rs0 h0 h g ->
  forall s h1 v,
    g = Suspended s ->
    l_enter quantum_force wf tau cutoff h s = Ok (h1, v) ->
    tau <> 0 /\
    has_shape W E D (l_rs v) /\
    quantum_force (cutoff / tau) (l_rs v) wf = Ok (l_forces v, l_psis v).
Proof.
  intros Hrs0 Hreach.
  induction Hreach as [|h g d h' y g' Hreach IH Hnext]; intros s h1 v Hg He.
  - injection Hg as <-.
    destruct (l_enter_start _ _ _ _ _ He) as (Htau & Hv & Hq).
    rewrite Hv. auto.
  - apply gen_next_yield_inv in Hnext as (s0 & s1 & -> & -> & Hbody).
    injection Hg as <-.
    rewrite langevin_monte_carlo_enter in Hbody.
    destruct (l_enter quantum_force wf tau cutoff h s0) as [[h0' v0]|e] eqn:He0;
      [|discriminate].
    destruct (IH s0 h0' v0 eq_refl He0) as (Htau & Hrs & Hq).
    destruct (qforce_shape _ _ _ Hrs Hq) as [HF Hpsi].
    apply langevin_iter_inv in Hbody as (F' & psi' & Hq' & ->).
    cbn [l_enter] in He. injection He as _ <-.
    cbn [l_rs l_psis l_forces].
    pose proof (has_shape_langevin_proposal d _ _ Hrs HF) as Hnew.
    destruct (qforce_shape _ _ _ Hnew Hq') as [HF' Hpsi'].
    split; [exact Htau|]. split.
    + apply has_shape_assign_rows; assumption.
    + apply qforce_local; try assumption.
      rewrite length_vgt_rand_like.
      apply length_langevin_Ps_acc; assumption.
Qed.

(** C1.  In every iteration of the Langevin kernel, that is for every
    call of [next] on a generator in a state it reaches from its
    creation, the first call included (for [tau > 0] and a force
    provider that keeps shapes and treats walkers independently; on the
    first call the force evaluation before the loop has returned): the
    forces [F] and amplitudes at the top of the loop are those of the
    current position; the proposal is
    [rs + F * tau + noise * sqrt(tau)] coordinate by coordinate; the log
    correction of walker [w] is the sum over the electron and the
    spatial axis of [(F + F') * ((r - r') + tau / 2 * (F - F'))], with
    [F'] the forces at the proposal; for a walker whose current
    amplitude is not zero the acceptance probability is
    [exp(correction)] times [psi_new^2 / psi_old^2], and the walker is
    accepted iff its uniform draw is below that probability; and the
    call yields. *)
Theorem langevin_step dev rs0 h0 h s h1 v d forces_new psis_new :
  let rs := l_rs v in
  let F := l_forces v in
  let rs_new := langevin_proposal tau d rs F in
  let Ps_acc := langevin_Ps_acc tau rs rs_new F forces_new (l_psis v) psis_new in
  let accepted := vgt Ps_acc (rand_like (uniform d) Ps_acc) in
  has_shape W E D rs0 -> (0 < W)%nat -> 0 < tau ->
  l_reached quantum_force wf tau cutoff dev rs0 h0 h (Suspended s) ->
  l_enter quantum_force wf tau cutoff h s = Ok (h1, v) ->
  quantum_force (cutoff / tau) rs_new wf = Ok (forces_new, psis_new) ->
  quantum_force (cutoff / tau) rs wf = Ok (F, l_psis v) /\
  has_shape W E D rs_new /\
  (forall w e a, (w < W)%nat -> (e < E)%nat -> (a < D)%nat ->
     at3 rs_new w e a =
     at3 rs w e a + at3 F w e a * tau + normal d w e a * sqrt tau) /\
  (forall w, (w < W)%nat ->
     nth w (log_G_ratios tau rs rs_new F forces_new) 0 =
     sum_axes E D (fun e a =>
       mh_term tau (at3 rs w e a) (at3 rs_new w e a)
               (at3 F w e a) (at3 forces_new w e a))) /\
  (forall w, (w < W)%nat -> nth w (l_psis v) 0 <> 0 ->
     nth w Ps_acc NaN =
       Fin (exp (nth w (log_G_ratios tau rs rs_new F forces_new) 0) *
            ((nth w psis_new 0) ^ 2 / (nth w (l_psis v) 0) ^ 2)) /\
     (nth w accepted false = true <->
      uniform d w <
        exp (nth w (log_G_ratios tau rs rs_new F forces_new) 0) *
        ((nth w psis_new 0) ^ 2 / (nth w (l_psis v) 0) ^ 2))) /\
  length accepted = W /\
  exists h' info,
    gen_next (langevin_monte_carlo quantum_force wf tau cutoff d) h
             (Suspended s) =
    (h', Yield (assign_rows accepted rs rs_new,
                assign_rows accepted (l_psis v) psis_new, info)
               (Suspended
                  (LYielded (mkLVars (assign_rows accepted rs rs_new)
                               (assign_rows accepted (l_psis v) psis_new)
                               (assign_rows accepted F forces_new)
                               (l_lifetime v))))).
Proof.
  intros rs F rs_new Ps_acc accepted Hrs0 HW Htau Hreach Henter Hq'.
  destruct (langevin_invariant dev rs0 h0 h _ Hrs0 Hreach s h1 v eq_refl Henter)
    as (_ & Hrs & Hq).
  fold rs in Hrs, Hq. fold F in Hq.
  destruct (qforce_shape _ _ _ Hrs Hq) as [HF Hpsi].
  pose proof (has_shape_langevin_proposal d _ _ Hrs HF) as Hnew.
  fold rs_new in Hnew.
  destruct (qforce_shape _ _ _ Hnew Hq') as [HF' Hpsi'].
  assert (HlenP : length Ps_acc = W)
    by (apply length_langevin_Ps_acc; assumption).
  assert (Hsub : has_shape W E D (tsub rs rs_new))
    by (apply has_shape_tmap2; assumption).
  assert (HsubF : has_shape W E D (tsub F forces_new))
    by (apply has_shape_tmap2; assumption).
  assert (Hadd : has_shape W E D (tadd F forces_new))
    by (apply has_shape_tmap2; assumption).
  assert (Hsc : has_shape W E D (tscale_l (tau / 2) (tsub F forces_new)))
    by (apply has_shape_tmap; assumption).
  assert (Hrhs : has_shape W E D
            (tadd (tsub rs rs_new) (tscale_l (tau / 2) (tsub F forces_new))))
    by (apply has_shape_tmap2; assumption).
  assert (Hlog : forall w, (w < W)%nat ->
     nth w (log_G_ratios tau rs rs_new F forces_new) 0 =
     sum_axes E D (fun e a =>
       mh_term tau (at3 rs w e a) (at3 rs_new w e a)
               (at3 F w e a) (at3 forces_new w e a))).
  { intros w Hw. unfold log_G_ratios.
    rewrite (nth_tsum_inner W E D) by (try apply has_shape_tmap2; assumption).
    unfold sum_axes. apply big_sum_ext; intros e He.
    apply big_sum_ext; intros a Ha. unfold mh_term, tmul, tadd, tsub, tscale_l.
    rewrite (at3_tmap2 W E D) by assumption.
    rewrite (at3_tmap2 W E D _ F forces_new) by assumption.
    rewrite (at3_tmap2 W E D _ (tmap2 Rminus rs rs_new)) by assumption.
    rewrite (at3_tmap2 W E D _ rs rs_new) by assumption.
    rewrite (at3_tmap W E D) by assumption.
    rewrite (at3_tmap2 W E D _ F forces_new) by assumption.
    reflexivity. }
  split; [exact Hq|]. split; [exact Hnew|].
  split; [|split; [exact Hlog|split; [|split]]].
  - intros w e a Hw He Ha. unfold rs_new, langevin_proposal, tadd, tscale_r.
    assert (H1 : has_shape W E D (tmap (fun v0 => v0 * tau) F))
      by (apply has_shape_tmap; assumption).
    assert (H2 : has_shape W E D (randn_like (normal d) rs))
      by (apply has_shape_randn_like; assumption).
    rewrite (at3_tmap2 W E D)
      by (try apply has_shape_tmap2; try apply has_shape_tmap; assumption).
    rewrite (at3_tmap2 W E D _ rs) by assumption.
    rewrite !(at3_tmap W E D) by assumption.
    rewrite (at3_randn_like W E D) by assumption.
    reflexivity.
  - intros w Hw Hnz.
    assert (HP : nth w Ps_acc NaN =
              Fin (exp (nth w (log_G_ratios tau rs rs_new F forces_new) 0) *
                   ((nth w psis_new 0) ^ 2 / (nth w (l_psis v) 0) ^ 2))).
    { unfold Ps_acc, langevin_Ps_acc.
      assert (HlenG : length (log_G_ratios tau rs rs_new F forces_new) = W).
      { unfold log_G_ratios. rewrite length_tsum_inner.
        assert (Hm : has_shape W E D
                  (tmul (tadd F forces_new)
                     (tadd (tsub rs rs_new)
                        (tscale_l (tau / 2) (tsub F forces_new)))))
          by (apply has_shape_tmap2; assumption).
        destruct Hm as [-> _]. reflexivity. }
      rewrite nth_vdiv; autorewrite with tensor_len;
        rewrite ?HlenG, ?Hpsi, ?Hpsi', ?Nat.min_id; try lia.
      rewrite nth_vmul; autorewrite with tensor_len;
        rewrite ?HlenG, ?Hpsi'; try lia.
      rewrite nth_vexp by (rewrite HlenG; lia).
      rewrite !nth_vpow2 by lia.
      rewrite xdiv_fin by (apply pow_nonzero, Hnz).
      f_equal. unfold Rdiv. apply Rmult_assoc. }
    split; [exact HP|]. unfold accepted.
    rewrite nth_vgt_rand_like, HP by lia. apply Rgtb_true.
  - unfold accepted. autorewrite with tensor_len. exact HlenP.
  - cbn [gen_next]. rewrite langevin_monte_carlo_enter, Henter.
    unfold langevin_iter. fold rs. fold F. fold rs_new. rewrite Hq'.
    fold Ps_acc. fold accepted.
    rewrite acceptance_rate_ok by (eapply has_shape_nonempty; eauto).
    destruct (cpu _ (l_lifetime v)) as [h' t]. cbn [assign_where3].
    eexists. eexists. reflexivity.
Qed.

End LangevinProps.

Lemma qforce_free_shape W E D c x F psi :
  has_shape W E D x ->
  qforce_free c x wf_decay = Ok (F, psi) ->
  has_shape W E D F /\ length psi = W.
Proof.
  intros Hx H. unfold qforce_free in H. injection H as <- <-. split.
  - apply has_shape_tmap, Hx.
  - unfold wf_decay. rewrite length_map. apply Hx.
Qed.

Lemma qforce_free_local c (x y Fx : batch) (psix : vec) (Fy : batch)
  (psiy : vec) (m : mask) :
  qforce_free c x wf_decay = Ok (Fx, psix) ->
  qforce_free c y wf_decay = Ok (Fy, psiy) ->
  qforce_free c (assign_rows m x y) wf_decay =
    Ok (assign_rows m Fx Fy, assign_rows m psix psiy).
Proof.
  unfold qforce_free. intros Hx Hy.
  injection Hx as <- <-. injection Hy as <- <-.
  unfold tmap, wf_decay. rewrite !map_assign_rows. reflexivity.
Qed.

Lemma langevin_step_witness :
  (exists h' y g,
     gen_next (langevin_monte_carlo qforce_free wf_decay 1 1
                 (draws_const 1 (1 / 2)))
              [] (Suspended (LStart CPU origin1)) = (h', Yield y g)) /\
  (nth 0 (langevin_accepted 1 (draws_const 1 (1 / 2)) l_vars_origin
            (tmap (fun _ => 0)
               (langevin_proposal 1 (draws_const 1 (1 / 2)) origin1
                  (tmap (fun _ => 0) origin1)))
            (wf_decay
               (langevin_proposal 1 (draws_const 1 (1 / 2)) origin1
                  (tmap (fun _ => 0) origin1)))) false = true <->
   1 / 2 <
   exp (nth 0 (log_G_ratios 1 origin1
                 (langevin_proposal 1 (draws_const 1 (1 / 2)) origin1
                    (tmap (fun _ => 0) origin1))
                 (tmap (fun _ => 0) origin1)
                 (tmap (fun _ => 0)
                    (langevin_proposal 1 (draws_const 1 (1 / 2)) origin1
                       (tmap (fun _ => 0) origin1)))) 0) *
   ((nth 0 (wf_decay
              (langevin_proposal 1 (draws_const 1 (1 / 2)) origin1
                 (tmap (fun _ => 0) origin1))) 0) ^ 2 /
    (nth 0 (wf_decay origin1) 0) ^ 2)).
Proof.
  destruct (langevin_step qforce_free wf_decay 1 1 1 1 3
              (fun x F psi => qforce_free_shape 1 1 3 (1 / 1) x F psi)
              (fun x y Fx psix Fy psiy m _ _ _ =>
                 qforce_free_local (1 / 1) x y Fx psix Fy psiy m)
              CPU origin1 [] [] (LStart CPU origin1) [[0%Z]] l_vars_origin
              (draws_const 1 (1 / 2))
              (tmap (fun _ => 0)
                 (langevin_proposal 1 (draws_const 1 (1 / 2)) origin1
                    (tmap (fun _ => 0) origin1)))
              (wf_decay
                 (langevin_proposal 1 (draws_const 1 (1 / 2)) origin1
                    (tmap (fun _ => 0) origin1))))
    as (_ & _ & _ & _ & HP & _ & h' & info & H).
  - apply has_shapeb_true. reflexivity.
  - apply Nat.lt_0_1.
  - lra.
  - apply l_reached_created.
  - unfold l_enter. rewrite py_div_ok by lra. reflexivity.
  - reflexivity.
  - split; [eexists; eexists; eexists; exact H|].
    apply (HP 0%nat); [lia | amplitude_nonzero].
Defined.

(** ** Factorisation failures *)

Lemma index_rows_ok (X : Type) (x : list X) (ix : list nat) :
  Forall (fun j => (j < length x)%nat) ix ->
  exists rows,
    index_rows x ix = Ok rows /\
    length rows = length ix /\
    forall k j, nth_error ix k = Some j -> nth_error rows k = nth_error x j.
Proof.
  induction 1 as [|j ix Hj _ IH].
  - exists []. repeat split. intros [|k] j H; discriminate.
  - destruct IH as (rows & Hrows & Hlen & Hnth). simpl.
    destruct (nth_error x j) as [r|] eqn:Hr.
    2:{ apply nth_error_None in Hr. lia. }
    rewrite Hrows. simpl. exists (r :: rows). repeat split.
    + simpl. congruence.
    + intros [|k] j' H; simpl in *.
      * injection H as <-. symmetry. exact Hr.
      * apply Hnth. exact H.
Qed.

(** C7.  When the force evaluation at the proposal raises a
    [LUFactError] whose indices are walkers of the batch, the step
    raises that error with the same indices and, under ['rs'], the rows
    of the position as it was before the step, picked by those indices.
    The memory is as before the step, the generator is finished, and a
    finished generator stops: nothing is retried. *)
Theorem langevin_lufact
  (quantum_force : R -> batch -> (batch -> vec) -> result (batch * vec))
  (wf : batch -> vec) (tau cutoff : R) (d : draws) (h : heap) (v : l_vars)
  (i : LUFactInfo) :
  quantum_force (cutoff / tau)
    (langevin_proposal tau d (l_rs v) (l_forces v)) wf =
    Raise (LUFactError i) ->
  Forall (fun j => (j < length (l_rs v))%nat) (idxs i) ->
  exists rows,
    langevin_iter quantum_force wf tau cutoff d h v =
      (h, Throw (LUFactError (mkLUFactInfo (idxs i) (Some rows)))) /\
    length rows = length (idxs i) /\
    (forall k j, nth_error (idxs i) k = Some j ->
                 nth_error rows k = nth_error (l_rs v) j) /\
    gen_next (langevin_monte_carlo quantum_force wf tau cutoff d) h
             (Suspended (LYielded v)) =
      (h, Throw (LUFactError (mkLUFactInfo (idxs i) (Some rows)))) /\
    gen_after (langevin_monte_carlo quantum_force wf tau cutoff d) h
              (Suspended (LYielded v)) = Finished /\
    forall d' h',
      gen_next (langevin_monte_carlo quantum_force wf tau cutoff d') h'
               Finished = (h', StopIteration).
Proof.
  intros Hq Hix.
  destruct (index_rows_ok _ (l_rs v) (idxs i) Hix) as (rows & Hrows & Hlen & Hnth).
  exists rows.
  assert (Hiter : langevin_iter quantum_force wf tau cutoff d h v =
            (h, Throw (LUFactError (mkLUFactInfo (idxs i) (Some rows))))).
  { unfold langevin_iter. rewrite Hq. unfold attach_rs. rewrite Hrows.
    reflexivity. }
  split; [exact Hiter|]. split; [exact Hlen|]. split; [exact Hnth|].
  split; [|split].
  - unfold gen_next, langevin_monte_carlo. rewrite Hiter. reflexivity.
  - unfold gen_after, gen_next, langevin_monte_carlo. rewrite Hiter.
    reflexivity.
  - reflexivity.
Qed.

Lemma langevin_lufact_witness :
  exists rows,
    langevin_iter qforce_fails wf_decay 1 1 (draws_const 1 (1 / 2)) [[0%Z]]
      l_vars_origin =
    ([[0%Z]], Throw (LUFactError (mkLUFactInfo [0%nat] (Some rows)))) /\
    nth_error rows 0 = Some [[0; 0; 0]].
Proof.
  destruct (langevin_lufact qforce_fails wf_decay 1 1 (draws_const 1 (1 / 2))
              [[0%Z]] l_vars_origin (mkLUFactInfo [0%nat] None))
    as (rows & H & _ & Hnth & _).
  - reflexivity.
  - repeat constructor.
  - exists rows. split; [exact H|]. apply (Hnth 0%nat 0%nat). reflexivity.
Defined.

(** ** The lifetime counter *)


Ltac unfold_example :=
  cbv [langevin_proposal langevin_Ps_acc log_G_ratios origin1 draws_reject
       draws_accept draws_const normal uniform tadd tsub tmul tmap2 tmap
       tscale_r tscale_l randn_like rand_like mapi mapi_from zip_with map
       wf_decay vgt vdiv vmul vexp vpow2 tsum_inner rsum fold_right nth].

Lemma example_mask_reject :
  let rs_new := langevin_proposal 1 draws_reject origin1 (tmap (fun _ => 0) origin1) in
  let Ps_acc := langevin_Ps_acc 1 origin1 rs_new (tmap (fun _ => 0) origin1)
                  (tmap (fun _ => 0) rs_new) (wf_decay origin1) (wf_decay rs_new) in
  vgt Ps_acc (rand_like (uniform draws_reject) Ps_acc) = [false].
Proof.
  cbv zeta. unfold_example. rewrite sqrt_1.
  match goal with |- context [exp ?a] => replace a with 0 by ring end.
  rewrite exp_0.
  rewrite xdiv_fin
    by (match goal with |- ?q <> 0 => replace q with 1 by field end; lra).
  cbn [xgtb]. f_equal. apply Rgtb_false.
  match goal with |- ~ _ < ?p => replace p with (1 / 4) by field end.
  lra.
Qed.

Lemma example_mask_accept :
  let rs_new := langevin_proposal 1 draws_accept origin1 (tmap (fun _ => 0) origin1) in
  let Ps_acc := langevin_Ps_acc 1 origin1 rs_new (tmap (fun _ => 0) origin1)
                  (tmap (fun _ => 0) rs_new) (wf_decay origin1) (wf_decay rs_new) in
  vgt Ps_acc (rand_like (uniform draws_accept) Ps_acc) = [true].
Proof.
  cbv zeta. unfold_example. rewrite sqrt_1.
  match goal with |- context [exp ?a] => replace a with 0 by ring end.
  rewrite exp_0.
  rewrite xdiv_fin
    by (match goal with |- ?q <> 0 => replace q with 1 by field end; lra).
  cbn [xgtb]. f_equal. apply Rgtb_true.
  match goal with |- _ < ?p => replace p with 1 by field end.
  lra.
Qed.

Lemma langevin_iter_yield
  (quantum_force : R -> batch -> (batch -> vec) -> result (batch * vec))
  (wf : batch -> vec) (tau cutoff : R) (d : draws) (h : heap) (v : l_vars)
  (forces_new : batch) (psis_new : vec) :
  l_rs v <> [] ->
  quantum_force (cutoff / tau)
    (langevin_proposal tau d (l_rs v) (l_forces v)) wf =
    Ok (forces_new, psis_new) ->
  let rs_new := langevin_proposal tau d (l_rs v) (l_forces v) in
  let Ps_acc := langevin_Ps_acc tau (l_rs v) rs_new (l_forces v) forces_new
                  (l_psis v) psis_new in
  let accepted := vgt Ps_acc (rand_like (uniform d) Ps_acc) in
  let h1 := iadd_mask (setitem_mask h (l_lifetime v) accepted 0)
                      (l_lifetime v) (map negb accepted) 1 in
  langevin_iter quantum_force wf tau cutoff d h v =
  (fst (cpu h1 (l_lifetime v)),
   Yield (assign_rows accepted (l_rs v) rs_new,
          assign_rows accepted (l_psis v) psis_new,
          mkInfo (INR (count_true accepted) / INR (length (l_rs v)))
                 (Some (numpy (snd (cpu h1 (l_lifetime v))))))
         (LYielded (mkLVars (assign_rows accepted (l_rs v) rs_new)
                      (assign_rows accepted (l_psis v) psis_new)
                      (assign_rows accepted (l_forces v) forces_new)
                      (l_lifetime v)))).
Proof.
  intros Hne Hq. cbv zeta.
  unfold langevin_iter. rewrite Hq.
  rewrite acceptance_rate_ok by exact Hne.
  destruct (cpu _ (l_lifetime v)) as [h' t]. reflexivity.
Qed.

(** On the CPU the ['lifetime'] entry of the diagnostics is the buffer
    of the live counter; on another device it is a fresh buffer. *)
Lemma lifetime_info_buffer (h : heap) (t : long_tensor) :
  numpy (snd (cpu h t)) =
  match t_device t with
  | CPU => t_addr t
  | CUDA => length h
  end.
Proof. unfold cpu, numpy. destruct (t_device t); reflexivity. Qed.

Lemma load_store (h : heap) (l : nat) (v : list Z) :
  (l < length h)%nat -> load (store h l v) l = v.
Proof.
  unfold load. revert l; induction h as [|b h IH]; intros [|l] Hl;
    simpl in *; try lia; auto.
  apply IH; lia.
Qed.

Lemma length_store (h : heap) (l : nat) (v : list Z) :
  length (store h l v) = length h.
Proof.
  revert l; induction h as [|b h IH]; intros [|l]; simpl; auto.
Qed.

(** One step of the counter in the memory: zero where the walker is
    accepted, one more (in 64 bits) where it is rejected. *)
Lemma lifetime_counter_step (h : heap) (t : long_tensor) (accepted : mask) :
  (t_addr t < length h)%nat ->
  length accepted = length (load h (t_addr t)) ->
  load (iadd_mask (setitem_mask h t accepted 0) t (map negb accepted) 1)
       (t_addr t) =
  counter_step accepted (load h (t_addr t)).
Proof.
  intros Hl Hlen. unfold iadd_mask, setitem_mask, counter_step.
  rewrite load_store by (rewrite length_store; exact Hl).
  rewrite load_store by exact Hl.
  generalize dependent (load h (t_addr t)). intros c. clear.
  revert c; induction accepted as [|b m IH]; intros [|x c] Hlen;
    simpl in *; try discriminate; auto.
  rewrite IH by lia. destruct b; reflexivity.
Qed.

Lemma length_counter_after (W : nat) (masks : list mask) :
  Forall (fun m => length m = W) masks ->
  length (counter_after W masks) = W.
Proof.
  intros HF. unfold counter_after.
  assert (Hgen : forall c, length c = W ->
            length (fold_left (fun c m => counter_step m c) masks c) = W).
  { induction HF as [|m masks Hm _ IH]; intros c Hc; simpl; [exact Hc|].
    apply IH. unfold counter_step.
    rewrite length_zip_with, Hm, Hc. apply Nat.min_id. }
  apply Hgen, repeat_length.
Qed.

(** Started at zero, and for fewer than 2^63 steps, the counter of a
    walker is the number of its consecutive rejections since its last
    acceptance. *)
Lemma counter_counts_rejections (W : nat) (masks : list mask) (w : nat) :
  Forall (fun m => length m = W) masks ->
  (Z.of_nat (length masks) < 2 ^ 63)%Z ->
  (w < W)%nat ->
  nth w (counter_after W masks) 0%Z =
  Z.of_nat (trailing_rejections (rev (map (fun m => nth w m false) masks))).
Proof.
  intros HF Hlen Hw. revert HF Hlen.
  induction masks as [|m masks IH] using rev_ind; intros HF Hlen.
  - simpl. unfold counter_after. simpl.
    rewrite nth_repeat_lt by exact Hw. reflexivity.
  - apply Forall_app in HF as [HF Hm]. inversion Hm as [|? ? Hm' _]; subst.
    rewrite length_app in Hlen. simpl in Hlen.
    specialize (IH HF ltac:(lia)).
    replace (counter_after (length m) (masks ++ [m]))
      with (counter_step m (counter_after (length m) masks))
      by (unfold counter_after; rewrite fold_left_app; reflexivity).
    rewrite map_app, rev_app_distr. simpl.
    unfold counter_step.
    rewrite (nth_zip_with _ _ _ _ _ _ w false 0%Z 0%Z)
      by (rewrite ?(length_counter_after _ masks HF); lia).
    destruct (nth w m false); [reflexivity|].
    rewrite IH.
    assert (Hb : forall h, (trailing_rejections h <= length h)%nat).
    { induction h as [|[] h IHh]; simpl; lia. }
    specialize (Hb (rev (map (fun m0 => nth w m0 false) masks))).
    rewrite length_rev, length_map in Hb.
    unfold wrap64. rewrite Z.mod_small by lia. lia.
Qed.

Lemma example_step_reject (h : heap) (lt : long_tensor) :
  langevin_monte_carlo qforce_free wf_decay 1 1 draws_reject h
    (LYielded (l_vars_at lt)) =
  (fst (cpu (iadd_mask (setitem_mask h lt [false] 0) lt [true] 1) lt),
   Yield (origin1, wf_decay origin1,
          mkInfo (INR 0 / INR 1)
            (Some (numpy (snd (cpu (iadd_mask (setitem_mask h lt [false] 0)
                                      lt [true] 1) lt)))))
         (LYielded (l_vars_at lt))).
Proof.
  cbn [langevin_monte_carlo].
  rewrite (langevin_iter_yield qforce_free wf_decay 1 1 draws_reject h
             (l_vars_at lt)
             (tmap (fun _ => 0)
                (langevin_proposal 1 draws_reject origin1
                   (tmap (fun _ => 0) origin1)))
             (wf_decay
                (langevin_proposal 1 draws_reject origin1
                   (tmap (fun _ => 0) origin1))))
    by (discriminate || reflexivity).
  cbv zeta. cbn [l_rs l_psis l_forces l_lifetime l_vars_at].
  pose proof example_mask_reject as Hm. cbv zeta in Hm. rewrite Hm.
  reflexivity.
Qed.

Lemma example_start_reject (dev : device) :
  langevin_monte_carlo qforce_free wf_decay 1 1 draws_reject []
    (LStart dev origin1) =
  (fst (cpu (iadd_mask (setitem_mask [[0%Z]] (mkLong dev 0) [false] 0)
               (mkLong dev 0) [true] 1) (mkLong dev 0)),
   Yield (origin1, wf_decay origin1,
          mkInfo (INR 0 / INR 1)
            (Some (numpy (snd (cpu (iadd_mask
                                      (setitem_mask [[0%Z]] (mkLong dev 0)
                                         [false] 0)
                                      (mkLong dev 0) [true] 1)
                                   (mkLong dev 0))))))
         (LYielded (l_vars_at (mkLong dev 0)))).
Proof.
  cbn [langevin_monte_carlo]. rewrite py_div_ok by lra.
  exact (example_step_reject [[0%Z]] (mkLong dev 0)).
Qed.

Lemma example_step_accept (h : heap) (lt : long_tensor) :
  exists rs psis g,
    langevin_monte_carlo qforce_free wf_decay 1 1 draws_accept h
      (LYielded (l_vars_at lt)) =
    (fst (cpu (iadd_mask (setitem_mask h lt [true] 0) lt [false] 1) lt),
     Yield (rs, psis,
            mkInfo (INR 1 / INR 1)
              (Some (numpy (snd (cpu (iadd_mask (setitem_mask h lt [true] 0)
                                        lt [false] 1) lt)))))
           g).
Proof.
  cbn [langevin_monte_carlo].
  rewrite (langevin_iter_yield qforce_free wf_decay 1 1 draws_accept h
             (l_vars_at lt)
             (tmap (fun _ => 0)
                (langevin_proposal 1 draws_accept origin1
                   (tmap (fun _ => 0) origin1)))
             (wf_decay
                (langevin_proposal 1 draws_accept origin1
                   (tmap (fun _ => 0) origin1))))
    by (discriminate || reflexivity).
  cbv zeta. cbn [l_rs l_psis l_forces l_lifetime l_vars_at].
  pose proof example_mask_accept as Hm. cbv zeta in Hm. rewrite Hm.
  eexists. eexists. eexists. reflexivity.
Qed.

Lemma langevin_pull_step
  (quantum_force : R -> batch -> (batch -> vec) -> result (batch * vec))
  (wf : batch -> vec) (tau cutoff : R) (d : draws) (ds : list draws)
  (h h' : heap) (s s' : l_state) (y : sample) :
  langevin_monte_carlo quantum_force wf tau cutoff d h s = (h', Yield y s') ->
  langevin_pull quantum_force wf tau cutoff (d :: ds) h (Suspended s) =
  ((h', y) :: fst (langevin_pull quantum_force wf tau cutoff ds h' (Suspended s')),
   snd (langevin_pull quantum_force wf tau cutoff ds h' (Suspended s'))).
Proof.
  intros Hstep. cbn [langevin_pull gen_next]. rewrite Hstep.
  destruct (langevin_pull quantum_force wf tau cutoff ds h' (Suspended s'))
    as [ys h'']. reflexivity.
Qed.

Lemma lifetime_run_eq (dev : device) :
  exists y4 : sample,
    snd y4 = mkInfo (INR 1 / INR 1)
               (Some match dev with CPU => 0%nat | CUDA => 4%nat end) /\
    lifetime_run dev =
    match dev with
    | CPU =>
        ([([[1%Z]], (origin1, wf_decay origin1, mkInfo (INR 0 / INR 1) (Some 0%nat)));
          ([[2%Z]], (origin1, wf_decay origin1, mkInfo (INR 0 / INR 1) (Some 0%nat)));
          ([[3%Z]], (origin1, wf_decay origin1, mkInfo (INR 0 / INR 1) (Some 0%nat)));
          ([[0%Z]], y4)],
         [[0%Z]])
    | CUDA =>
        ([([[1]; [1]]%Z,
           (origin1, wf_decay origin1, mkInfo (INR 0 / INR 1) (Some 1%nat)));
          ([[2]; [1]; [2]]%Z,
           (origin1, wf_decay origin1, mkInfo (INR 0 / INR 1) (Some 2%nat)));
          ([[3]; [1]; [2]; [3]]%Z,
           (origin1, wf_decay origin1, mkInfo (INR 0 / INR 1) (Some 3%nat)));
          ([[0]; [1]; [2]; [3]; [0]]%Z, y4)],
         [[0]; [1]; [2]; [3]; [0]]%Z)
    end.
Proof.
  unfold lifetime_run. destruct dev.
  - destruct (example_step_accept [[3%Z]] (mkLong CPU 0)) as (rs & psis & g & E4).
    exists (rs, psis, mkInfo (INR 1 / INR 1) (Some 0%nat)).
    split; [reflexivity|].
    rewrite (langevin_pull_step qforce_free wf_decay 1 1 draws_reject _ _ _ _ _ _
               (example_start_reject CPU)).
    rewrite (langevin_pull_step qforce_free wf_decay 1 1 draws_reject _ _ _ _ _ _
               (example_step_reject [[1%Z]] (mkLong CPU 0))).
    rewrite (langevin_pull_step qforce_free wf_decay 1 1 draws_reject _ _ _ _ _ _
               (example_step_reject [[2%Z]] (mkLong CPU 0))).
    rewrite (langevin_pull_step qforce_free wf_decay 1 1 draws_accept _ _ _ _ _ _
               E4).
    reflexivity.
  - destruct (example_step_accept [[3]; [1]; [2]; [3]]%Z (mkLong CUDA 0))
      as (rs & psis & g & E4).
    exists (rs, psis, mkInfo (INR 1 / INR 1) (Some 4%nat)).
    split; [reflexivity|].
    rewrite (langevin_pull_step qforce_free wf_decay 1 1 draws_reject _ _ _ _ _ _
               (example_start_reject CUDA)).
    rewrite (langevin_pull_step qforce_free wf_decay 1 1 draws_reject _ _ _ _ _ _
               (example_step_reject [[1]; [1]]%Z (mkLong CUDA 0))).
    rewrite (langevin_pull_step qforce_free wf_decay 1 1 draws_reject _ _ _ _ _ _
               (example_step_reject [[2]; [1]; [2]]%Z (mkLong CUDA 0))).
    rewrite (langevin_pull_step qforce_free wf_decay 1 1 draws_accept _ _ _ _ _ _
               E4).
    reflexivity.
Qed.

(** C8 (the code at the failing input).  On the CPU, for a walker that
    is rejected on three consecutive steps and accepted on the fourth:
    the acceptance rates of the four steps are 0, 0, 0, 1; each
    diagnostics record, read right after its own [yield], shows the
    lifetime 1, 2, 3, 0; but the four records hold one array over the
    buffer of the live counter, so that once the fourth step has run
    all four read 0. *)
Theorem lifetime_diagnostics_on_cpu :
  map (fun hy => acceptance (snd (snd hy))) (fst (lifetime_run CPU)) =
    [INR 0 / INR 1; INR 0 / INR 1; INR 0 / INR 1; INR 1 / INR 1] /\
  map (fun hy => lifetime (snd (snd hy))) (fst (lifetime_run CPU)) =
    [Some 0%nat; Some 0%nat; Some 0%nat; Some 0%nat] /\
  lifetimes_at_yield (fst (lifetime_run CPU)) = [[1]; [2]; [3]; [0]]%Z /\
  lifetimes_in (snd (lifetime_run CPU)) (fst (lifetime_run CPU)) =
    [[0]; [0]; [0]; [0]]%Z.
Proof.
  destruct (lifetime_run_eq CPU) as ([[rs psis] info] & Hinfo & ->).
  simpl in Hinfo. subst info.
  repeat split.
Qed.

(** On another device [cpu()] copies the counter at every step, and the
    collected records keep the sequence 1, 2, 3, 0. *)
Lemma lifetime_diagnostics_on_cuda :
  lifetimes_at_yield (fst (lifetime_run CUDA)) = [[1]; [2]; [3]; [0]]%Z /\
  lifetimes_in (snd (lifetime_run CUDA)) (fst (lifetime_run CUDA)) =
    [[1]; [2]; [3]; [0]]%Z.
Proof.
  destruct (lifetime_run_eq CUDA) as ([[rs psis] info] & Hinfo & ->).
  simpl in Hinfo. subst info.
  repeat split.
Qed.

(** ** Drawing without replacement *)

Lemma remove_nth_perm (X : Type) (l : list X) k d :
  (k < length l)%nat -> Permutation l (nth k l d :: remove_nth k l).
Proof.
  revert k; induction l as [|x l IH]; intros [|k] Hk; simpl in *; try lia.
  - apply Permutation_refl.
  - eapply perm_trans; [apply perm_skip, (IH k); lia | apply perm_swap].
Qed.

Lemma length_remove_nth (X : Type) (l : list X) k :
  (k < length l)%nat -> length (remove_nth k l) = (length l - 1)%nat.
Proof.
  revert k; induction l as [|x l IH]; intros [|k] Hk; simpl in *; try lia.
  rewrite IH by lia. lia.
Qed.

Lemma draw_distinct_spec (X : Type) (size : nat) :
  forall (pool : list X) (g : rng),
  exists rest,
    Permutation pool (fst (draw_distinct size pool g) ++ rest) /\
    length (fst (draw_distinct size pool g)) = Nat.min size (length pool).
Proof.
  induction size as [|size IH]; intros pool g.
  - exists pool. split; [apply Permutation_refl | reflexivity].
  - destruct pool as [|x0 pool'] eqn:Epool.
    + exists []. split; [apply Permutation_refl | reflexivity].
    + rewrite <- Epool. assert (Hpos : (0 < length pool)%nat)
        by (rewrite Epool; simpl; lia).
      replace (draw_distinct (S size) pool g) with
        (let '(r, g1) := next_nat g in
         let k := (r mod length pool)%nat in
         let '(out, g2) := draw_distinct size (remove_nth k pool) g1 in
         (nth k pool x0 :: out, g2))
        by (rewrite Epool; reflexivity).
      destruct (next_nat g) as [r g1]. cbv zeta.
      assert (Hk : (r mod length pool < length pool)%nat)
        by (apply Nat.mod_upper_bound; lia).
      destruct (IH (remove_nth (r mod length pool) pool) g1)
        as (rest & Hperm & Hlen).
      destruct (draw_distinct size (remove_nth (r mod length pool) pool) g1)
        as [out g2]. cbn [fst] in *.
      exists rest. split.
      * eapply perm_trans; [apply (remove_nth_perm _ pool _ x0 Hk)|].
        apply perm_skip. exact Hperm.
      * cbn [length]. rewrite Hlen, length_remove_nth by exact Hk. lia.
Qed.

Lemma np_permutation_perm (X : Type) (a : list X) (g : rng) :
  Permutation a (fst (np_permutation a g)).
Proof.
  unfold np_permutation.
  destruct (draw_distinct_spec X (length a) a g) as (rest & Hperm & Hlen).
  rewrite Nat.min_id in Hlen.
  pose proof (Permutation_length Hperm) as HL. rewrite length_app in HL.
  assert (rest = []) by (destruct rest; [reflexivity | simpl in HL; lia]).
  subst rest. rewrite app_nil_r in Hperm. exact Hperm.
Qed.

(** The entries [np.random.choice] keeps are entries of the pool at
    distinct places. *)
Lemma np_choice_spec (X : Type) (a : list X) (size : nat) (g : rng) :
  exists rest,
    Permutation a (fst (np_choice a size g) ++ rest) /\
    length (fst (np_choice a size g)) = Nat.min size (length a).
Proof.
  unfold np_choice.
  pose proof (np_permutation_perm X a g) as Hp.
  destruct (np_permutation a g) as [p g']. cbn [fst] in *.
  exists (skipn size p). split.
  - rewrite firstn_skipn. exact Hp.
  - rewrite length_firstn, (Permutation_length Hp). reflexivity.
Qed.

Lemma np_choice_all (X : Type) (a : list X) (g : rng) :
  Permutation a (fst (np_choice a (length a) g)).
Proof.
  unfold np_choice.
  pose proof (np_permutation_perm X a g) as Hp.
  destruct (np_permutation a g) as [p g']. cbn [fst] in *.
  rewrite (Permutation_length Hp), firstn_all. exact Hp.
Qed.

(** ** take *)

Lemma take_loop_spec (a : list nat) :
  a <> [] ->
  forall fuel n l g, (n <= fuel)%nat ->
  exists l' n' g' q,
    take_loop fuel a n l g = Some (l', n', g') /\
    n = (q * length a + n')%nat /\
    (n' <= length a)%nat /\
    ((0 < n)%nat -> (0 < n')%nat) /\
    Permutation (concat l') (concat l ++ concat (repeat a q)).
Proof.
  intros Ha.
  assert (Hlen : (0 < length a)%nat) by (destruct a; [congruence | simpl; lia]).
  induction fuel as [|fuel IH]; intros n l g Hn.
  - assert (n = 0)%nat by lia. subst n. simpl.
    destruct (Nat.ltb_spec (length a) 0); [lia|].
    exists l, 0%nat, g, 0%nat. simpl. rewrite app_nil_r.
    repeat split; try lia. apply Permutation_refl.
  - simpl. destruct (Nat.ltb_spec (length a) n) as [Hlt|Hge].
    + pose proof (np_choice_all _ a g) as Hc.
      destruct (np_choice a (length a) g) as [c g1]. simpl in Hc.
      destruct (IH (n - length a)%nat (l ++ [c]) g1 ltac:(lia))
        as (l' & n' & g' & q & Hloop & Hq & Hn' & Hpos & Hperm).
      exists l', n', g', (S q). split; [exact Hloop|].
      split; [simpl; lia|]. split; [exact Hn'|]. split; [intros; apply Hpos; lia|].
      eapply perm_trans; [exact Hperm|].
      rewrite concat_app. simpl. rewrite app_nil_r, <- app_assoc.
      apply Permutation_app_head, Permutation_app_tail, Permutation_sym, Hc.
    + exists l, n, g, 0%nat. simpl. rewrite app_nil_r.
      repeat split; try lia. apply Permutation_refl.
Qed.

Lemma take_spec (a : list nat) (n : nat) (g : rng) :
  a <> [] ->
  exists p g',
    take a n g = Some (p, g') /\
    drawn_in_passes a n p /\
    length p = n /\
    forall x, In x p -> In x a.
Proof.
  intros Ha.
  destruct (take_loop_spec a Ha n n [] g (le_n n))
    as (l & n' & g1 & q & Hloop & Hq & Hn' & Hpos & Hperm).
  unfold take. rewrite Hloop.
  destruct (np_choice_spec nat a n' g1) as (rest & Hsub & Hlen).
  destruct (np_choice a n' g1) as [c g2] eqn:Hc. simpl in Hsub, Hlen.
  pose proof (np_permutation_perm _ (concat (l ++ [c])) g2) as Hp.
  destruct (np_permutation (concat (l ++ [c])) g2) as [p g3]. simpl in Hp.
  exists p, g3. split; [reflexivity|].
  assert (Hpp : Permutation p (concat (repeat a q) ++ c)).
  { eapply perm_trans; [apply Permutation_sym, Hp|].
    rewrite concat_app. simpl. rewrite app_nil_r.
    apply Permutation_app_tail. simpl in Hperm. exact Hperm. }
  assert (Hlc : length c = n') by (rewrite Hlen; lia).
  split; [|split].
  - exists q, n', c, rest. repeat split; auto.
  - rewrite (Permutation_length Hpp), length_app, Hlc.
    assert (Hrep : forall k, length (concat (repeat a k)) = (k * length a)%nat).
    { induction k; simpl; [reflexivity|]. rewrite length_app, IHk. reflexivity. }
    rewrite Hrep. lia.
  - intros x Hx. apply (Permutation_in _ Hpp) in Hx.
    apply in_app_or in Hx as [Hx|Hx].
    + apply in_concat in Hx as (b & Hb & Hxb).
      apply repeat_spec in Hb. subst b. exact Hxb.
    + apply (Permutation_in _ (Permutation_sym Hsub)). apply in_or_app. auto.
Qed.

Lemma take_each_spec (a : list nat) (n : nat) :
  a <> [] ->
  forall W g,
  exists ind g',
    take_each W a n g = Some (ind, g') /\
    length ind = W /\
    Forall (fun p => drawn_in_passes a n p /\ length p = n /\
                     forall x, In x p -> In x a) ind.
Proof.
  intros Ha. induction W as [|W IH]; intros g.
  - exists [], g. repeat split. constructor.
  - destruct (take_spec a n g Ha) as (p & g1 & Htake & Hp).
    destruct (IH g1) as (ind & g2 & Heach & Hlen & Hall).
    exists (p :: ind), g2. simpl. rewrite Htake, Heach.
    repeat split; [simpl; congruence|]. constructor; assumption.
Qed.

(** ** The pool of atom indices *)

Ltac bool_cases :=
  repeat match goal with
    | |- context [(?a <=? ?b)%nat] => destruct (Nat.leb_spec a b)
    | |- context [(?a <? ?b)%nat] => destruct (Nat.ltb_spec a b)
    end;
  cbn [andb]; try lia.

Lemma np_repeat_seq_count (cs : list nat) :
  forall start j,
  count_occ Nat.eq_dec (np_repeat (seq start (length cs)) cs) j =
  if ((start <=? j) && (j <? start + length cs))%nat
  then nth (j - start) cs 0%nat else 0%nat.
Proof.
  unfold np_repeat.
  induction cs as [|c cs IH]; intros start j.
  - cbn [length seq zip_with concat count_occ].
    bool_cases; destruct (j - start)%nat; reflexivity.
  - cbn [length seq zip_with concat]. rewrite count_occ_app, IH.
    destruct (Nat.eq_dec start j) as [->|Hne].
    + rewrite count_occ_repeat_eq by reflexivity.
      rewrite Nat.sub_diag. cbn [nth]. bool_cases.
    + rewrite count_occ_repeat_neq by congruence.
      bool_cases;
        replace (j - start)%nat with (S (j - S start)) by lia; reflexivity.
Qed.


Lemma np_repeat_seq_length (cs : list nat) :
  forall start, length (np_repeat (seq start (length cs)) cs) = list_sum cs.
Proof.
  unfold np_repeat. induction cs as [|c cs IH]; intros start; simpl.
  - reflexivity.
  - rewrite length_app, repeat_length, IH. reflexivity.
Qed.

(** ** Gathering and reshaping *)

Lemma index_rows_map (X : Type) (x : list X) (ix : list nat) d :
  Forall (fun j => (j < length x)%nat) ix ->
  index_rows x ix = Ok (map (fun j => nth j x d) ix).
Proof.
  induction 1 as [|j ix Hj _ IH]; simpl; [reflexivity|].
  rewrite (nth_error_nth' x d Hj), IH. reflexivity.
Qed.

Lemma gather_map (X : Type) (x : list X) (ind : list (list nat)) d :
  Forall (Forall (fun j => (j < length x)%nat)) ind ->
  gather x ind = Ok (map (map (fun j => nth j x d)) ind).
Proof.
  induction 1 as [|row ind Hrow _ IH]; simpl; [reflexivity|].
  rewrite (index_rows_map X x row d Hrow), IH. reflexivity.
Qed.


Lemma length_concat_rows (X : Type) (k : nat) (l : list (list X)) :
  (forall r, In r l -> length r = k) ->
  length (concat l) = (length l * k)%nat.
Proof.
  induction l as [|r l IH]; intros Hl; simpl; [reflexivity|].
  rewrite length_app, IH by (intros; apply Hl; right; assumption).
  rewrite (Hl r) by (left; reflexivity). reflexivity.
Qed.





(** ** The geometry-based initialiser *)



(** ** The mean-field initialiser *)

Lemma round_half_even_near (x : R) (z : Z) :
  IZR z - 1 / 2 < x < IZR z + 1 / 2 -> round_half_even x = z.
Proof.
  intros [Hlo Hhi]. unfold round_half_even.
  destruct (base_Int_part x) as [Hf1 Hf2].
  set (f := Int_part x) in *.
  assert (Hfz : (f = z \/ f = z - 1)%Z).
  { assert (H1 : IZR f < IZR (z + 1)) by (rewrite plus_IZR; lra).
    assert (H2 : IZR (z - 2) < IZR f) by (rewrite minus_IZR; lra).
    apply lt_IZR in H1, H2. lia. }
  destruct Hfz as [->| ->].
  - destruct (Rlt_dec (x - IZR z) (1 / 2)); [reflexivity | lra].
  - rewrite minus_IZR in *.
    destruct (Rlt_dec (x - (IZR z - 1)) (1 / 2)); [lra|].
    destruct (Rlt_dec (1 / 2) (x - (IZR z - 1))); [lia | lra].
Qed.

Lemma rows_S (X : Type) (d k : nat) (flat : list X) :
  rows (S d) k flat = firstn k flat :: rows d k (skipn k flat).
Proof.
  unfold rows. cbn [seq map]. f_equal.
  rewrite <- seq_shift, map_map. apply map_ext. intros i.
  rewrite skipn_skipn. f_equal. f_equal. lia.
Qed.

Lemma rows_spec (X : Type) (k d : nat) :
  forall flat : list X,
  length flat = (d * k)%nat ->
  length (rows d k flat) = d /\
  (forall r, In r (rows d k flat) -> length r = k) /\
  concat (rows d k flat) = flat.
Proof.
  induction d as [|d IH]; intros flat Hlen.
  - simpl in Hlen. destruct flat; [|discriminate]. repeat split.
    intros r [].
  - rewrite rows_S.
    destruct (IH (skipn k flat)) as (H1 & H2 & H3).
    { rewrite length_skipn, Hlen. simpl. lia. }
    split; [simpl; congruence|]. split.
    + intros r [<-|Hr]; [|auto].
      rewrite length_firstn, Hlen. simpl. lia.
    + simpl. rewrite H3. apply firstn_skipn.
Qed.

Lemma length_interleave (X : Type) (input : list X) (reps : list Z) :
  length input = length reps ->
  Forall (fun c => (0 <= c)%Z) reps ->
  length (concat (zip_with (fun x c => repeat x (Z.to_nat c)) input reps)) =
  Z.to_nat (zsum reps).
Proof.
  revert reps; induction input as [|x input IH]; intros [|c reps] Hlen Hnn;
    simpl in *; try discriminate; [reflexivity|].
  inversion Hnn as [|? ? Hc Hrest]; subst.
  rewrite length_app, repeat_length, IH by (auto; lia).
  assert (0 <= zsum reps)%Z.
  { clear -Hrest. induction Hrest; simpl; lia. }
  lia.
Qed.

Lemma In_interleave (X : Type) (input : list X) (reps : list Z) x :
  In x (concat (zip_with (fun x c => repeat x (Z.to_nat c)) input reps)) ->
  In x input.
Proof.
  revert reps; induction input as [|y input IH]; intros [|c reps] Hx;
    simpl in *; try contradiction.
  apply in_app_or in Hx as [Hx|Hx].
  - apply repeat_spec in Hx. auto.
  - right. eapply IH, Hx.
Qed.

Lemma existsb_negative (reps : list Z) :
  existsb (fun c => (c <? 0)%Z) reps = false <->
  Forall (fun c => (0 <= c)%Z) reps.
Proof.
  induction reps as [|c reps IH]; simpl.
  - split; [constructor | reflexivity].
  - rewrite orb_false_iff, IH, Z.ltb_ge. split.
    + intros [? ?]; constructor; assumption.
    + intros H; inversion H; auto.
Qed.

Lemma length_concat_repeat_seq (n bs : nat) :
  length (concat (repeat (seq 0 n) bs)) = (bs * n)%nat.
Proof.
  induction bs as [|bs IH]; simpl; [reflexivity|].
  rewrite length_app, length_seq, IH. reflexivity.
Qed.

Lemma In_concat_repeat_seq (n bs x : nat) :
  In x (concat (repeat (seq 0 n) bs)) -> (x < n)%nat.
Proof.
  intros Hx. apply in_concat in Hx as (l & Hl & Hx).
  apply repeat_spec in Hl. subst l. apply in_seq in Hx. lia.
Qed.

Lemma length_mf_repeats (mf : MeanField) (bs : nat) (charge_std : R)
  (noise : nat -> nat -> R) :
  length (atom_charges mf) = natm mf ->
  length (pop_chg mf) = natm mf ->
  length (concat (mf_repeats mf bs charge_std noise)) = (bs * natm mf)%nat.
Proof.
  intros Hc Hp.
  rewrite (length_concat_rows _ (natm mf)).
  - unfold mf_repeats, mf_cs. rewrite !length_map, length_seq. reflexivity.
  - intros r Hr. unfold mf_repeats, mf_cs in Hr.
    apply in_map_iff in Hr as (row & <- & Hrow).
    apply in_map_iff in Hrow as (b & <- & _).
    rewrite length_map, !length_zip_with, length_map, length_seq, Hc, Hp.
    rewrite !Nat.min_id. reflexivity.
Qed.

(** What the reshape of [rand_from_mf] checks.  For a well-formed
    mean-field object with a non-negative electron count and noisy
    occupations whose sum is not zero for any walker: the rounded
    occupations are used as they are (nothing renormalises them);
    [rand_from_mf] returns a batch, of the shape [bs] x [n_electrons] x
    3, when no rounded occupation is negative and all of them together,
    over all rows, sum to [bs * n_electrons], and the electrons are
    then dealt to the rows in the flat order of the repeated atom
    indices, whatever the sums of the single rows are; when an
    occupation is negative or the grand total differs it raises
    [RuntimeError]. *)
Theorem rand_from_mf_grand_total (mf : MeanField) (bs : nat)
  (charge_std elec_std : R) (noise_c : nat -> nat -> R)
  (noise_e : nat -> nat -> nat -> R) :
  length (atom_charges mf) = natm mf ->
  length (pop_chg mf) = natm mf ->
  length (atom_coords mf) = natm mf ->
  (forall row, In row (atom_coords mf) -> length row = 3%nat) ->
  (0 <= mf_n_electrons mf)%Z ->
  Forall (fun row => rsum row <> 0) (mf_cs mf bs charge_std noise_c) ->
  let reps := concat (mf_repeats mf bs charge_std noise_c) in
  let flat :=
    concat (zip_with (fun x c => repeat x (Z.to_nat c))
              (concat (repeat (seq 0 (natm mf)) bs)) reps) in
  (Forall (fun c => (0 <= c)%Z) reps ->
   zsum reps = (Z.of_nat bs * mf_n_electrons mf)%Z ->
   exists idxs rs,
     rand_from_mf mf bs charge_std elec_std noise_c noise_e = Ok rs /\
     has_shape bs (Z.to_nat (mf_n_electrons mf)) 3 rs /\
     length idxs = bs /\
     concat idxs = flat /\
     forall w e k,
       (w < bs)%nat -> (e < Z.to_nat (mf_n_electrons mf))%nat -> (k < 3)%nat ->
       at3 rs w e k =
       nth k (nth (nth e (nth w idxs []) 0%nat) (atom_coords mf) []) 0 +
       elec_std * noise_e w e k) /\
  (~ Forall (fun c => (0 <= c)%Z) reps \/
   zsum reps <> (Z.of_nat bs * mf_n_electrons mf)%Z ->
   rand_from_mf mf bs charge_std elec_std noise_c noise_e = Raise RuntimeError).
Proof.
  intros Hc Hp Hco Hrow Hne _ reps flat.
  set (n_e := mf_n_electrons mf) in *.
  set (input := concat (repeat (seq 0 (natm mf)) bs)) in *.
  assert (Hlen : length input = length reps).
  { unfold input, reps. rewrite length_concat_repeat_seq.
    rewrite length_mf_repeats by assumption. reflexivity. }
  assert (Hri : forall (Hnn : Forall (fun c => (0 <= c)%Z) reps),
             repeat_interleave input reps = Ok flat).
  { intros Hnn. unfold repeat_interleave.
    rewrite Hlen, Nat.eqb_refl. cbn [negb].
    apply existsb_negative in Hnn. rewrite Hnn. reflexivity. }
  assert (Hview : view_2d flat bs n_e =
                  if (length flat =? bs * Z.to_nat n_e)%nat
                  then Ok (rows bs (Z.to_nat n_e) flat)
                  else Raise RuntimeError).
  { unfold view_2d.
    destruct (Z.ltb_spec n_e (-1)); [lia|].
    destruct (Z.eqb_spec n_e (-1)); [lia|]. reflexivity. }
  split.
  - intros Hnn Hsum.
    assert (Hfl : length flat = (bs * Z.to_nat n_e)%nat).
    { unfold flat. rewrite length_interleave by assumption.
      rewrite Hsum. lia. }
    destruct (rows_spec nat (Z.to_nat n_e) bs flat Hfl) as (Hr1 & Hr2 & Hr3).
    set (idxs := rows bs (Z.to_nat n_e) flat) in *.
    assert (Hidx : Forall (Forall (fun j => (j < length (atom_coords mf))%nat))
                     idxs).
    { rewrite Forall_forall. intros r Hr. rewrite Forall_forall. intros j Hj.
      rewrite Hco. apply (In_concat_repeat_seq (natm mf) bs).
      apply (In_interleave _ input reps). fold flat. rewrite <- Hr3.
      apply in_concat. exists r. split; assumption. }
    set (centers := map (map (fun j => nth j (atom_coords mf) [])) idxs).
    assert (Hcs : has_shape bs (Z.to_nat n_e) 3 centers).
    { split.
      - unfold centers. rewrite length_map. exact Hr1.
      - intros wk Hwk. apply in_map_iff in Hwk as (r & <- & Hr). split.
        + rewrite length_map. apply Hr2, Hr.
        + intros row Hin. apply in_map_iff in Hin as (j & <- & Hj).
          apply Hrow, nth_In. rewrite Forall_forall in Hidx.
          specialize (Hidx r Hr). rewrite Forall_forall in Hidx. auto. }
    exists idxs, (tadd centers (tscale_l elec_std (randn_like noise_e centers))).
    split.
    { unfold rand_from_mf. fold n_e. fold reps. fold input.
      rewrite (Hri Hnn). cbn [bind]. rewrite Hview, Hfl, Nat.eqb_refl.
      cbn [bind]. fold idxs. rewrite (gather_map _ _ _ [] Hidx).
      reflexivity. }
    split.
    { apply has_shape_tmap2; [exact Hcs|].
      apply has_shape_tmap, has_shape_randn_like, Hcs. }
    split; [exact Hr1|]. split; [exact Hr3|].
    intros w e k Hw He Hk. unfold tadd, tscale_l.
    rewrite (at3_tmap2 bs (Z.to_nat n_e) 3)
      by (auto using has_shape_tmap, has_shape_randn_like).
    rewrite (at3_tmap bs (Z.to_nat n_e) 3)
      by (auto using has_shape_randn_like).
    rewrite (at3_randn_like bs (Z.to_nat n_e) 3) by assumption.
    f_equal. unfold at3, centers.
    rewrite (nth_map_in _ _ _ idxs w [] []) by lia.
    rewrite (nth_map_in _ _ _ _ e 0%nat [])
      by (rewrite (Hr2 (nth w idxs [])) by (apply nth_In; lia); exact He).
    reflexivity.
  - intros Hbad. unfold rand_from_mf. fold n_e. fold reps. fold input.
    destruct (existsb (fun c => (c <? 0)%Z) reps) eqn:Hex.
    + unfold repeat_interleave. rewrite Hlen, Nat.eqb_refl, Hex. reflexivity.
    + apply existsb_negative in Hex. rewrite (Hri Hex). cbn [bind].
      rewrite Hview.
      destruct (Nat.eqb_spec (length flat) (bs * Z.to_nat n_e)) as [E|_];
        [|reflexivity].
      exfalso. destruct Hbad as [Hbad|Hbad]; [exact (Hbad Hex)|].
      apply Hbad. unfold flat in E.
      rewrite length_interleave in E by assumption.
      assert (0 <= zsum reps)%Z.
      { clear -Hex. induction Hex; simpl; lia. }
      lia.
Qed.

Lemma mf_three_repeats :
  mf_repeats mf_three 2 (1 / 4) noise_three = [[1; 1; 2]; [0; 0; 2]]%Z.
Proof.
  unfold mf_repeats, mf_cs.
  cbv [mf_three natm atom_charges pop_chg mf_n_electrons mol_charge zsum
       fold_right seq map zip_with noise_three rsum].
  change (1 + (1 + (1 + 0)) - 0)%Z with 3%Z.
  repeat f_equal; apply round_half_even_near;
    match goal with
    | |- _ < ?x < _ =>
        first [ replace x with (3 / 5) by field
              | replace x with (9 / 5) by field
              | replace x with (2 / 5) by field
              | replace x with (11 / 5) by field ]
    end; lra.
Qed.

(** C10.  The code does not keep the occupations of the walkers apart.
    With three electrons and two walkers whose rounded occupations
    [[1; 1; 2]] and [[0; 0; 2]] sum to 4 and to 2, the reshape does not
    fail: it sees the flat list of all atom indices, whose length is 6,
    and a batch of the shape 2 x 3 x 3 is returned.  In it the first
    walker has one electron at each atom and the second has three
    electrons at the third atom: one electron of the first walker's
    occupations has gone to the second walker. *)
Lemma rand_from_mf_row_sums_unchecked :
  mf_n_electrons mf_three = 3%Z /\
  map zsum (mf_repeats mf_three 2 (1 / 4) noise_three) = [4; 2]%Z /\
  exists rs,
    rand_from_mf mf_three 2 (1 / 4) 1 noise_three (fun _ _ _ => 0) = Ok rs /\
    has_shape 2 3 3 rs /\
    map (map (fun row => nth 1 row 0)) rs =
      [[1 + 1 * 0; -1 + 1 * 0; 0 + 1 * 0]; [0 + 1 * 0; 0 + 1 * 0; 0 + 1 * 0]].
Proof.
  split; [reflexivity|]. split; [rewrite mf_three_repeats; reflexivity|].
  unfold rand_from_mf. rewrite mf_three_repeats.
  eexists. split; [reflexivity|]. split.
  - apply has_shapeb_true. reflexivity.
  - reflexivity.
Qed.

Lemma rand_from_mf_grand_total_witness :
  exists rs,
    rand_from_mf mf_three 2 (1 / 4) 1 noise_three (fun _ _ _ => 0) = Ok rs /\
    has_shape 2 3 3 rs.
Proof.
  destruct (rand_from_mf_grand_total mf_three 2 (1 / 4) 1 noise_three
              (fun _ _ _ => 0)) as [H _].
  - reflexivity.
  - reflexivity.
  - reflexivity.
  - intros row [<-|[<-|[<-|[]]]]; reflexivity.
  - unfold mf_n_electrons. simpl. lia.
  - cbv [mf_cs mf_three natm atom_charges pop_chg seq map zip_with
         noise_three rsum fold_right].
    repeat constructor; lra.
  - destruct H as (idxs & rs & Hrs & Hshape & _).
    + rewrite mf_three_repeats. simpl. repeat constructor; lia.
    + rewrite mf_three_repeats. reflexivity.
    + exists rs. split; assumption.
Defined.

(* ================================================================== *)
(** * Part III: further properties of the code *)
(* ================================================================== *)

(** ** samples_from: edges *)

Lemma retained_all_burned (P A I G : Type)
  (next : G -> resumption (step P A I) G) (n_discard n_decorrelate : Z)
  (steps : list Z) :
  Forall (fun i => (i < n_discard)%Z) steps ->
  forall g ps, pulled next steps g = Ok ps ->
  retained next n_discard n_decorrelate steps g = Ok [].
Proof.
  induction 1 as [|i steps Hi _ IH]; intros g ps Hp; simpl in *.
  - reflexivity.
  - destruct (next g) as [s g'| |]; try discriminate; [|reflexivity].
    destruct (pulled next steps g') as [rest|] eqn:Hrest; try discriminate.
    unfold keep. destruct (Z.ltb_spec i n_discard); [|lia].
    cbn [bind]. rewrite (IH g' rest Hrest). reflexivity.
Qed.

(** X1.  When every index of the iterable lies below the burn-in count
    and the sampler does not raise, the assembler raises [ValueError],
    whatever the stride is: the modulus is never computed, so not even
    a stride of -1 raises [ZeroDivisionError]. *)
Theorem samples_from_all_burned (P A I G : Type)
  (next : G -> resumption (step P A I) G) (g : G) (steps : list Z)
  (n_discard n_decorrelate : Z) (ps : list (Z * step P A I)) :
  Forall (fun i => (i < n_discard)%Z) steps ->
  pulled next steps g = Ok ps ->
  samples_from next g steps n_discard n_decorrelate = Raise ValueError.
Proof.
  intros Hall Hp. unfold samples_from.
  rewrite (retained_all_burned P A I G next n_discard n_decorrelate steps
             Hall g ps Hp).
  reflexivity.
Qed.

Lemma samples_from_all_burned_witness :
  samples_from index_stream 0%Z (range 0 4) 5 (-1) = Raise ValueError.
Proof.
  apply (samples_from_all_burned Z Z Z Z index_stream 0%Z (range 0 4) 5 (-1)
           (map (fun i => (i, ([i], [i], i))) (range 0 4))).
  - vm_compute. repeat constructor.
  - vm_compute. reflexivity.
Defined.

Lemma retained_zero_modulus (P A I G : Type)
  (next : G -> resumption (step P A I) G) (n_discard i : Z)
  (pre rest : list Z) :
  Forall (fun j => (j < n_discard)%Z) pre ->
  (n_discard <= i)%Z ->
  forall g ps,
    pulled next (pre ++ [i]) g = Ok ps ->
    length ps = S (length pre) ->
    retained next n_discard (-1) (pre ++ i :: rest) g = Raise ZeroDivisionError.
Proof.
  intros Hpre Hi.
  induction Hpre as [|j pre Hj _ IH]; intros g ps Hp Hlen; simpl in *.
  - destruct (next g) as [s g'| |]; try discriminate.
    + unfold keep. destruct (Z.ltb_spec i n_discard); [lia | reflexivity].
    + injection Hp as <-. discriminate.
  - destruct (next g) as [s g'| |]; try discriminate.
    + destruct (pulled next (pre ++ [i]) g') as [ps'|] eqn:Hp'; try discriminate.
      simpl in Hp. injection Hp as <-. simpl in Hlen.
      unfold keep at 1. destruct (Z.ltb_spec j n_discard); [|lia].
      cbn [bind]. rewrite (IH g' ps' Hp') by lia. reflexivity.
    + injection Hp as <-. discriminate.
Qed.

(** X2.  With a stride of -1 the modulus is zero: once the sampler has
    yielded for an index that passes the burn-in, after indices that do
    not, the assembler raises [ZeroDivisionError], whatever follows. *)
Theorem samples_from_stride_minus_one (P A I G : Type)
  (next : G -> resumption (step P A I) G) (n_discard i : Z)
  (pre rest : list Z) :
  Forall (fun j => (j < n_discard)%Z) pre ->
  (n_discard <= i)%Z ->
  forall g ps,
    pulled next (pre ++ [i]) g = Ok ps ->
    length ps = S (length pre) ->
    samples_from next g (pre ++ i :: rest) n_discard (-1) =
      Raise ZeroDivisionError.
Proof.
  intros Hpre Hi g ps Hp Hlen. unfold samples_from.
  rewrite (retained_zero_modulus P A I G next n_discard i pre rest Hpre Hi
             g ps Hp Hlen).
  reflexivity.
Qed.

Lemma samples_from_stride_minus_one_witness :
  samples_from index_stream 0%Z (range 0 20) 5 (-1) = Raise ZeroDivisionError.
Proof.
  apply (samples_from_stride_minus_one Z Z Z Z index_stream 5 5
           (range 0 5) (range 6 20)
           ltac:(vm_compute; repeat constructor) ltac:(lia) 0%Z
           (map (fun i => (i, ([i], [i], i))) (range 0 6))).
  - vm_compute. reflexivity.
  - reflexivity.
Defined.

(** X3.  An exception the sampler raises while it is pulled reaches the
    caller of the assembler unchanged (for a stride other than -1): no
    partial trajectory is returned. *)
Theorem samples_from_propagates (P A I G : Type)
  (next : G -> resumption (step P A I) G) (g : G) (steps : list Z)
  (n_discard n_decorrelate : Z) (e : exn) :
  (n_decorrelate + 1 <> 0)%Z ->
  pulled next steps g = Raise e ->
  samples_from next g steps n_discard n_decorrelate = Raise e.
Proof.
  intros Hnz Hp. unfold samples_from.
  rewrite (retained_raises P A I G next n_discard n_decorrelate steps Hnz g e Hp).
  reflexivity.
Qed.

Lemma samples_from_propagates_witness :
  samples_from failing_stream 0%Z (range 0 3) 0 0 =
  Raise (LUFactError (mkLUFactInfo [0%nat] None)).
Proof.
  apply (samples_from_propagates Z Z Z Z failing_stream 0%Z (range 0 3) 0 0).
  - lia.
  - vm_compute. reflexivity.
Defined.

Lemma pulled_prefix (P A I G : Type)
  (next : G -> resumption (step P A I) G) (steps : list Z) :
  forall g ps, pulled next steps g = Ok ps ->
  map fst ps = firstn (length ps) steps.
Proof.
  induction steps as [|i steps IH]; intros g ps Hp; simpl in *.
  - injection Hp as <-. reflexivity.
  - destruct (next g) as [s g'| |]; try discriminate.
    + destruct (pulled next steps g') as [rest|] eqn:Hrest; try discriminate.
      simpl in Hp. injection Hp as <-. simpl. f_equal. eapply IH, Hrest.
    + injection Hp as <-. reflexivity.
Qed.

(** X5.  With the default burn-in and stride (both 0) and indices that
    are not negative, every pulled step is retained, in order: the
    table has one row per pulled step and every walker's stacked row
    one entry per pulled step. *)
Theorem samples_from_defaults (P A I G : Type)
  (next : G -> resumption (step P A I) G) (g : G) (steps : list Z)
  (ps : list (Z * step P A I)) :
  Forall (fun i => (0 <= i)%Z) steps ->
  pulled next steps g = Ok ps ->
  retained next 0 0 steps g = Ok (map snd ps) /\
  forall rs psis df,
    samples_from next g steps 0 0 = Ok (rs, psis, df) ->
    length df = length ps /\
    Forall (fun row => length row = length ps) rs /\
    Forall (fun row => length row = length ps) psis.
Proof.
  intros Hnn Hp.
  assert (Hret : retained next 0 0 steps g = Ok (map snd ps)).
  { rewrite (retained_pulled P A I G next 0 0 steps ltac:(lia) g ps Hp).
    f_equal. f_equal. apply forallb_filter_id, forallb_forall.
    intros [i s] Hin. unfold is_retained. simpl.
    assert (Hi : In i steps).
    { pose proof (pulled_prefix P A I G next steps g ps Hp) as Hpre.
      assert (In i (map fst ps)) by (apply in_map_iff; exists (i, s); auto).
      rewrite Hpre in H. rewrite <- (firstn_skipn (length ps) steps).
      apply in_or_app. left. exact H. }
    rewrite Forall_forall in Hnn. specialize (Hnn i Hi).
    rewrite Z.mod_1_r. apply andb_true_iff. split; [apply Z.leb_le; lia|reflexivity]. }
  split; [exact Hret|].
  intros rs psis df. unfold samples_from. rewrite Hret. cbn [bind].
  destruct (map snd ps) as [|s0 kept'] eqn:Ek; [discriminate|].
  rewrite <- Ek.
  replace (unzip3 (map snd ps)) with
    (Ok (map (fun s => fst (fst s)) (map snd ps),
         map (fun s => snd (fst s)) (map snd ps),
         map (fun s : step P A I => snd s) (map snd ps)))
    by (rewrite Ek; reflexivity).
  cbn [bind].
  destruct (stack_dim1 (map (fun s => fst (fst s)) (map snd ps)))
    as [rs'|] eqn:Hrs; [|discriminate].
  cbn [bind].
  destruct (stack_dim1 (map (fun s => snd (fst s)) (map snd ps)))
    as [psis'|] eqn:Hps; [|discriminate].
  cbn [bind]. intros H. injection H as <- <- <-.
  apply stack_dim1_ok in Hrs, Hps. destruct Hrs as [_ Hrs], Hps as [_ Hps].
  split; [|split].
  - unfold pd_DataFrame. rewrite length_combine, length_seq, !length_map.
    apply Nat.min_id.
  - apply Forall_forall. intros row Hrow.
    apply In_nth_error in Hrow as [w Hw].
    destruct (Hrs w row Hw) as [Hl _]. rewrite Hl, !length_map. reflexivity.
  - apply Forall_forall. intros row Hrow.
    apply In_nth_error in Hrow as [w Hw].
    destruct (Hps w row Hw) as [Hl _]. rewrite Hl, !length_map. reflexivity.
Qed.

Lemma samples_from_defaults_witness :
  retained index_stream 0 0 (range 0 3) 0%Z =
  Ok [([0], [0], 0); ([1], [1], 1); ([2], [2], 2)]%Z.
Proof.
  destruct (samples_from_defaults Z Z Z Z index_stream 0%Z (range 0 3)
              (map (fun i => (i, ([i], [i], i))) (range 0 3)))
    as [H _].
  - vm_compute. repeat constructor; discriminate.
  - vm_compute. reflexivity.
  - exact H.
Defined.

(** ** The kernels: edges *)

(** X6.  On a batch without walkers every kernel raises
    [ZeroDivisionError] at the acceptance rate instead of yielding:
    Metropolis always, HMC and Langevin once their force evaluations
    have returned. *)
Theorem kernels_empty_batch
  (quantum_force : R -> batch -> (batch -> vec) -> result (batch * vec))
  (wf : batch -> vec) (d : draws) :
  (forall stepsize s,
     m_resume s = [] ->
     metropolis wf stepsize d s = Throw ZeroDivisionError) /\
  (forall dysteps stepsize tau cutoff s out,
     m_resume s = [] ->
     dynamics quantum_force wf d [] stepsize dysteps tau cutoff = Ok out ->
     hmc quantum_force wf dysteps stepsize tau cutoff d s =
       Throw ZeroDivisionError) /\
  (forall tau cutoff h v forces_new psis_new,
     l_rs v = [] ->
     quantum_force (cutoff / tau)
       (langevin_proposal tau d (l_rs v) (l_forces v)) wf =
       Ok (forces_new, psis_new) ->
     snd (langevin_iter quantum_force wf tau cutoff d h v) =
       Throw ZeroDivisionError).
Proof.
  split; [|split].
  - intros stepsize s Hs. unfold metropolis, metropolis_iter. rewrite Hs.
    reflexivity.
  - intros dysteps stepsize tau cutoff s [[rs_new v] v_0] Hs Hdyn.
    unfold hmc, hmc_iter. rewrite Hs, Hdyn. reflexivity.
  - intros tau cutoff h v forces_new psis_new Hrs Hq.
    unfold langevin_iter. rewrite Hq, Hrs. reflexivity.
Qed.

Lemma kernels_empty_batch_witness :
  metropolis wf_one 1 draws_reject (MStart []) = Throw ZeroDivisionError.
Proof.
  destruct (kernels_empty_batch qforce_free wf_one draws_reject) as [H _].
  apply H. reflexivity.
Defined.

(** X7.  With [tau = 0] the clamp [cutoff / tau] cannot be computed:
    the first [next] of a Langevin generator raises [ZeroDivisionError]
    without touching the memory and leaves the generator finished, and
    every HMC step raises it too. *)
Theorem zero_tau_raises
  (quantum_force : R -> batch -> (batch -> vec) -> result (batch * vec))
  (wf : batch -> vec) (cutoff : R) (d : draws) (h : heap) (dev : device)
  (rs : batch) (dysteps : Z) (stepsize : R) (s : m_state) :
  langevin_monte_carlo quantum_force wf 0 cutoff d h (LStart dev rs) =
    (h, Throw ZeroDivisionError) /\
  gen_after (langevin_monte_carlo quantum_force wf 0 cutoff d) h
            (Suspended (LStart dev rs)) = Finished /\
  hmc quantum_force wf dysteps stepsize 0 cutoff d s = Throw ZeroDivisionError.
Proof.
  split; [|split].
  - unfold langevin_monte_carlo. rewrite py_div_zero. reflexivity.
  - unfold gen_after, gen_next, langevin_monte_carlo. rewrite py_div_zero.
    reflexivity.
  - unfold hmc, hmc_iter, dynamics. rewrite py_div_zero. reflexivity.
Qed.

(** X8.  Only a failure of the force evaluation at a Langevin proposal
    is annotated.  When the force evaluation at the starting position
    raises, the first [next] of a Langevin generator raises the same
    exception with its payload as it was (no ['rs'] is attached) and
    leaves the memory untouched; an HMC step does the same. *)
Theorem start_failure_unannotated
  (quantum_force : R -> batch -> (batch -> vec) -> result (batch * vec))
  (wf : batch -> vec) (tau cutoff : R) (d : draws) (h : heap) (dev : device)
  (rs : batch) (e : exn) :
  tau <> 0 ->
  quantum_force (cutoff / tau) rs wf = Raise e ->
  langevin_monte_carlo quantum_force wf tau cutoff d h (LStart dev rs) =
    (h, Throw e) /\
  forall dysteps stepsize s,
    m_resume s = rs ->
    hmc quantum_force wf dysteps stepsize tau cutoff d s = Throw e.
Proof.
  intros Htau Hq. split.
  - unfold langevin_monte_carlo. rewrite (py_div_ok cutoff tau Htau), Hq.
    reflexivity.
  - intros dysteps stepsize s Hs. unfold hmc, hmc_iter, dynamics.
    rewrite Hs, (py_div_ok cutoff tau Htau). cbn [bind]. rewrite Hq.
    reflexivity.
Qed.

Lemma start_failure_unannotated_witness :
  langevin_monte_carlo qforce_fails wf_decay 1 1 draws_reject []
    (LStart CPU origin1) =
  ([], Throw (LUFactError (mkLUFactInfo [0%nat] None))).
Proof.
  destruct (start_failure_unannotated qforce_fails wf_decay 1 1 draws_reject
              [] CPU origin1 (LUFactError (mkLUFactInfo [0%nat] None)))
    as [H _].
  - lra.
  - reflexivity.
  - exact H.
Defined.

(** ** The Metropolis kernel: invariants *)

Lemma count_true_le (m : mask) : (count_true m <= length m)%nat.
Proof.
  unfold count_true. induction m as [|b m IH]; simpl; [lia|].
  destruct b; simpl; lia.
Qed.

Lemma acceptance_rate_bounds (accepted : mask) (rs : batch) (a : R) :
  acceptance_rate accepted rs = Ok a ->
  (length accepted <= length rs)%nat ->
  0 <= a <= 1.
Proof.
  unfold acceptance_rate. intros Ha Hlen.
  destruct (Nat.eqb_spec (length rs) 0) as [E|Hne]; [discriminate|].
  injection Ha as <-.
  assert (Hpos : 0 < INR (length rs)) by (apply lt_0_INR; lia).
  assert (Hc : INR (count_true accepted) <= INR (length rs)).
  { apply le_INR. pose proof (count_true_le accepted). lia. }
  pose proof (pos_INR (count_true accepted)) as H0.
  split.
  - apply Rmult_le_pos; [exact H0|]. apply Rlt_le, Rinv_0_lt_compat, Hpos.
  - apply (Rmult_le_reg_r (INR (length rs))); [exact Hpos|].
    unfold Rdiv. rewrite Rmult_assoc, Rinv_l by lra. lra.
Qed.

(** X9.  The acceptance rate a Metropolis or an HMC step reports lies
    between 0 and 1, when the wave function returns one amplitude per
    walker. *)
Theorem acceptance_rate_in_unit_interval
  (quantum_force : R -> batch -> (batch -> vec) -> result (batch * vec))
  (wf : batch -> vec) (d : draws) (s s' : m_state) (y : sample) :
  length (wf (m_resume s)) = length (m_resume s) ->
  (forall stepsize,
     metropolis wf stepsize d s = Yield y s' ->
     0 <= acceptance (snd y) <= 1) /\
  (forall dysteps stepsize tau cutoff,
     hmc quantum_force wf dysteps stepsize tau cutoff d s = Yield y s' ->
     0 <= acceptance (snd y) <= 1).
Proof.
  intros Hwf. split.
  - intros stepsize. unfold metropolis, metropolis_iter.
    destruct (acceptance_rate _ _) as [a|e] eqn:Ha; [|discriminate].
    intros H. injection H as <- _. simpl.
    apply (acceptance_rate_bounds _ _ _ Ha).
    unfold vgt. rewrite length_zip_with. autorewrite with tensor_len.
    rewrite Hwf. lia.
  - intros dysteps stepsize tau cutoff. unfold hmc, hmc_iter.
    destruct (dynamics _ _ _ _ _ _ _ _) as [[[rs_new v] v_0]|e]; [|discriminate].
    destruct (acceptance_rate _ _) as [a|e] eqn:Ha; [|discriminate].
    intros H. injection H as <- _. simpl.
    apply (acceptance_rate_bounds _ _ _ Ha).
    unfold vgt. rewrite length_zip_with. autorewrite with tensor_len.
    rewrite Hwf. lia.
Qed.

Lemma acceptance_rate_in_unit_interval_witness :
  exists y s',
    metropolis wf_decay 1 draws_reject (MStart origin1) = Yield y s' /\
    0 <= acceptance (snd y) <= 1.
Proof.
  assert (Hy : exists y s',
             metropolis wf_decay 1 draws_reject (MStart origin1) = Yield y s').
  { unfold metropolis, metropolis_iter.
    rewrite acceptance_rate_ok by discriminate. eexists. eexists. reflexivity. }
  destruct Hy as (y & s' & Hy). exists y, s'. split; [exact Hy|].
  destruct (acceptance_rate_in_unit_interval qforce_free wf_decay draws_reject
              (MStart origin1) s' y eq_refl) as [H _].
  apply (H 1 Hy).
Defined.

(** X10.  A Metropolis step accepts every walker whose amplitude at the
    proposal equals its amplitude at the current position (and is not
    zero), for a uniform draw below 1: its acceptance probability is
    exactly 1.  So a constant wave function accepts every proposal. *)
Theorem metropolis_equal_amplitudes (wf : batch -> vec) (stepsize : R)
  (d : draws) (s : m_state) (W : nat) (w : nat) :
  let rs := m_resume s in
  let rs_new := metropolis_proposal stepsize d rs in
  let Ps_acc := metropolis_Ps_acc wf rs rs_new in
  let accepted := vgt Ps_acc (rand_like (uniform d) Ps_acc) in
  length (wf rs) = W -> length (wf rs_new) = W -> (w < W)%nat ->
  nth w (wf rs_new) 0 = nth w (wf rs) 0 ->
  nth w (wf rs) 0 <> 0 ->
  uniform d w < 1 ->
  nth w Ps_acc NaN = Fin 1 /\ nth w accepted false = true.
Proof.
  intros rs rs_new Ps_acc accepted Hpsi Hpsi' Hw Heq Hnz Hu.
  assert (HP : nth w Ps_acc NaN = Fin 1).
  { unfold Ps_acc, metropolis_Ps_acc.
    rewrite nth_vdiv, !nth_vpow2; autorewrite with tensor_len; try lia.
    rewrite Heq, xdiv_fin by (apply pow_nonzero, Hnz).
    f_equal. field. exact Hnz. }
  split; [exact HP|].
  unfold accepted. rewrite nth_vgt_rand_like.
  - rewrite HP. apply Rgtb_true. exact Hu.
  - unfold Ps_acc, metropolis_Ps_acc. autorewrite with tensor_len.
    rewrite Hpsi, Hpsi'. lia.
Qed.

Lemma metropolis_equal_amplitudes_witness :
  nth 0 (vgt (metropolis_Ps_acc wf_one origin1
                (metropolis_proposal 1 draws_reject origin1))
             (rand_like (uniform draws_reject)
                (metropolis_Ps_acc wf_one origin1
                   (metropolis_proposal 1 draws_reject origin1))))
      false = true.
Proof.
  destruct (metropolis_equal_amplitudes wf_one 1 draws_reject (MStart origin1)
              1 0) as [_ H].
  - reflexivity.
  - reflexivity.
  - lia.
  - reflexivity.
  - simpl. lra.
  - simpl. lra.
  - exact H.
Defined.

(** X11.  The batch keeps its shape along a Metropolis chain: the
    position a step yields and the position after the overwrite that
    follows have the shape of the position the step started from. *)
Theorem metropolis_keeps_shape (wf : batch -> vec) (stepsize : R) (d : draws)
  (s s' : m_state) (y : sample) (W E D : nat) :
  has_shape W E D (m_resume s) ->
  metropolis wf stepsize d s = Yield y s' ->
  has_shape W E D (fst (fst y)) /\
  has_shape W E D (m_rs s') /\
  has_shape W E D (m_resume s').
Proof.
  intros Hs. unfold metropolis, metropolis_iter.
  destruct (acceptance_rate _ _) as [a|e]; [|discriminate].
  intros H. injection H as <- <-. cbn [fst m_rs m_resume].
  split; [exact Hs|]. split; [exact Hs|].
  unfold assign_where1. apply has_shape_assign_rows; [exact Hs|].
  unfold metropolis_proposal, tscale_r.
  apply has_shape_tmap, has_shape_randn_like, Hs.
Qed.

Lemma metropolis_keeps_shape_witness :
  exists y s',
    metropolis wf_decay 1 draws_reject (MStart origin1) = Yield y s' /\
    has_shape 1 1 3 (m_resume s').
Proof.
  assert (Hy : exists y s',
             metropolis wf_decay 1 draws_reject (MStart origin1) = Yield y s').
  { unfold metropolis, metropolis_iter.
    rewrite acceptance_rate_ok by discriminate. eexists. eexists. reflexivity. }
  destruct Hy as (y & s' & Hy). exists y, s'. split; [exact Hy|].
  destruct (metropolis_keeps_shape wf_decay 1 draws_reject (MStart origin1) s' y
              1 1 3) as (_ & _ & H).
  - apply has_shapeb_true. reflexivity.
  - exact Hy.
  - exact H.
Defined.

(** ** The HMC kernel: the leapfrog loop *)

Lemma range_empty lo hi : (hi <= lo)%Z -> range lo hi = [].
Proof.
  intros H. unfold range. replace (Z.to_nat (hi - lo)) with 0%nat by lia.
  reflexivity.
Qed.

(** X12.  [dysteps] below 1 behaves as [dysteps = 1]: the interior loop
    [for _ in range(1, steps)] does not run, and the proposal is still
    one full leapfrog step with its two force evaluations. *)
Theorem dynamics_at_least_one_step
  (quantum_force : R -> batch -> (batch -> vec) -> result (batch * vec))
  (wf : batch -> vec) (d : draws) (pos : batch) (stepsize : R) (steps : Z)
  (tau cutoff : R) :
  (steps <= 1)%Z ->
  dynamics quantum_force wf d pos stepsize steps tau cutoff =
  dynamics quantum_force wf d pos stepsize 1 tau cutoff /\
  (tau <> 0 ->
   dynamics quantum_force wf d pos stepsize steps tau cutoff =
   pv <- leapfrog (fun x => fp <- quantum_force (cutoff / tau) x wf ;; Ok (fst fp))
           stepsize 0 pos (randn_like (normal d) pos) ;;
   Ok (fst pv, snd pv, randn_like (normal d) pos)).
Proof.
  intros Hs. split.
  - unfold dynamics. rewrite (range_empty 1 steps Hs), (range_empty 1 1) by lia.
    reflexivity.
  - intros Hne. unfold dynamics, leapfrog.
    rewrite (range_empty 1 steps Hs), (py_div_ok cutoff tau Hne).
    cbn [bind].
    destruct (quantum_force (cutoff / tau) pos wf) as [[f0 psi0]|e];
      cbn [bind fst iterate_result for_each snd]; [|reflexivity].
    destruct (quantum_force (cutoff / tau) _ wf) as [[f1 psi1]|e];
      reflexivity.
Qed.

Lemma dynamics_at_least_one_step_witness :
  dynamics qforce_free wf_one draws_reject origin1 1 (-3) 1 1 =
  dynamics qforce_free wf_one draws_reject origin1 1 1 1 1.
Proof.
  destruct (dynamics_at_least_one_step qforce_free wf_one draws_reject origin1
              1 (-3) 1 1) as [H _].
  - lia.
  - exact H.
Defined.

Lemma batch_ext W E D (x y : batch) :
  has_shape W E D x -> has_shape W E D y ->
  (forall w e a, (w < W)%nat -> (e < E)%nat -> (a < D)%nat ->
     at3 x w e a = at3 y w e a) ->
  x = y.
Proof.
  intros Hx Hy Heq.
  apply (nth_ext x y [] []).
  - destruct Hx as [-> _], Hy as [-> _]. reflexivity.
  - intros w Hw. assert (Hw' : (w < W)%nat) by (destruct Hx as [<- _]; exact Hw).
    destruct (has_shape_row W E D x w Hx Hw') as [HEx HDx].
    destruct (has_shape_row W E D y w Hy Hw') as [HEy HDy].
    apply (nth_ext _ _ [] []).
    + rewrite HEx, HEy. reflexivity.
    + intros e He. rewrite HEx in He.
      apply (nth_ext _ _ 0 0).
      * rewrite (HDx e He), (HDy e He). reflexivity.
      * intros a Ha. rewrite (HDx e He) in Ha. apply (Heq w e a); assumption.
Qed.

Lemma tadd_zero_force W E D (c : R) (v x : batch) :
  has_shape W E D v -> has_shape W E D x ->
  tadd v (tscale_l c (tmap (fun _ => 0) x)) = v.
Proof.
  intros Hv Hx.
  assert (H0 : has_shape W E D (tmap (fun _ => 0) x))
    by (apply has_shape_tmap, Hx).
  assert (H1 : has_shape W E D (tscale_l c (tmap (fun _ => 0) x)))
    by (apply has_shape_tmap, H0).
  apply (batch_ext W E D); [apply has_shape_tmap2; assumption | exact Hv |].
  intros w e a Hw He Ha. unfold tadd, tscale_l.
  rewrite (at3_tmap2 W E D) by assumption.
  rewrite (at3_tmap W E D) by assumption.
  rewrite (at3_tmap W E D) by assumption.
  ring.
Qed.

Section FreeFlight.

Variable quantum_force : R -> batch -> (batch -> vec) -> result (batch * vec).
Variable wf : batch -> vec.
Variables tau cutoff stepsize : R.
Variables W E D : nat.

(** The force vanishes everywhere. *)
Hypothesis no_force : forall x,
  has_shape W E D x ->
  exists psi, quantum_force (cutoff / tau) x wf = Ok (tmap (fun _ => 0) x, psi).

Lemma free_interior (X : Type) (l : list X) :
  forall v p, has_shape W E D v -> has_shape W E D p ->
  exists p',
    for_each l (v, p)
      (fun _ vp => dynamics_step wf (quantum_force (cutoff / tau)) stepsize vp) =
      Ok (v, p') /\
    has_shape W E D p' /\
    forall w e a, (w < W)%nat -> (e < E)%nat -> (a < D)%nat ->
      at3 p' w e a = at3 p w e a + INR (length l) * stepsize * at3 v w e a.
Proof.
  induction l as [|x l IH]; intros v p Hv Hp.
  - exists p. split; [reflexivity|]. split; [exact Hp|].
    intros. simpl. ring.
  - destruct (no_force p Hp) as [psi Hq].
    assert (Hsv : has_shape W E D (tscale_l stepsize v))
      by (apply has_shape_tmap, Hv).
    assert (Hp1 : has_shape W E D (tadd p (tscale_l stepsize v)))
      by (apply has_shape_tmap2; assumption).
    destruct (IH v (tadd p (tscale_l stepsize v)) Hv Hp1) as (p' & Hfor & Hp' & Hat).
    exists p'. split; [|split; [exact Hp'|]].
    + cbn [for_each]. unfold dynamics_step at 1. rewrite Hq. cbn [bind].
      rewrite (tadd_zero_force W E D (stepsize * 2) v p Hv Hp).
      exact Hfor.
    + intros w e a Hw He Ha. rewrite (Hat w e a Hw He Ha).
      unfold tadd, tscale_l. rewrite (at3_tmap2 W E D) by assumption.
      rewrite (at3_tmap W E D) by assumption.
      change (length (x :: l)) with (S (length l)). rewrite S_INR. ring.
Qed.

End FreeFlight.

(** X13.  Where the force vanishes the leapfrog loop is a free flight:
    the final velocity is the drawn velocity, the end position is the
    start position plus [dysteps * stepsize] times that velocity, and
    the acceptance probability of an HMC step, for a walker whose
    amplitude at the start position is not zero, is the bare ratio of
    the squared amplitudes. *)
Theorem dynamics_free_flight
  (quantum_force : R -> batch -> (batch -> vec) -> result (batch * vec))
  (wf : batch -> vec) (tau cutoff stepsize : R) (W E D : nat)
  (d : draws) (pos : batch) (steps : Z) :
  (forall x, has_shape W E D x ->
     exists psi,
       quantum_force (cutoff / tau) x wf = Ok (tmap (fun _ => 0) x, psi)) ->
  tau <> 0 -> (1 <= steps)%Z ->
  has_shape W E D pos ->
  let v_0 := randn_like (normal d) pos in
  exists p_end,
    dynamics quantum_force wf d pos stepsize steps tau cutoff =
      Ok (p_end, v_0, v_0) /\
    has_shape W E D p_end /\
    (forall w e a, (w < W)%nat -> (e < E)%nat -> (a < D)%nat ->
       at3 p_end w e a =
       at3 pos w e a + IZR steps * stepsize * normal d w e a) /\
    (length (wf pos) = W -> length (wf p_end) = W ->
     forall w, (w < W)%nat -> nth w (wf pos) 0 <> 0 ->
       nth w (hmc_Ps_acc wf pos p_end v_0 v_0) NaN =
       Fin ((nth w (wf p_end) 0) ^ 2 / (nth w (wf pos) 0) ^ 2)).
Proof.
  intros Hzero Htau Hsteps Hpos v_0.
  assert (Hv0 : has_shape W E D v_0) by (apply has_shape_randn_like, Hpos).
  destruct (Hzero pos Hpos) as [psi0 Hq0].
  assert (Hsv : has_shape W E D (tscale_l stepsize v_0))
    by (apply has_shape_tmap, Hv0).
  assert (Hp1 : has_shape W E D (tadd pos (tscale_l stepsize v_0)))
    by (apply has_shape_tmap2; assumption).
  destruct (free_interior quantum_force wf tau cutoff stepsize W E D Hzero Z
              (range 1 steps) v_0 (tadd pos (tscale_l stepsize v_0)) Hv0 Hp1)
    as (p_end & Hfor & Hpe & Hat).
  destruct (Hzero p_end Hpe) as [psi1 Hq1].
  exists p_end. split; [|split; [exact Hpe|split]].
  - unfold dynamics. rewrite (py_div_ok cutoff tau Htau). cbn [bind].
    rewrite Hq0. cbn [bind]. fold v_0.
    rewrite (tadd_zero_force W E D stepsize v_0 pos Hv0 Hpos).
    rewrite Hfor. cbn [bind]. rewrite Hq1. cbn [bind].
    rewrite (tadd_zero_force W E D stepsize v_0 p_end Hv0 Hpe).
    reflexivity.
  - intros w e a Hw He Ha. rewrite (Hat w e a Hw He Ha).
    unfold tadd, tscale_l. rewrite (at3_tmap2 W E D) by assumption.
    rewrite (at3_tmap W E D) by assumption.
    unfold v_0. rewrite (at3_randn_like W E D) by assumption.
    rewrite length_range, INR_IZR_INZ, Z2Nat.id by lia.
    rewrite minus_IZR. ring.
  - intros Hpsi Hpsi' w Hw Hnz. unfold hmc_Ps_acc.
    destruct Hv0 as [Hv0W Hv0'].
    rewrite nth_xvmul; autorewrite with tensor_len;
      rewrite ?Hpsi, ?Hpsi', ?Hv0W, ?Nat.min_id; try lia.
    rewrite nth_vdiv, !nth_vpow2; autorewrite with tensor_len;
      rewrite ?Hpsi, ?Hpsi'; try lia.
    rewrite nth_vexp; autorewrite with tensor_len;
      rewrite ?Hv0W, ?Nat.min_id; try lia.
    rewrite nth_vscale_l; autorewrite with tensor_len;
      rewrite ?Hv0W, ?Nat.min_id; try lia.
    rewrite nth_vsub; autorewrite with tensor_len; rewrite ?Hv0W; try lia.
    replace (-0.5 * (nth w (tsum_inner (tpow2 v_0)) 0 -
                     nth w (tsum_inner (tpow2 v_0)) 0)) with 0 by lra.
    rewrite exp_0, xdiv_fin by (apply pow_nonzero, Hnz).
    cbn [xmul]. f_equal. ring.
Qed.

Lemma dynamics_free_flight_witness :
  exists p_end,
    dynamics qforce_free wf_one draws_reject origin1 1 3 1 1 =
      Ok (p_end, randn_like (normal draws_reject) origin1,
          randn_like (normal draws_reject) origin1) /\
    at3 p_end 0 0 0 = at3 origin1 0 0 0 + 3 * 1 * 1 /\
    nth 0 (hmc_Ps_acc wf_one origin1 p_end
             (randn_like (normal draws_reject) origin1)
             (randn_like (normal draws_reject) origin1)) NaN =
    Fin ((nth 0 (wf_one p_end) 0) ^ 2 / (nth 0 (wf_one origin1) 0) ^ 2).
Proof.
  destruct (dynamics_free_flight qforce_free wf_one 1 1 1 1 1 3 draws_reject
              origin1 3) as (p_end & Hd & Hpe & Hat & HP).
  - intros x _. exists (wf_one x). reflexivity.
  - lra.
  - lia.
  - apply has_shapeb_true. reflexivity.
  - exists p_end. split; [exact Hd|].
    split; [apply (Hat 0%nat 0%nat 0%nat); lia|].
    apply (HP eq_refl); [|lia | amplitude_nonzero].
    unfold wf_one. rewrite length_map. apply Hpe.
Defined.

(** ** The Langevin kernel: state and memory *)

Lemma load_store_other (h : heap) (l l' : nat) (v : list Z) :
  l <> l' -> load (store h l v) l' = load h l'.
Proof.
  unfold load. revert l l'; induction h as [|b h IH]; intros [|l] [|l'] Hne;
    simpl; try reflexivity; try congruence.
  apply IH. congruence.
Qed.

Lemma load_app_old (h : heap) (x : list Z) (l : nat) :
  (l < length h)%nat -> load (h ++ [x]) l = load h l.
Proof. intros Hl. unfold load. apply app_nth1. exact Hl. Qed.

Lemma load_app_new (h : heap) (x : list Z) : load (h ++ [x]) (length h) = x.
Proof. unfold load. rewrite app_nth2, Nat.sub_diag by lia. reflexivity. Qed.

Lemma langevin_iter_yield_inv
  (quantum_force : R -> batch -> (batch -> vec) -> result (batch * vec))
  (wf : batch -> vec) (tau cutoff : R) (d : draws) (h h1 : heap)
  (v v1 : l_vars) (y : sample) (forces_new : batch) (psis_new : vec) :
  quantum_force (cutoff / tau)
    (langevin_proposal tau d (l_rs v) (l_forces v)) wf =
    Ok (forces_new, psis_new) ->
  langevin_iter quantum_force wf tau cutoff d h v = (h1, Yield y (LYielded v1)) ->
  let acc := langevin_accepted tau d v forces_new psis_new in
  let hm := iadd_mask (setitem_mask h (l_lifetime v) acc 0) (l_lifetime v)
                      (map negb acc) 1 in
  h1 = fst (cpu hm (l_lifetime v)) /\
  lifetime (snd y) = Some (numpy (snd (cpu hm (l_lifetime v)))) /\
  l_lifetime v1 = l_lifetime v.
Proof.
  intros Hq. unfold langevin_iter. rewrite Hq.
  destruct (acceptance_rate _ _) as [a|e]; [|discriminate].
  unfold langevin_accepted. cbv zeta.
  destruct (cpu _ (l_lifetime v)) as [h' t]. cbn [assign_where3 fst snd].
  intros H. injection H as <- <- <-. repeat split.
Qed.

(** What one yielding step does to the memory. *)
Lemma langevin_step_memory
  (quantum_force : R -> batch -> (batch -> vec) -> result (batch * vec))
  (wf : batch -> vec) (tau cutoff : R) (d : draws) (h h1 : heap)
  (v v1 : l_vars) (y : sample) (forces_new : batch) (psis_new : vec) :
  quantum_force (cutoff / tau)
    (langevin_proposal tau d (l_rs v) (l_forces v)) wf =
    Ok (forces_new, psis_new) ->
  langevin_iter quantum_force wf tau cutoff d h v = (h1, Yield y (LYielded v1)) ->
  (t_addr (l_lifetime v) < length h)%nat ->
  let acc := langevin_accepted tau d v forces_new psis_new in
  let addr := t_addr (l_lifetime v) in
  l_lifetime v1 = l_lifetime v /\
  (length h <= length h1)%nat /\
  (forall a, a <> addr -> (a < length h)%nat -> load h1 a = load h a) /\
  (length acc = length (load h addr) ->
   load h1 addr = counter_step acc (load h addr)) /\
  read_lifetime h1 (snd y) = load h1 addr /\
  match t_device (l_lifetime v) with
  | CPU => lifetime (snd y) = Some addr
  | CUDA => lifetime (snd y) = Some (length h) /\ length h1 = S (length h)
  end.
Proof.
  intros Hq Hiter Haddr acc addr.
  destruct (langevin_iter_yield_inv quantum_force wf tau cutoff d h h1 v v1 y
              forces_new psis_new Hq Hiter) as (Hh1 & Hinfo & Hlt).
  fold acc in Hh1, Hinfo.
  set (hm := iadd_mask (setitem_mask h (l_lifetime v) acc 0) (l_lifetime v)
                       (map negb acc) 1) in *.
  assert (Hlm : length hm = length h).
  { unfold hm, iadd_mask, setitem_mask. rewrite !length_store. reflexivity. }
  assert (Hother : forall a, a <> addr -> load hm a = load h a).
  { intros a Ha. unfold hm, iadd_mask, setitem_mask.
    rewrite !load_store_other by (fold addr; congruence). reflexivity. }
  assert (Hlive : length acc = length (load h addr) ->
                  load hm addr = counter_step acc (load h addr)).
  { intros Hlen. apply lifetime_counter_step; assumption. }
  unfold read_lifetime. rewrite Hinfo.
  unfold cpu, numpy in *. destruct (t_device (l_lifetime v)) eqn:Hdev.
  - cbn [fst snd] in *. subst h1. fold addr.
    repeat split; auto; try lia.
  - cbn [alloc fst snd t_addr] in *. subst h1. fold addr. fold addr in Haddr.
    split; [exact Hlt|].
    split; [rewrite length_app, Hlm; cbn [length]; lia|].
    split; [|split; [|split]].
    + intros a Ha Hlta. rewrite load_app_old by lia. apply Hother, Ha.
    + intros Hlen. rewrite load_app_old by lia. apply Hlive, Hlen.
    + rewrite load_app_new, load_app_old by lia. reflexivity.
    + split; [rewrite Hlm; reflexivity|].
      rewrite length_app, Hlm. cbn [length]. lia.
Qed.

Lemma l_steps_frame
  (quantum_force : R -> batch -> (batch -> vec) -> result (batch * vec))
  (wf : batch -> vec) (tau cutoff : R) h v evs h' v' :
  l_steps quantum_force wf tau cutoff h v evs h' v' ->
  (t_addr (l_lifetime v) < length h)%nat ->
  l_lifetime v' = l_lifetime v /\
  (length h <= length h')%nat /\
  forall a, a <> t_addr (l_lifetime v) -> (a < length h)%nat ->
            load h' a = load h a.
Proof.
  induction 1 as [h v | h v d F' psi' h1 y v1 evs h2 v2 Hq Hiter _ IH];
    intros Haddr.
  - repeat split; auto.
  - destruct (langevin_step_memory quantum_force wf tau cutoff d h h1 v v1 y
                F' psi' Hq Hiter Haddr) as (Hlt & Hlen & Hfr & _).
    rewrite Hlt in IH. destruct (IH ltac:(lia)) as (Hlt' & Hlen' & Hfr').
    split; [congruence|]. split; [lia|].
    intros a Ha Hla. rewrite Hfr' by (auto; lia). apply Hfr; assumption.
Qed.

Lemma l_steps_counter
  (quantum_force : R -> batch -> (batch -> vec) -> result (batch * vec))
  (wf : batch -> vec) (tau cutoff : R) (W : nat) h v evs h' v' :
  l_steps quantum_force wf tau cutoff h v evs h' v' ->
  (t_addr (l_lifetime v) < length h)%nat ->
  length (load h (t_addr (l_lifetime v))) = W ->
  Forall (fun ev => length (ev_mask ev) = W) evs ->
  load h' (t_addr (l_lifetime v)) =
  fold_left (fun c m => counter_step m c) (map ev_mask evs)
            (load h (t_addr (l_lifetime v))).
Proof.
  induction 1 as [h v | h v d F' psi' h1 y v1 evs h2 v2 Hq Hiter _ IH];
    intros Haddr Hc HF.
  - reflexivity.
  - inversion HF as [|? ? Hm HF']; subst. cbn [ev_mask] in Hm.
    destruct (langevin_step_memory quantum_force wf tau cutoff d h h1 v v1 y
                F' psi' Hq Hiter Haddr) as (Hlt & Hlen & _ & Hlive & _).
    specialize (Hlive ltac:(congruence)).
    rewrite Hlt in IH. cbn [map fold_left ev_mask]. rewrite <- Hlive.
    apply IH; [lia | | exact HF'].
    rewrite Hlive. unfold counter_step. rewrite length_zip_with, Hm.
    rewrite Nat.min_id. reflexivity.
Qed.

(** X14.  Along any run of yielding Langevin steps (fewer than 2^63)
    that starts with a zero counter, the live lifetime counter of every
    walker is the number of its consecutive rejections since its last
    acceptance, and every diagnostics record read right after its own
    [yield] shows the counter of that moment. *)
Theorem lifetime_counts_rejections
  (quantum_force : R -> batch -> (batch -> vec) -> result (batch * vec))
  (wf : batch -> vec) (tau cutoff : R) (W : nat) h v evs h' v' :
  l_steps quantum_force wf tau cutoff h v evs h' v' ->
  (t_addr (l_lifetime v) < length h)%nat ->
  load h (t_addr (l_lifetime v)) = repeat 0%Z W ->
  Forall (fun ev => length (ev_mask ev) = W) evs ->
  (Z.of_nat (length evs) < 2 ^ 63)%Z ->
  (forall w, (w < W)%nat ->
     nth w (load h' (t_addr (l_lifetime v))) 0%Z =
     Z.of_nat (trailing_rejections
                 (rev (map (fun ev => nth w (ev_mask ev) false) evs)))) /\
  Forall (fun ev =>
            read_lifetime (ev_heap ev) (ev_info ev) =
            load (ev_heap ev) (t_addr (l_lifetime v))) evs.
Proof.
  intros Hrun Haddr Hzero HF Hlen. split.
  - intros w Hw.
    rewrite (l_steps_counter quantum_force wf tau cutoff W h v evs h' v' Hrun
               Haddr) by (rewrite ?Hzero, ?repeat_length; auto).
    rewrite Hzero.
    pose proof (counter_counts_rejections W (map ev_mask evs) w) as Hc.
    unfold counter_after in Hc. rewrite Hc.
    + rewrite map_map. reflexivity.
    + apply Forall_map. exact HF.
    + rewrite length_map. exact Hlen.
    + exact Hw.
  - clear Hzero HF Hlen. revert Haddr.
    induction Hrun as [h v | h v d F' psi' h1 y v1 evs h2 v2 Hq Hiter _ IH];
      intros Haddr; constructor.
    + cbn [ev_heap ev_info].
      destruct (langevin_step_memory quantum_force wf tau cutoff d h h1 v v1 y
                  F' psi' Hq Hiter Haddr) as (_ & _ & _ & _ & Hread & _).
      exact Hread.
    + destruct (langevin_step_memory quantum_force wf tau cutoff d h h1 v v1 y
                  F' psi' Hq Hiter Haddr) as (Hlt & Hl & _).
      rewrite Hlt in IH. apply IH. lia.
Qed.

(** X15.  On the CPU the lifetime array of every diagnostics record a
    Langevin generator has yielded is the buffer of the live counter:
    read after any later step, every record shows the latest counts. *)
Theorem lifetime_arrays_alias_on_cpu
  (quantum_force : R -> batch -> (batch -> vec) -> result (batch * vec))
  (wf : batch -> vec) (tau cutoff : R) h v evs h' v' :
  l_steps quantum_force wf tau cutoff h v evs h' v' ->
  t_device (l_lifetime v) = CPU ->
  (t_addr (l_lifetime v) < length h)%nat ->
  Forall (fun ev =>
            read_lifetime h' (ev_info ev) = load h' (t_addr (l_lifetime v)))
         evs.
Proof.
  induction 1 as [h v | h v d F' psi' h1 y v1 evs h2 v2 Hq Hiter _ IH];
    intros Hdev Haddr; constructor.
  - cbn [ev_info].
    destruct (langevin_step_memory quantum_force wf tau cutoff d h h1 v v1 y
                F' psi' Hq Hiter Haddr) as (_ & _ & _ & _ & _ & Hinfo).
    rewrite Hdev in Hinfo. unfold read_lifetime. rewrite Hinfo. reflexivity.
  - destruct (langevin_step_memory quantum_force wf tau cutoff d h h1 v v1 y
                F' psi' Hq Hiter Haddr) as (Hlt & Hl & _).
    rewrite Hlt in IH. apply IH; [exact Hdev | lia].
Qed.

(** X16.  On another device every diagnostics record holds a copy of
    the counter in a buffer of its own, which no later step writes:
    read after any later step, the record still shows the counter as it
    was at its own [yield]. *)
Theorem lifetime_arrays_snapshot_on_cuda
  (quantum_force : R -> batch -> (batch -> vec) -> result (batch * vec))
  (wf : batch -> vec) (tau cutoff : R) h v evs h' v' :
  l_steps quantum_force wf tau cutoff h v evs h' v' ->
  t_device (l_lifetime v) = CUDA ->
  (t_addr (l_lifetime v) < length h)%nat ->
  Forall (fun ev =>
            read_lifetime h' (ev_info ev) =
            load (ev_heap ev) (t_addr (l_lifetime v)))
         evs.
Proof.
  induction 1 as [h v | h v d F' psi' h1 y v1 evs h2 v2 Hq Hiter Hrest IH];
    intros Hdev Haddr; constructor.
  - cbn [ev_info ev_heap].
    destruct (langevin_step_memory quantum_force wf tau cutoff d h h1 v v1 y
                F' psi' Hq Hiter Haddr) as (Hlt & Hl & _ & _ & Hread & Hinfo).
    rewrite Hdev in Hinfo. destruct Hinfo as [Hinfo Hlen1].
    rewrite <- Hread. unfold read_lifetime. rewrite Hinfo.
    destruct (l_steps_frame quantum_force wf tau cutoff h1 v1 evs h2 v2 Hrest)
      as (_ & _ & Hfr); [rewrite Hlt; lia|].
    apply Hfr; [rewrite Hlt; lia | lia].
  - destruct (langevin_step_memory quantum_force wf tau cutoff d h h1 v v1 y
                F' psi' Hq Hiter Haddr) as (Hlt & Hl & _).
    rewrite Hlt in IH. apply IH; [exact Hdev | lia].
Qed.

(** Two rejected steps of the example chain, on either device. *)
Lemma example_two_rejections (dev : device) :
  exists evs h',
    l_steps qforce_free wf_decay 1 1 [[0%Z]] (l_vars_at (mkLong dev 0))
            evs h' (l_vars_at (mkLong dev 0)) /\
    length evs = 2%nat /\
    Forall (fun ev => length (ev_mask ev) = 1%nat) evs.
Proof.
  eexists. eexists. split; [|split].
  - refine (@l_steps_cons qforce_free wf_decay 1 1 _ _ draws_reject _ _ _ _ _ _
              _ _ eq_refl (example_step_reject _ _) _).
    refine (@l_steps_cons qforce_free wf_decay 1 1 _ _ draws_reject _ _ _ _ _ _
              _ _ eq_refl (example_step_reject _ _) _).
    apply l_steps_nil.
  - reflexivity.
  - repeat constructor.
Qed.

Lemma lifetime_counts_rejections_witness :
  exists evs h',
    length evs = 2%nat /\
    nth 0 (load h' 0) 0%Z =
    Z.of_nat (trailing_rejections
                (rev (map (fun ev => nth 0 (ev_mask ev) false) evs))).
Proof.
  destruct (example_two_rejections CPU) as (evs & h' & Hrun & Hlen & Hmasks).
  exists evs, h'. split; [exact Hlen|].
  destruct (lifetime_counts_rejections qforce_free wf_decay 1 1 1 _ _ _ _ _ Hrun)
    as [H _].
  - simpl. lia.
  - reflexivity.
  - exact Hmasks.
  - rewrite Hlen. simpl. lia.
  - apply (H 0%nat). lia.
Defined.

Lemma lifetime_arrays_alias_on_cpu_witness :
  exists evs h',
    length evs = 2%nat /\
    Forall (fun ev => read_lifetime h' (ev_info ev) = load h' 0) evs.
Proof.
  destruct (example_two_rejections CPU) as (evs & h' & Hrun & Hlen & _).
  exists evs, h'. split; [exact Hlen|].
  apply (lifetime_arrays_alias_on_cpu qforce_free wf_decay 1 1 _ _ _ _ _ Hrun).
  - reflexivity.
  - simpl. lia.
Defined.

Lemma lifetime_arrays_snapshot_on_cuda_witness :
  exists evs h',
    length evs = 2%nat /\
    Forall (fun ev => read_lifetime h' (ev_info ev) = load (ev_heap ev) 0) evs.
Proof.
  destruct (example_two_rejections CUDA) as (evs & h' & Hrun & Hlen & _).
  exists evs, h'. split; [exact Hlen|].
  apply (lifetime_arrays_snapshot_on_cuda qforce_free wf_decay 1 1 _ _ _ _ _ Hrun).
  - reflexivity.
  - simpl. lia.
Defined.

(** X17.  Position, amplitude and forces of a Langevin generator stay
    consistent: on every call of [next] on a generator in a state it
    reaches from its creation (for a force provider that keeps shapes
    and treats walkers independently), the forces and amplitudes at the
    top of the loop are what the force provider returns at the position
    held there, and all three have the shape of the starting batch. *)
Theorem langevin_state_consistent
  (quantum_force : R -> batch -> (batch -> vec) -> result (batch * vec))
  (wf : batch -> vec) (tau cutoff : R) (W E D : nat) (dev : device)
  (rs0 : batch) (h0 h : heap) (s : l_state) (h1 : heap) (v : l_vars) :
  (forall x F psi,
     has_shape W E D x ->
     quantum_force (cutoff / tau) x wf = Ok (F, psi) ->
     has_shape W E D F /\ length psi = W) ->
  (forall x y Fx psix Fy psiy (m : mask),
     has_shape W E D x -> has_shape W E D y -> length m = W ->
     quantum_force (cutoff / tau) x wf = Ok (Fx, psix) ->
     quantum_force (cutoff / tau) y wf = Ok (Fy, psiy) ->
     quantum_force (cutoff / tau) (assign_rows m x y) wf =
       Ok (assign_rows m Fx Fy, assign_rows m psix psiy)) ->
  has_shape W E D rs0 ->
  l_reached quantum_force wf tau cutoff dev rs0 h0 h (Suspended s) ->
  l_enter quantum_force wf tau cutoff h s = Ok (h1, v) ->
  quantum_force (cutoff / tau) (l_rs v) wf = Ok (l_forces v, l_psis v) /\
  has_shape W E D (l_rs v) /\
  has_shape W E D (l_forces v) /\
  length (l_psis v) = W.
Proof.
  intros Hshape Hlocal Hrs0 Hreach Henter.
  destruct (langevin_invariant quantum_force wf tau cutoff W E D Hshape Hlocal
              dev rs0 h0 h _ Hrs0 Hreach s h1 v eq_refl Henter)
    as (_ & Hrs & Hq).
  destruct (Hshape _ _ _ Hrs Hq) as [HF Hpsi].
  split; [exact Hq|]. split; [exact Hrs|]. split; [exact HF | exact Hpsi].
Qed.

Lemma langevin_state_consistent_witness :
  qforce_free (1 / 1) origin1 wf_decay =
  Ok (tmap (fun _ => 0) origin1, wf_decay origin1).
Proof.
  destruct (langevin_state_consistent qforce_free wf_decay 1 1 1 1 3
              CPU origin1 []
              (fst (cpu (iadd_mask (setitem_mask [[0%Z]] (mkLong CPU 0)
                                      [false] 0)
                           (mkLong CPU 0) [true] 1) (mkLong CPU 0)))
              (LYielded (l_vars_at (mkLong CPU 0)))
              (fst (cpu (iadd_mask (setitem_mask [[0%Z]] (mkLong CPU 0)
                                      [false] 0)
                           (mkLong CPU 0) [true] 1) (mkLong CPU 0)))
              (l_vars_at (mkLong CPU 0))
              (fun x F psi => qforce_free_shape 1 1 3 (1 / 1) x F psi)
              (fun x y Fx psix Fy psiy m _ _ _ =>
                 qforce_free_local (1 / 1) x y Fx psix Fy psiy m))
    as [H _].
  - apply has_shapeb_true. reflexivity.
  - refine (@l_reached_next qforce_free wf_decay 1 1 CPU origin1 [] []
              (Suspended (LStart CPU origin1)) draws_reject _ _ _
              (@l_reached_created qforce_free wf_decay 1 1 CPU origin1 [])
              _).
    cbn [gen_next]. rewrite (example_start_reject CPU). reflexivity.
  - reflexivity.
  - exact H.
Defined.

Lemma big_sum_zero n : big_sum n (fun _ => 0) = 0.
Proof.
  unfold big_sum, rsum. induction (seq 0 n) as [|i l IH]; simpl.
  - reflexivity.
  - rewrite IH. ring.
Qed.

Lemma nth_log_G_ratios W E D tau (rs rs_new F F' : batch) w :
  has_shape W E D rs -> has_shape W E D rs_new ->
  has_shape W E D F -> has_shape W E D F' -> (w < W)%nat ->
  nth w (log_G_ratios tau rs rs_new F F') 0 =
  sum_axes E D (fun e a =>
    mh_term tau (at3 rs w e a) (at3 rs_new w e a) (at3 F w e a) (at3 F' w e a)).
Proof.
  intros Hrs Hnew HF HF' Hw.
  assert (Hsub : has_shape W E D (tsub rs rs_new))
    by (apply has_shape_tmap2; assumption).
  assert (HsubF : has_shape W E D (tsub F F'))
    by (apply has_shape_tmap2; assumption).
  assert (Hadd : has_shape W E D (tadd F F'))
    by (apply has_shape_tmap2; assumption).
  assert (Hsc : has_shape W E D (tscale_l (tau / 2) (tsub F F')))
    by (apply has_shape_tmap; assumption).
  assert (Hrhs : has_shape W E D
            (tadd (tsub rs rs_new) (tscale_l (tau / 2) (tsub F F'))))
    by (apply has_shape_tmap2; assumption).
  unfold log_G_ratios.
  rewrite (nth_tsum_inner W E D) by (try apply has_shape_tmap2; assumption).
  unfold sum_axes. apply big_sum_ext; intros e He.
  apply big_sum_ext; intros a Ha. unfold mh_term, tmul, tadd, tsub, tscale_l.
  rewrite (at3_tmap2 W E D) by assumption.
  rewrite (at3_tmap2 W E D _ F F') by assumption.
  rewrite (at3_tmap2 W E D _ (tmap2 Rminus rs rs_new)) by assumption.
  rewrite (at3_tmap2 W E D _ rs rs_new) by assumption.
  rewrite (at3_tmap W E D) by assumption.
  rewrite (at3_tmap2 W E D _ F F') by assumption.
  reflexivity.
Qed.

(** X18.  Without drift the Hastings correction of the Langevin kernel
    vanishes: when the forces at the current position and at the
    proposal are zero, the log correction of the walker is 0 and,
    when its current amplitude is not zero, its acceptance probability
    is the bare ratio of the squared amplitudes, as in the Metropolis
    kernel. *)
Theorem langevin_no_drift (tau : R) (W E D : nat)
  (rs rs_new F F' : batch) (psis psis_new : vec) (w : nat) :
  has_shape W E D rs -> has_shape W E D rs_new ->
  has_shape W E D F -> has_shape W E D F' ->
  length psis = W -> length psis_new = W -> (w < W)%nat ->
  (forall e a, (e < E)%nat -> (a < D)%nat ->
     at3 F w e a = 0 /\ at3 F' w e a = 0) ->
  nth w (log_G_ratios tau rs rs_new F F') 0 = 0 /\
  (nth w psis 0 <> 0 ->
   nth w (langevin_Ps_acc tau rs rs_new F F' psis psis_new) NaN =
     Fin ((nth w psis_new 0) ^ 2 / (nth w psis 0) ^ 2)).
Proof.
  intros Hrs Hnew HF HF' Hpsi Hpsi' Hw Hzero.
  assert (Hlog : nth w (log_G_ratios tau rs rs_new F F') 0 = 0).
  { rewrite (nth_log_G_ratios W E D) by assumption.
    unfold sum_axes.
    rewrite (big_sum_ext E _ (fun _ => 0)); [apply big_sum_zero|].
    intros e He.
    rewrite (big_sum_ext D _ (fun _ => 0)); [apply big_sum_zero|].
    intros a Ha. destruct (Hzero e a He Ha) as [-> ->].
    unfold mh_term. ring. }
  split; [exact Hlog|]. intros Hnz.
  assert (HlenG : length (log_G_ratios tau rs rs_new F F') = W).
  { unfold log_G_ratios. rewrite length_tsum_inner.
    assert (Hm : has_shape W E D
              (tmul (tadd F F')
                 (tadd (tsub rs rs_new) (tscale_l (tau / 2) (tsub F F'))))).
    { unfold tmul, tadd, tsub, tscale_l.
      repeat first [apply has_shape_tmap2 | apply has_shape_tmap | assumption]. }
    destruct Hm as [-> _]. reflexivity. }
  unfold langevin_Ps_acc.
  rewrite nth_vdiv; autorewrite with tensor_len;
    rewrite ?HlenG, ?Hpsi, ?Hpsi', ?Nat.min_id; try lia.
  rewrite nth_vmul; autorewrite with tensor_len;
    rewrite ?HlenG, ?Hpsi'; try lia.
  rewrite nth_vexp by (rewrite HlenG; lia).
  rewrite !nth_vpow2 by lia.
  rewrite Hlog, exp_0, xdiv_fin by (apply pow_nonzero, Hnz).
  f_equal. lra.
Qed.

Lemma langevin_no_drift_witness :
  nth 0 (log_G_ratios 1 origin1 [[[1; 1; 1]]] (tmap (fun _ => 0) origin1)
           (tmap (fun _ => 0) origin1)) 0 = 0 /\
  nth 0 (langevin_Ps_acc 1 origin1 [[[1; 1; 1]]] (tmap (fun _ => 0) origin1)
           (tmap (fun _ => 0) origin1) [1] [1 / 2]) NaN =
  Fin ((nth 0 [1 / 2] 0) ^ 2 / (nth 0 [1] 0) ^ 2).
Proof.
  destruct (langevin_no_drift 1 1 1 3 origin1 [[[1; 1; 1]]]
              (tmap (fun _ => 0) origin1) (tmap (fun _ => 0) origin1)
              [1] [1 / 2] 0) as [H HP];
    try (apply has_shapeb_true; reflexivity); try reflexivity; try lia.
  - intros e a He Ha.
    assert (e = 0)%nat by lia. subst e.
    destruct a as [|[|[|a]]]; try lia; split; reflexivity.
  - split; [exact H|]. apply HP. cbn [nth]. lra.
Defined.

(** ** The initialisers: how often an atom is drawn *)

Lemma count_concat_repeat (a : list nat) (q x : nat) :
  count_occ Nat.eq_dec (concat (repeat a q)) x =
  (q * count_occ Nat.eq_dec a x)%nat.
Proof.
  induction q as [|q IH]; simpl; [reflexivity|].
  rewrite count_occ_app, IH. reflexivity.
Qed.

Lemma drawn_in_passes_counts (a : list nat) (n : nat) (p : list nat) :
  a <> [] -> (0 < n)%nat ->
  drawn_in_passes a n p ->
  forall x,
    ((n - 1) / length a * count_occ Nat.eq_dec a x
       <= count_occ Nat.eq_dec p x)%nat /\
    (count_occ Nat.eq_dec p x
       <= ((n - 1) / length a + 1) * count_occ Nat.eq_dec a x)%nat /\
    ((n mod length a = 0)%nat ->
     count_occ Nat.eq_dec p x = (n / length a * count_occ Nat.eq_dec a x)%nat).
Proof.
  intros Ha Hn (q & r & sub & rest & Hq & Hr & Hpos & Hsub & Hperm & Hp) x.
  assert (Hlen : (0 < length a)%nat) by (destruct a; [congruence | simpl; lia]).
  specialize (Hpos Hn).
  assert (Eq : ((n - 1) / length a = q)%nat).
  { symmetry. apply (Nat.div_unique _ _ _ (r - 1)); lia. }
  rewrite Eq.
  pose proof (proj1 (Permutation_count_occ Nat.eq_dec _ _) Hp x) as Hcp.
  pose proof (proj1 (Permutation_count_occ Nat.eq_dec _ _) Hperm x) as Hca.
  rewrite count_occ_app, count_concat_repeat in Hcp.
  rewrite count_occ_app in Hca.
  split; [lia|]. split; [lia|].
  intros Hmod.
  assert (Er : r = length a).
  { destruct (Nat.eq_dec r (length a)) as [E|Hne]; [exact E|].
    assert (Hrm : (r = n mod length a)%nat)
      by (apply (Nat.mod_unique _ _ q); lia).
    lia. }
  assert (Hrest : rest = []).
  { pose proof (Permutation_length Hperm) as HL. rewrite length_app in HL.
    destruct rest; [reflexivity | simpl in HL; lia]. }
  subst rest. simpl in Hca. rewrite Nat.add_0_r in Hca.
  assert (En : (n / length a = q + 1)%nat).
  { symmetry. apply Nat.div_unique_exact; lia. }
  rewrite En. lia.
Qed.

Lemma take_zero (a : list nat) (g : rng) :
  exists g', take a 0 g = Some ([], g').
Proof.
  unfold take. cbn [take_loop]. destruct (Nat.ltb_spec (length a) 0); [lia|].
  unfold np_choice. destruct (np_permutation a g) as [p g1].
  cbn [firstn app concat]. eexists. reflexivity.
Qed.

(** X19.  [take(a, n)] with a non-empty pool and a positive [n] ends
    and returns [n] entries of the pool.  With [q = (n - 1) / len(a)],
    every value occurs at least [q] times and at most [q + 1] times as
    often as in the pool, and exactly [n / len(a)] times as often when
    [n] is a multiple of [len(a)].  [take(a, 0)] ends with an empty
    array. *)
Theorem take_counts (a : list nat) (n : nat) (g : rng) :
  (a <> [] -> exists g', take a 0 g = Some ([], g')) /\
  (a <> [] -> (0 < n)%nat ->
   exists p g',
     take a n g = Some (p, g') /\
     length p = n /\
     (forall x, In x p -> In x a) /\
     forall x,
       ((n - 1) / length a * count_occ Nat.eq_dec a x
          <= count_occ Nat.eq_dec p x)%nat /\
       (count_occ Nat.eq_dec p x
          <= ((n - 1) / length a + 1) * count_occ Nat.eq_dec a x)%nat /\
       ((n mod length a = 0)%nat ->
        count_occ Nat.eq_dec p x =
        (n / length a * count_occ Nat.eq_dec a x)%nat)).
Proof.
  split.
  - intros _. apply take_zero.
  - intros Ha Hn.
    destruct (take_spec a n g Ha) as (p & g' & Htake & Hd & Hlen & Hin).
    exists p, g'. split; [exact Htake|]. split; [exact Hlen|].
    split; [exact Hin|].
    apply drawn_in_passes_counts; assumption.
Qed.

Lemma take_counts_witness :
  exists p g',
    take [0; 1; 2; 2]%nat 8 [3; 1; 4; 1; 5]%nat = Some (p, g') /\
    count_occ Nat.eq_dec p 2%nat = 4%nat.
Proof.
  destruct (take_counts [0; 1; 2; 2]%nat 8 [3; 1; 4; 1; 5]%nat) as [_ H].
  destruct H as (p & g' & Htake & _ & _ & Hc); [discriminate | lia |].
  exists p, g'. split; [exact Htake|].
  destruct (Hc 2%nat) as (_ & _ & Hex). apply Hex. reflexivity.
Defined.

(** X20.  When the electron count is [k] times the total charge
    ([k >= 1]; [k = 1] for a neutral molecule), every walker that
    [sample_start] seeds gets exactly [k] times its charge in electrons
    at every atom, whatever the random source gives. *)
Theorem sample_start_neutral (geom : Geometry) (n_walker k : nat) (g : rng) :
  (0 < list_sum (charges geom))%nat -> (0 < k)%nat ->
  let a := np_repeat (seq 0 (length (charges geom))) (charges geom) in
  exists ind g',
    take_each n_walker a (k * list_sum (charges geom)) g = Some (ind, g') /\
    (forall var cuda noise,
       sample_start geom n_walker (k * list_sum (charges geom)) var cuda noise g =
       Some (if (n_walker =? 0)%nat then Raise TypeError
             else
               taken <- gather (coords geom) ind ;;
               centers <- view_3d (concat (concat taken))
                            (k * list_sum (charges geom)) 3 ;;
               pos <- broadcast_add
                        (tscale_r (randn noise n_walker
                                     (k * list_sum (charges geom)) 3) var)
                        centers ;;
               Ok (if cuda then CUDA else CPU, pos))) /\
    length ind = n_walker /\
    forall w j, (w < n_walker)%nat -> (j < length (charges geom))%nat ->
      count_occ Nat.eq_dec (nth w ind []) j = (k * nth j (charges geom) 0)%nat.
Proof.
  intros Hsum Hk a.
  assert (Hla : length a = list_sum (charges geom))
    by apply np_repeat_seq_length.
  assert (Ha : a <> []) by (intros E0; rewrite E0 in Hla; simpl in Hla; lia).
  destruct (take_each_spec a (k * list_sum (charges geom)) Ha n_walker g)
    as (ind & g' & Heach & Hlen & Hall).
  exists ind, g'. split; [exact Heach|].
  split; [intros var cuda noise; unfold sample_start; fold a; rewrite Heach;
          reflexivity|].
  split; [exact Hlen|].
  intros w j Hw Hj. rewrite Forall_forall in Hall.
  destruct (Hall (nth w ind [])) as (Hd & _ & _); [apply nth_In; lia|].
  destruct (drawn_in_passes_counts a (k * list_sum (charges geom))
              (nth w ind []) Ha ltac:(nia) Hd j) as (_ & _ & Hex).
  rewrite Hex.
  - rewrite Hla, Nat.div_mul by lia. f_equal.
    unfold a. rewrite np_repeat_seq_count. bool_cases.
    rewrite Nat.sub_0_r. reflexivity.
  - rewrite Hla. apply Nat.Div0.mod_mul.
Qed.

Lemma sample_start_neutral_witness :
  exists ind g',
    take_each 4 (np_repeat (seq 0 3) [1; 1; 8]%nat) 10 [3; 1; 4]%nat =
      Some (ind, g') /\
    count_occ Nat.eq_dec (nth 0 ind []) 2%nat = 8%nat.
Proof.
  destruct (sample_start_neutral water 4 1 [3; 1; 4]%nat)
    as (ind & g' & Heach & _ & _ & Hc).
  - simpl. lia.
  - lia.
  - exists ind, g'. split; [exact Heach|]. apply (Hc 0%nat 2%nat); simpl; lia.
Defined.

Lemma take_each_zero (a : list nat) :
  forall W g, exists g', take_each W a 0 g = Some (repeat [] W, g').
Proof.
  induction W as [|W IH]; intros g; cbn [take_each repeat].
  - exists g. reflexivity.
  - destruct (take_zero a g) as [g1 Ht]. rewrite Ht.
    destruct (IH g1) as [g2 He]. rewrite He. exists g2. reflexivity.
Qed.

Lemma gather_empty_rows (X : Type) (x : list X) (W : nat) :
  gather x (repeat [] W) = Ok (repeat [] W).
Proof.
  induction W as [|W IH]; cbn [gather repeat index_rows bind];
    [reflexivity|].
  rewrite IH. reflexivity.
Qed.

Lemma concat_repeat_nil (X : Type) (W : nat) :
  concat (repeat (@nil X) W) = [].
Proof. induction W; simpl; auto. Qed.

(** X21.  [sample_start] does not return an empty batch.  With
    [n_walker = 0] it raises [TypeError]: the empty index array is an
    array of floats.  With [n_electrons = 0], at least one walker and an
    atom to draw from it raises [RuntimeError] at the reshape, where the
    size -1 cannot be inferred.  So a batch that is returned has at least
    one walker and one electron. *)
Theorem sample_start_degenerate (geom : Geometry) (var : R) (cuda : bool)
  (noise : nat -> nat -> nat -> R) (g : rng) :
  (forall n_electrons,
     sample_start geom 0 n_electrons var cuda noise g = Some (Raise TypeError)) /\
  (forall n_walker,
     (0 < n_walker)%nat ->
     np_repeat (seq 0 (length (charges geom))) (charges geom) <> [] ->
     sample_start geom n_walker 0 var cuda noise g = Some (Raise RuntimeError)) /\
  (forall n_walker n_electrons dev pos,
     sample_start geom n_walker n_electrons var cuda noise g
       = Some (Ok (dev, pos)) ->
     (0 < n_walker)%nat /\ (0 < n_electrons)%nat).
Proof.
  assert (H0 : forall n_walker, (0 < n_walker)%nat ->
            sample_start geom n_walker 0 var cuda noise g
              = Some (Raise RuntimeError)).
  { intros n_walker HW. unfold sample_start.
    destruct (take_each_zero
                (np_repeat (seq 0 (length (charges geom))) (charges geom))
                n_walker g) as [g' He].
    rewrite He.
    destruct (Nat.eqb_spec n_walker 0) as [E|_]; [lia|].
    rewrite gather_empty_rows. cbn [bind].
    rewrite concat_repeat_nil. reflexivity. }
  split; [reflexivity|]. split.
  - intros n_walker HW _. apply H0, HW.
  - intros n_walker n_electrons dev pos H.
    destruct n_walker as [|W].
    + unfold sample_start in H. cbn [take_each Nat.eqb] in H. discriminate H.
    + split; [lia|]. destruct n_electrons as [|n]; [|lia].
      rewrite H0 in H by lia. discriminate H.
Qed.

Lemma sample_start_degenerate_witness :
  sample_start water 2 0 1 false (fun _ _ _ => 0) [] = Some (Raise RuntimeError).
Proof.
  destruct (sample_start_degenerate water 1 false (fun _ _ _ => 0) [])
    as (_ & H & _).
  apply H; [lia | discriminate].
Defined.

(** ** rand_from_mf when every row of occupations adds up *)






